(** * cinatra::coro_http_server: static files, ranges, proxy, acceptor, stop

    A shallow embedding of [include/ylt/thirdparty/cinatra/coro_http_server.hpp].
    Coroutines are written in direct style: a [co_await] on the connection or
    on the file is a call that threads the connection and the file through.
    A connection records every write issued on it ([wire]) and carries the
    outcomes the peer will give to the successive writes ([write_results]);
    a file carries the outcomes of the successive reads ([read_faults]).

    [size_t] values are [N] (wrap-around written with [to_size_t] and
    [size_add]); the [int] bounds of a byte range are [Z], and [int]
    arithmetic on them is written with [int_add] and [int_sub]; strings are
    [string], one character per byte. *)

From Stdlib Require Import ZArith NArith String Ascii List Bool Lia.
From stdpp Require Import base option gmap strings list pretty.

Local Open Scope Z_scope.

(** ** Strings *)

Definition strlen (s : string) : N := N.of_nat (String.length s).

Definition empty_str (s : string) : bool :=
  match s with EmptyString => true | String _ _ => false end.

(** [s.find(pat)]: position of the first occurrence, [None] for [npos]. *)
Definition find (pat s : string) : option nat := String.index 0 pat s.

(** [s.substr(pos)]: the suffix that starts at [pos]. *)
Definition substr (pos : nat) (s : string) : string :=
  String.substring pos (String.length s - pos) s.

(** [std::to_string] on [size_t] and on [int]. *)
Definition size_to_string (n : N) : string := pretty n.
Definition int_to_string (z : Z) : string := pretty z.

(** ** Machine arithmetic on [size_t] *)

Definition SIZE_MAX_plus_1 : Z := 2 ^ 64.

(** Conversion of an integer expression to [size_t]. *)
Definition to_size_t (z : Z) : N := Z.to_N (z mod SIZE_MAX_plus_1).

(** [a += b] on [size_t]. *)
Definition size_add (a b : N) : N := to_size_t (Z.of_N a + Z.of_N b).

(** ** Machine arithmetic on [int] *)

Definition INT_MAX : Z := 2 ^ 31 - 1.

(** The value of a 32-bit [int] expression whose mathematical result is [z].
    Signed overflow is undefined in C++; the model gives it the two's
    complement result that the usual targets compute. *)
Definition to_int (z : Z) : Z := (z + 2 ^ 31) mod 2 ^ 32 - 2 ^ 31.

Definition int_add (a b : Z) : Z := to_int (a + b).
Definition int_sub (a b : Z) : Z := to_int (a - b).

(** ** Constants of [define.h] *)

(** Modelled from the spec: [define.h] is not among the sources; the spec
    gives [CRLF] as carriage return, line feed and [TWO_CRLF] as two of them.
    [BOUNDARY] and [MULTIPART_END] are only described as fixed tokens, so they
    are parameters of the development (see [Section server]). *)
Definition CRCF : string := String "013" (String "010" "").
Definition TWO_CRCF : string := CRCF +:+ CRCF.

(** ** Requests, responses and connections *)

Inductive http_method :=
  GET | POST | DEL | HEAD | PUT | PATCH | CONNECT | TRACE | OPTIONS.

Inductive status_type :=
  | init
  | no_content
  | not_found
  | range_not_satisfiable
  | status_of_int (code : Z).   (* static_cast<status_type>(code) *)

Inductive format_type := normal | chunked.

Inductive file_resp_format_type := frt_chunked | frt_range.

Definition file_resp_format_type_eqb (x y : file_resp_format_type) : bool :=
  match x, y with
  | frt_chunked, frt_chunked | frt_range, frt_range => true
  | _, _ => false
  end.

Record coro_http_request := {
  req_method : http_method;
  req_body : string;
  req_headers : list (string * string);
}.

(** Modelled from the spec: the request collaborator's [header(name)], a view
    of the value of the first header of that name, empty when there is none. *)
Fixpoint header_lookup (hs : list (string * string)) (name : string) : string :=
  match hs with
  | [] => ""
  | (k, v) :: hs' => if String.eqb k name then v else header_lookup hs' name
  end.

Definition get_header_value (req : coro_http_request) (name : string) : string :=
  header_lookup (req_headers req) name.

Record coro_http_response := {
  status : status_type;
  content : string;
  resp_headers : list (string * string);
  delay : bool;
  fmt_type : format_type;
}.

Definition fresh_response : coro_http_response :=
  {| status := init; content := ""; resp_headers := []; delay := false;
     fmt_type := normal |}.

Definition set_status (st : status_type) (r : coro_http_response) :=
  {| status := st; content := content r; resp_headers := resp_headers r;
     delay := delay r; fmt_type := fmt_type r |}.

Definition set_status_and_content (st : status_type) (c : string)
    (r : coro_http_response) :=
  {| status := st; content := c; resp_headers := resp_headers r;
     delay := delay r; fmt_type := fmt_type r |}.

Definition set_status_and_content_view := set_status_and_content.

Definition add_header (k v : string) (r : coro_http_response) :=
  {| status := status r; content := content r;
     resp_headers := resp_headers r ++ [(k, v)];
     delay := delay r; fmt_type := fmt_type r |}.

Definition set_delay (d : bool) (r : coro_http_response) :=
  {| status := status r; content := content r; resp_headers := resp_headers r;
     delay := d; fmt_type := fmt_type r |}.

Definition set_format_type (f : format_type) (r : coro_http_response) :=
  {| status := status r; content := content r; resp_headers := resp_headers r;
     delay := delay r; fmt_type := f |}.

(** What a handler asks the connection to put on the wire. *)
Inductive conn_event :=
  | EvAsyncWrite (bufs : list string)       (* async_write(arr): gather-write *)
  | EvWriteData (data : string)             (* write_data(view) *)
  | EvBeginChunked                          (* begin_chunked() *)
  | EvWriteChunked (data : string)          (* write_chunked(view) *)
  | EvEndChunked                            (* end_chunked(): the zero chunk *)
  | EvReply (r : coro_http_response).       (* reply() of the response *)

Inductive executor := pool_executor | out_executor.

Record coro_http_connection := {
  conn_executor : executor;
  tcp_no_delay : bool;
  shrink_to_fit : bool;
  check_timeout : bool;
  quit_callback : option N;     (* the id the quit callback erases *)
  closed : bool;
  wire : list conn_event;       (* calls issued, oldest first *)
  write_results : list bool;    (* outcome of the next writes; none left: ok *)
}.

Definition fresh_connection (ex : executor) : coro_http_connection :=
  {| conn_executor := ex; tcp_no_delay := false; shrink_to_fit := false;
     check_timeout := false; quit_callback := None; closed := false;
     wire := []; write_results := [] |}.

(** One write-like call on the connection: the event is recorded and the
    call returns the next scripted outcome. *)
Definition conn_call (e : conn_event) (c : coro_http_connection)
    : bool * coro_http_connection :=
  let r := match write_results c with [] => true | r :: _ => r end in
  (r, {| conn_executor := conn_executor c; tcp_no_delay := tcp_no_delay c;
         shrink_to_fit := shrink_to_fit c; check_timeout := check_timeout c;
         quit_callback := quit_callback c; closed := closed c;
         wire := wire c ++ [e];
         write_results := tail (write_results c) |}).

Definition write_data (data : string) := conn_call (EvWriteData data).
Definition async_write (bufs : list string) := conn_call (EvAsyncWrite bufs).
Definition begin_chunked := conn_call EvBeginChunked.
Definition write_chunked (data : string) := conn_call (EvWriteChunked data).
Definition end_chunked := conn_call EvEndChunked.
Definition conn_reply (r : coro_http_response) := conn_call (EvReply r).

(** The bytes a list of events puts after the status header: the payload of
    the raw writes ([write_data] and gather-writes). *)
Definition event_bytes (e : conn_event) : string :=
  match e with
  | EvWriteData d => d
  | EvAsyncWrite bufs => foldr String.append "" bufs
  | _ => ""
  end.

Definition wire_bytes (evs : list conn_event) : string :=
  foldr (λ e acc, event_bytes e +:+ acc) "" evs.

(** ** Files *)

(** Modelled from the spec: the file collaborator ([coro_io::coro_file]) is
    not among the sources.  [async_open], [is_open], [seek], [async_read]
    returning [(error, n)] and [eof] are modelled on an in-memory file: a read
    of [len] bytes returns the bytes from the current offset, fewer only at the
    end of the file, in which case [eof] becomes true; [read_faults] scripts
    which of the successive reads fail. *)
Record coro_file := {
  is_open : bool;
  file_data : string;
  seek_offset : nat;
  eof : bool;
  read_faults : list bool;      (* true: the read reports an error *)
}.

Definition closed_file : coro_file :=
  {| is_open := false; file_data := ""; seek_offset := 0; eof := false;
     read_faults := [] |}.

Definition seek (offset : Z) (f : coro_file) : coro_file :=
  if (0 <=? offset)%Z then
    {| is_open := is_open f; file_data := file_data f;
       seek_offset := Z.to_nat offset; eof := false;
       read_faults := read_faults f |}
  else f.

Definition async_read (len : N) (f : coro_file)
    : (bool * string) * coro_file :=
  match read_faults f with
  | true :: rest =>
      ((true, ""),
       {| is_open := is_open f; file_data := file_data f;
          seek_offset := seek_offset f; eof := eof f; read_faults := rest |})
  | _ =>
      let data := String.substring (seek_offset f) (N.to_nat len) (file_data f) in
      ((false, data),
       {| is_open := is_open f; file_data := file_data f;
          seek_offset := (seek_offset f + String.length data)%nat;
          eof := (strlen data <? len)%N;
          read_faults := tail (read_faults f) |})
  end.

(** Modelled from the spec: [std::filesystem] as the server sees it, a
    finite map from paths to nodes.  A path is spelled as the directory
    iterator spells it: the directory as it was given, the separator and the
    relative path, with no separator at the end.  [fs::file_size] fails on a
    path that is not a regular file; a file that is not [readable] cannot be
    opened. *)
Inductive fs_node :=
  | Directory
  | RegularFile (data : string) (readable : bool).

Abbreviation filesystem := (gmap string fs_node).

Definition file_size (disk : filesystem) (path : string) : option N :=
  match disk !! path with
  | Some (RegularFile data _) => Some (strlen data)
  | _ => None
  end.

Definition is_directory (n : fs_node) : bool :=
  match n with Directory => true | RegularFile _ _ => false end.

Definition ends_with_slash (s : string) : bool :=
  match String.get (String.length s - 1) s with
  | Some c => Ascii.eqb c "/"%char
  | None => false
  end.

(** What the path of every entry of the directory [dir] starts with: [dir]
    and the separator, which [operator/] leaves out after a [dir] that ends
    with it. *)
Definition entry_prefix (dir : string) : string :=
  if ends_with_slash dir then dir else dir +:+ "/".

(** [dir] without the separators at its end. *)
Fixpoint strip_slashes (dir : string) : string :=
  match dir with
  | EmptyString => EmptyString
  | String c dir' =>
      match strip_slashes dir' with
      | EmptyString =>
          if Ascii.eqb c "/"%char then EmptyString else String c EmptyString
      | rest => String c rest
      end
  end.

(** [dir] names a directory: the root, or a directory of the disk. *)
Definition is_directory_path (disk : filesystem) (dir : string) : bool :=
  match strip_slashes dir with
  | EmptyString => true
  | key =>
      match disk !! key with
      | Some Directory => true
      | _ => false
      end
  end.

(** [recursive_directory_iterator(dir, ec)]: the entries inside the
    directory [dir], at any depth.  When [dir] is empty, does not exist or is
    not a directory, [ec] is set and nothing is visited. *)
Definition recursive_directory_iterator (disk : filesystem) (dir : string)
    : list (string * fs_node) :=
  if empty_str dir then []
  else if is_directory_path disk dir then
    filter (λ e, String.prefix (entry_prefix dir) (fst e)
                 && negb (String.eqb (fst e) (entry_prefix dir)))
      (map_to_list disk)
  else [].

(** [path(p).has_root_path()] on a POSIX file system. *)
Definition has_root_path (p : string) : bool := String.prefix "/" p.

Definition async_open (disk : filesystem) (path : string) (faults : list bool)
    : coro_file :=
  match disk !! path with
  | Some (RegularFile data true) =>
      {| is_open := true; file_data := data; seek_offset := 0; eof := false;
         read_faults := faults |}
  | _ => closed_file
  end.

(** ** The server object *)

Inductive std_errc := address_in_use | operation_canceled | io_error.

Inductive asio_error :=
  | operation_aborted
  | bad_descriptor
  | connection_aborted
  | no_descriptors
  | no_buffer_space.

Inductive handler_ref :=
  | static_file (file_name : string)
  | proxy_route (url_path : string).

Inductive effect :=
  | LogInfo (msg : string)
  | LogError (msg : string)
  | LogDebug (msg : string)
  | TimerCancelled
  | AcceptorCancelClose              (* acceptor_.cancel(ec); acceptor_.close(ec) *)
  | ConnClosed (id : N)              (* conn->close(false) *)
  | PoolStopped
  | ThreadJoined
  | DriverStarted (id : N).          (* start_one(conn).via(...).detach() *)

Record coro_http_server := {
  out_ctx_ : bool;                   (* out_ctx_ != nullptr *)
  thd_ : bool;                       (* thd_.joinable() *)
  acceptor_ : bool;                  (* acceptor_.is_open() *)
  accept_pending : bool;             (* accept() is suspended in async_accept *)
  acceptor_close_waiter_ : bool;     (* the one-shot has a value *)
  no_delay_ : bool;
  conn_id_ : N;
  connections_ : gmap N coro_http_connection;
  need_check_ : bool;
  stop_timer_ : bool;
  static_dir_router_path_ : string;
  static_dir_ : string;
  files_ : list string;
  chunked_size_ : N;
  static_file_cache_ : gmap string string;
  format_type_ : file_resp_format_type;
  router_ : list (http_method * string * handler_ref);
  need_shrink_every_time_ : bool;
  effects : list effect;             (* what the server did, oldest first *)
}.

(** [coro_http_server(ctx, port)] and [coro_http_server(thread_num, port)]:
    the members' default initialisers. *)
Definition new_server (borrowed : bool) : coro_http_server :=
  {| out_ctx_ := borrowed; thd_ := false; acceptor_ := false;
     accept_pending := false; acceptor_close_waiter_ := false;
     no_delay_ := true; conn_id_ := 0%N; connections_ := ∅;
     need_check_ := false; stop_timer_ := false;
     static_dir_router_path_ := ""; static_dir_ := ""; files_ := [];
     chunked_size_ := (1024 * 10)%N; static_file_cache_ := ∅;
     format_type_ := frt_chunked; router_ := [];
     need_shrink_every_time_ := false; effects := [] |}.

Definition emit (e : effect) (s : coro_http_server) : coro_http_server :=
  let 'Build_coro_http_server a b c d e0 f g h i j k l m n o p q r t := s in
  Build_coro_http_server a b c d e0 f g h i j k l m n o p q r (t ++ [e]).

Definition with_out_ctx_ (v : bool) (s : coro_http_server) :=
  let 'Build_coro_http_server _ b c d e f g h i j k l m n o p q r t := s in
  Build_coro_http_server v b c d e f g h i j k l m n o p q r t.

Definition with_thd_ (v : bool) (s : coro_http_server) :=
  let 'Build_coro_http_server a _ c d e f g h i j k l m n o p q r t := s in
  Build_coro_http_server a v c d e f g h i j k l m n o p q r t.

Definition with_acceptor_ (v : bool) (s : coro_http_server) :=
  let 'Build_coro_http_server a b _ d e f g h i j k l m n o p q r t := s in
  Build_coro_http_server a b v d e f g h i j k l m n o p q r t.

Definition with_accept_pending (v : bool) (s : coro_http_server) :=
  let 'Build_coro_http_server a b c _ e f g h i j k l m n o p q r t := s in
  Build_coro_http_server a b c v e f g h i j k l m n o p q r t.

Definition with_acceptor_close_waiter_ (v : bool) (s : coro_http_server) :=
  let 'Build_coro_http_server a b c d _ f g h i j k l m n o p q r t := s in
  Build_coro_http_server a b c d v f g h i j k l m n o p q r t.

Definition with_conn_id_ (v : N) (s : coro_http_server) :=
  let 'Build_coro_http_server a b c d e f _ h i j k l m n o p q r t := s in
  Build_coro_http_server a b c d e f v h i j k l m n o p q r t.

Definition with_connections_ (v : gmap N coro_http_connection)
    (s : coro_http_server) :=
  let 'Build_coro_http_server a b c d e f g _ i j k l m n o p q r t := s in
  Build_coro_http_server a b c d e f g v i j k l m n o p q r t.

Definition with_stop_timer_ (v : bool) (s : coro_http_server) :=
  let 'Build_coro_http_server a b c d e f g h i _ k l m n o p q r t := s in
  Build_coro_http_server a b c d e f g h i v k l m n o p q r t.

Definition with_static_dir_router_path_ (v : string) (s : coro_http_server) :=
  let 'Build_coro_http_server a b c d e f g h i j _ l m n o p q r t := s in
  Build_coro_http_server a b c d e f g h i j v l m n o p q r t.

Definition with_static_dir_ (v : string) (s : coro_http_server) :=
  let 'Build_coro_http_server a b c d e f g h i j k _ m n o p q r t := s in
  Build_coro_http_server a b c d e f g h i j k v m n o p q r t.

Definition with_files_ (v : list string) (s : coro_http_server) :=
  let 'Build_coro_http_server a b c d e f g h i j k l _ n o p q r t := s in
  Build_coro_http_server a b c d e f g h i j k l v n o p q r t.

Definition with_chunked_size_ (v : N) (s : coro_http_server) :=
  let 'Build_coro_http_server a b c d e f g h i j k l m _ o p q r t := s in
  Build_coro_http_server a b c d e f g h i j k l m v o p q r t.

Definition with_static_file_cache_ (v : gmap string string)
    (s : coro_http_server) :=
  let 'Build_coro_http_server a b c d e f g h i j k l m n _ p q r t := s in
  Build_coro_http_server a b c d e f g h i j k l m n v p q r t.

Definition with_format_type_ (v : file_resp_format_type)
    (s : coro_http_server) :=
  let 'Build_coro_http_server a b c d e f g h i j k l m n o _ q r t := s in
  Build_coro_http_server a b c d e f g h i j k l m n o v q r t.

Definition with_router_ (v : list (http_method * string * handler_ref))
    (s : coro_http_server) :=
  let 'Build_coro_http_server a b c d e f g h i j k l m n o p _ r t := s in
  Build_coro_http_server a b c d e f g h i j k l m n o p v r t.

Definition set_transfer_chunked_size (size : N) := with_chunked_size_ size.
Definition set_file_resp_format_type (t : file_resp_format_type) :=
  with_format_type_ t.

(** [router_.set_http_handler<method>(key, handler)]. *)
Definition set_http_handler (m : http_method) (key : string) (h : handler_ref)
    (s : coro_http_server) : coro_http_server :=
  with_router_ (router_ s ++ [(m, key, h)]) s.

(** ** Collaborators that are not among the sources *)

(** The two tokens of [define.h] the spec leaves open. *)
Class define_h := {
  BOUNDARY : string;
  MULTIPART_END : string;
}.

(** [get_extension] and [get_mime_type] (mime_types.hpp), [parse_ranges]
    (returns the ranges and the final value of [is_valid]), the path of
    [uri_t::get_path] after [parse_from], and [fs::current_path]. *)
Class utils := {
  get_extension : string → string;
  get_mime_type : string → string;
  parse_ranges : string → N → list (Z * Z) * bool;
  uri_get_path : string → string;
  current_path : string;
}.

(** A sample instantiation, used where a statement is evaluated on a
    concrete request. *)
Definition sample_define_h : define_h :=
  {| BOUNDARY := "BOUNDARY"; MULTIPART_END := "--BOUNDARY--" |}.

Inductive outcome :=
  | Returned                         (* co_return *)
  | Threw                            (* fs::file_size threw *)
  | AssertFailed.                    (* assert(!ranges.empty()) *)

Inductive config_result :=
  | Configured (s : coro_http_server)
  | Exited (code : Z) (s : coro_http_server).   (* std::exit(code) *)

Inductive accept_result :=
  | Accepted
  | AcceptFailed (error : asio_error).

Record resp_data := {
  rd_status : Z;
  rd_resp_headers : list (string * string);
  rd_resp_body : string;
}.

(** The arguments of one [client.async_request]. *)
Record upstream_call := {
  up_url : string;
  up_method : http_method;
  up_content : string;
  up_headers : gmap string string;
}.

(** [m.emplace(k, v)]: inserts unless the key is present. *)
Definition emplace {K V} `{Countable K} (k : K) (v : V) (m : gmap K V)
    : gmap K V :=
  match m !! k with
  | Some _ => m
  | None => <[k:=v]> m
  end.

Fixpoint replace_backslash (s : string) : string :=
  match s with
  | EmptyString => EmptyString
  | String c s' =>
      String (if Ascii.eqb c "\"%char then "/"%char else c) (replace_backslash s')
  end.

Definition is_some {A} (o : option A) : bool :=
  match o with Some _ => true | None => false end.

Section server.
Context {D : define_h} {U : utils}.

(** *** Header builders *)

Definition build_multiple_range_header (content_len : N) : string :=
  let header_str := "HTTP/1.1 206 Partial Content" +:+ CRCF in
  let header_str := header_str +:+ "Content-Length: " in
  let header_str := (header_str +:+ size_to_string content_len) +:+ CRCF in
  let header_str :=
    header_str +:+ "Content-Type: multipart/byteranges; boundary=" in
  (header_str +:+ BOUNDARY) +:+ TWO_CRCF.

Definition part_head (mime file_size_str : string) (r : Z * Z) : string :=
  let '(start, end_) := r in
  let part_header := "--" in
  let part_header := (part_header +:+ BOUNDARY) +:+ CRCF in
  let part_header := ((part_header +:+ "Content-Type: ") +:+ mime) +:+ CRCF in
  let part_header := (part_header +:+ "Content-Range: ") +:+ "bytes " in
  (((((part_header +:+ int_to_string start)
        +:+ "-") +:+ int_to_string end_) +:+ "/") +:+ file_size_str)
    +:+ TWO_CRCF.

Fixpoint build_part_heads_loop (ranges : list (Z * Z))
    (mime file_size_str : string) (multi_heads : list string)
    (content_len : N) : list string * N :=
  match ranges with
  | [] => (multi_heads, content_len)
  | (start, end_) :: ranges' =>
      let part_header := part_head mime file_size_str (start, end_) in
      let content_len := size_add content_len (strlen part_header) in
      let multi_heads := multi_heads ++ [part_header] in
      let part_size :=
        size_add (to_size_t (int_sub (int_add end_ 1) start)) (strlen CRCF) in
      let content_len := size_add content_len part_size in
      build_part_heads_loop ranges' mime file_size_str multi_heads content_len
  end.

(** Returns [multi_heads] and the final value of [content_len]. *)
Definition build_part_heads (ranges : list (Z * Z))
    (mime file_size_str : string) (content_len : N) : list string * N :=
  let '(multi_heads, content_len) :=
    build_part_heads_loop ranges mime file_size_str [] content_len in
  (multi_heads, size_add content_len (strlen BOUNDARY + 4)%N).

Definition build_range_header (mime filename file_size_str : string)
    (status : Z) (content_range : string) : string :=
  let header_str := "HTTP/1.1 " in
  let header_str := header_str +:+ int_to_string status in
  let header_str :=
    header_str +:+
      (" OK" +:+ CRCF +:+ "Access-Control-Allow-origin: *" +:+ CRCF
         +:+ "Accept-Ranges: bytes" +:+ CRCF) in
  let header_str :=
    if negb (empty_str content_range) then header_str +:+ content_range
    else header_str in
  let header_str :=
    header_str +:+ "Content-Disposition: attachment;filename=" in
  let header_str := (header_str +:+ filename) +:+ CRCF in
  let header_str := header_str +:+ ("Connection: keep-alive" +:+ CRCF) in
  let header_str := ((header_str +:+ "Content-Type: ") +:+ mime) +:+ CRCF in
  let header_str := header_str +:+ "Content-Length: " in
  (header_str +:+ file_size_str) +:+ (CRCF +:+ CRCF).

(** *** [send_single_part] *)

Definition part_result : Type :=
  bool * coro_file * coro_http_response * coro_http_connection.

(** The [while (true)] of [send_single_part]; [None]: out of fuel. *)
Fixpoint send_single_part_loop (fuel : nat) (chunked_size : N)
    (in_file : coro_file) (resp : coro_http_response)
    (conn : coro_http_connection) (part_size : N) (more : string)
    : option part_result :=
  match fuel with
  | O => None
  | S fuel' =>
      let read_size := N.min part_size chunked_size in
      if (read_size =? 0)%N then Some (true, in_file, resp, conn)
      else
        let '((ec, data), in_file) := async_read read_size in_file in
        if ec then
          let resp := set_status no_content resp in
          let '(_, conn) := conn_reply resp conn in
          Some (false, in_file, resp, conn)
        else
          let part_size := (part_size - read_size)%N in
          let '(r, conn) :=
            if empty_str more then write_data data conn
            else async_write [data; more] conn in
          if negb r then Some (false, in_file, resp, conn)
          else send_single_part_loop fuel' chunked_size in_file resp conn
                 part_size more
  end.

(** Every iteration that does not leave the loop takes at least one byte
    off [part_size], so [part_size + 1] iterations are enough
    (see [send_single_part_total]). *)
Definition send_single_part (s : coro_http_server) (in_file : coro_file)
    (resp : coro_http_response) (conn : coro_http_connection)
    (part_size : N) (more : string) : option part_result :=
  send_single_part_loop (S (N.to_nat part_size)) (chunked_size_ s)
    in_file resp conn part_size more.

(** *** The handler of a static file *)

Definition handler_result : Type :=
  outcome * coro_file * coro_http_response * coro_http_connection.

(** The chunked [while (true)]. *)
Fixpoint chunked_loop (fuel : nat) (chunked_size : N) (in_file : coro_file)
    (resp : coro_http_response) (conn : coro_http_connection)
    : option handler_result :=
  match fuel with
  | O => None
  | S fuel' =>
      let '((ec, data), in_file) := async_read chunked_size in_file in
      if ec then
        let resp := set_status no_content resp in
        let '(_, conn) := conn_reply resp conn in
        Some (Returned, in_file, resp, conn)
      else
        let '(r, conn) := write_chunked data conn in
        if negb r then Some (Returned, in_file, resp, conn)
        else if eof in_file then
          let '(_, conn) := end_chunked conn in
          Some (Returned, in_file, resp, conn)
        else chunked_loop fuel' chunked_size in_file resp conn
  end.

(** The [while (true)] that streams the whole file after a 200 header. *)
Fixpoint stream_loop (fuel : nat) (chunked_size : N) (in_file : coro_file)
    (resp : coro_http_response) (conn : coro_http_connection)
    : option handler_result :=
  match fuel with
  | O => None
  | S fuel' =>
      let '((ec, data), in_file) := async_read chunked_size in_file in
      if ec then
        let resp := set_status no_content resp in
        let '(_, conn) := conn_reply resp conn in
        Some (Returned, in_file, resp, conn)
      else
        let '(r, conn) := write_data data conn in
        if negb r then Some (Returned, in_file, resp, conn)
        else if eof in_file then Some (Returned, in_file, resp, conn)
        else stream_loop fuel' chunked_size in_file resp conn
  end.

(** The [for] over the ranges of a multipart response; [i] is the index of
    the head of [rest] in [ranges], [n] is [ranges.size()]. *)
Fixpoint multipart_loop (s : coro_http_server) (rest : list (Z * Z))
    (i n : nat) (multi_heads : list string) (in_file : coro_file)
    (resp : coro_http_response) (conn : coro_http_connection)
    : option handler_result :=
  match rest with
  | [] => Some (Returned, in_file, resp, conn)
  | (start, end_) :: rest' =>
      let part_header := default "" (multi_heads !! i) in
      let '(r, conn) := write_data part_header conn in
      if negb r then Some (Returned, in_file, resp, conn)
      else
        let in_file := seek start in_file in
        let part_size := to_size_t (int_sub (int_add end_ 1) start) in
        let more := if (i =? n - 1)%nat then MULTIPART_END else CRCF in
        match send_single_part s in_file resp conn part_size more with
        | None => None
        | Some (r, in_file, resp, conn) =>
            if negb r then Some (Returned, in_file, resp, conn)
            else multipart_loop s rest' (S i) n multi_heads in_file resp conn
        end
  end.

(** The lambda that [set_static_res_dir] registers for [file_name].
    [disk] is the file system at the time of the request, [faults] the
    outcomes of the reads of the file, [fuel] bounds the two unbounded
    loops. *)
Definition static_file_handler (s : coro_http_server) (file_name : string)
    (disk : filesystem) (faults : list bool) (fuel : nat)
    (req : coro_http_request) (resp : coro_http_response)
    (conn : coro_http_connection) : option handler_result :=
  let extension := get_extension file_name in
  let mime := get_mime_type extension in
  let range_str := get_header_value req "Range" in
  match static_file_cache_ s !! file_name with
  | Some body =>
      match file_size disk file_name with
      | None => Some (Threw, closed_file, resp, conn)
      | Some fsz =>
          let range_header :=
            build_range_header mime file_name (size_to_string fsz) 200 "" in
          let resp := set_delay true resp in
          let '(_, conn) := async_write [range_header; body] conn in
          Some (Returned, closed_file, resp, conn)
      end
  | None =>
      let in_file := async_open disk file_name faults in
      if negb (is_open in_file) then
        Some (Returned, in_file,
              set_status_and_content not_found (file_name +:+ "not found") resp,
              conn)
      else
        match file_size disk file_name with
        | None => Some (Threw, in_file, resp, conn)
        | Some fsize =>
            if file_resp_format_type_eqb (format_type_ s) frt_chunked
               && empty_str range_str
            then
                let resp := set_format_type chunked resp in
                let '(ok, conn) := begin_chunked conn in
                if negb ok then Some (Returned, in_file, resp, conn)
                else chunked_loop fuel (chunked_size_ s) in_file resp conn
            else
                match find "=" range_str with
                | Some pos =>
                    let range_str := substr (pos + 1) range_str in
                    let '(ranges, is_valid) := parse_ranges range_str fsize in
                    if negb is_valid then
                      Some (Returned, in_file,
                            set_status range_not_satisfiable resp, conn)
                    else
                      match ranges with
                      | [] => Some (AssertFailed, in_file, resp, conn)
                      | [(start, end_)] =>
                          (* single part *)
                          let in_file := seek start in_file in
                          let part_size :=
                            to_size_t (int_sub (int_add end_ 1) start) in
                          let status :=
                            if (part_size =? fsize)%N then 200 else 206 in
                          let content_range := "Content-Range: bytes " in
                          let content_range :=
                            (((((content_range +:+ int_to_string start)
                                  +:+ "-") +:+ int_to_string end_)
                                +:+ "/") +:+ size_to_string fsize) +:+ CRCF in
                          let range_header :=
                            build_range_header mime file_name
                              (size_to_string part_size) status content_range in
                          let resp := set_delay true resp in
                          let '(r, conn) := write_data range_header conn in
                          if negb r then Some (Returned, in_file, resp, conn)
                          else
                            match send_single_part s in_file resp conn
                                    part_size "" with
                            | None => None
                            | Some (_, in_file, resp, conn) =>
                                Some (Returned, in_file, resp, conn)
                            end
                      | _ =>
                          (* multipart ranges *)
                          let resp := set_delay true resp in
                          let file_size_str := size_to_string fsize in
                          let content_len := 0%N in
                          let '(multi_heads, content_len) :=
                            build_part_heads ranges mime file_size_str
                              content_len in
                          let range_header :=
                            build_multiple_range_header content_len in
                          let '(r, conn) := write_data range_header conn in
                          if negb r then Some (Returned, in_file, resp, conn)
                          else multipart_loop s ranges 0 (List.length ranges)
                                 multi_heads in_file resp conn
                      end
                | None =>
                    let range_header :=
                      build_range_header mime file_name
                        (size_to_string fsize) 200 "" in
                    let resp := set_delay true resp in
                    let '(r, conn) := write_data range_header conn in
                    if negb r then Some (Returned, in_file, resp, conn)
                    else stream_loop fuel (chunked_size_ s) in_file resp conn
                end
        end
  end.

(** *** Configuration of the static files *)

Definition set_max_size_of_cache_files (disk : filesystem) (max_size : N)
    (s : coro_http_server) : coro_http_server :=
  let cache :=
    foldl
      (λ (cache : gmap string string) (file : string * fs_node),
         match snd file with
         | Directory => cache
         | RegularFile data readable =>
             let filesize := strlen data in
             if (max_size <? filesize)%N then cache
             else if readable then
               (* content: [filesize] bytes read from the file *)
               let content := data in
               emplace (fst file) content cache
             else cache
         end)
      (static_file_cache_ s)
      (recursive_directory_iterator disk (static_dir_ s)) in
  with_static_file_cache_ cache s.

(** The body of the [for (auto &file : files_)] of [set_static_res_dir]. *)
Definition register_static_file (s : coro_http_server) (file : string)
    : coro_http_server :=
  let relative_path := substr (String.length (static_dir_ s)) file in
  let relative_path :=
    if is_some (find "\" relative_path) then replace_backslash relative_path
    else relative_path in
  let uri :=
    if empty_str (static_dir_router_path_ s) then relative_path
    else ("/" +:+ static_dir_router_path_ s) +:+ relative_path in
  set_http_handler GET uri (static_file file) s.

Definition set_static_res_dir (disk : filesystem) (uri_suffix : string)
    (file_path : string) (s : coro_http_server) : config_result :=
  let has_double_dot :=
    is_some (find ".." file_path) || is_some (find ".." uri_suffix) in
  if has_root_path file_path || has_root_path uri_suffix || has_double_dot
  then
    Exited 1 (emit (LogError ("invalid file path: " +:+ file_path)) s)
  else
    let s :=
      if negb (empty_str uri_suffix)
      then with_static_dir_router_path_ uri_suffix s else s in
    let s :=
      if negb (empty_str file_path) then with_static_dir_ file_path s
      else with_static_dir_ current_path s in
    let s := with_files_ [] s in
    let s :=
      foldl
        (λ s (file : string * fs_node),
           if negb (is_directory (snd file))
           then with_files_ (files_ s ++ [fst file]) s else s)
        s (recursive_directory_iterator disk (static_dir_ s)) in
    Configured (foldl register_static_file s (files_ s)).

(** *** The proxy handler *)

Definition reply (client : upstream_call → resp_data) (url_path : string)
    (req : coro_http_request) (response : coro_http_response)
    (conn : coro_http_connection)
    : upstream_call * coro_http_response * coro_http_connection :=
  let req_headers : gmap string string := ∅ in
  (* for (auto &[k, v] : req_headers) req_headers.emplace(k, v); *)
  let req_headers :=
    foldl (λ (m : gmap string string) (kv : string * string),
             emplace (fst kv) (snd kv) m)
      req_headers (map_to_list req_headers) in
  let ctx := req_body req in
  let call :=
    {| up_url := url_path; up_method := req_method req; up_content := ctx;
       up_headers := req_headers |} in
  let result := client call in
  let response :=
    foldl (λ r (kv : string * string), add_header (fst kv) (snd kv) r)
      response (rd_resp_headers result) in
  let response :=
    set_status_and_content_view (status_of_int (rd_status result))
      (rd_resp_body result) response in
  let '(_, conn) := conn_reply response conn in
  let response := set_delay true response in
  (call, response, conn).

(** The lambda [set_http_proxy_handler] registers, once the channel has
    picked [client] and [host]. *)
Definition proxy_handler (client : upstream_call → resp_data) (host : string)
    (req : coro_http_request) (response : coro_http_response)
    (conn : coro_http_connection) :=
  reply client (uri_get_path host) req response conn.

(** *** The acceptor loop *)

Definition uint64_incr (n : N) : N := ((n + 1) mod 2 ^ 64)%N.

Definition is_acceptor_closed (error : asio_error) : bool :=
  match error with
  | operation_aborted | bad_descriptor => true
  | _ => false
  end.

(** [accept()] run against the outcomes of the successive
    [async_accept]s.  With no outcome left the coroutine is suspended in
    [async_accept] and has not returned ([None]). *)
Fixpoint accept (script : list accept_result) (s : coro_http_server)
    : coro_http_server * option std_errc :=
  match script with
  | [] => (with_accept_pending true s, None)
  | r :: script' =>
      let ex := if negb (out_ctx_ s) then pool_executor else out_executor in
      match r with
      | AcceptFailed error =>
          let s := emit (LogInfo "accept failed, error: ") s in
          if is_acceptor_closed error then
            let s := with_acceptor_close_waiter_ true s in
            (with_accept_pending false s, Some operation_canceled)
          else accept script' s
      | Accepted =>
          let conn_id := uint64_incr (conn_id_ s) in
          let s := with_conn_id_ conn_id s in
          let s := emit (LogDebug "new connection comming, id: ") s in
          let conn :=
            {| conn_executor := ex; tcp_no_delay := no_delay_ s;
               shrink_to_fit := need_shrink_every_time_ s;
               check_timeout := need_check_ s;
               quit_callback := Some conn_id; closed := false;
               wire := []; write_results := [] |} in
          let s := with_connections_ (emplace conn_id conn (connections_ s)) s in
          let s := emit (DriverStarted conn_id) s in
          accept script' s
      end
  end.

(** *** [stop] *)

(** [close_acceptor]: the cancel and close are dispatched to the acceptor's
    executor; an [async_accept] that is pending completes with
    [operation_aborted] and the acceptor loop runs on from there; then the
    caller waits for the one-shot.  [None]: the wait never returns. *)
Definition close_acceptor (s : coro_http_server) : option coro_http_server :=
  let s := emit AcceptorCancelClose (with_acceptor_ false s) in
  let s :=
    if accept_pending s
    then fst (accept [AcceptFailed operation_aborted] s) else s in
  if acceptor_close_waiter_ s then Some s else None.

Definition stop (s : coro_http_server) : option coro_http_server :=
  if negb (out_ctx_ s) && negb (thd_ s) then Some s
  else
    let s := with_stop_timer_ true s in
    let s := emit TimerCancelled s in
    match close_acceptor s with
    | None => None
    | Some s =>
        (* close current connections. *)
        let s :=
          foldl (λ s (c : N * coro_http_connection), emit (ConnClosed (fst c)) s)
            s (map_to_list (connections_ s)) in
        let s := with_connections_ ∅ s in
        if negb (out_ctx_ s) then
          let s :=
            emit (LogInfo "wait for server's thread-pool finish all work.") s in
          let s := emit PoolStopped s in
          let s := emit (LogInfo "server's thread-pool finished.") s in
          let s := emit ThreadJoined (with_thd_ false s) in
          Some (emit (LogInfo "stop coro_http_server ok") s)
        else Some (with_out_ctx_ false s)
    end.

End server.

(** The collaborators' answers on a text file whose [Range] header parses to
    [ranges] with validity [is_valid]. *)
Definition sample_utils (ranges : list (Z * Z)) (is_valid : bool) : utils :=
  {| get_extension := λ _, ".txt";
     get_mime_type := λ _, "text/plain";
     parse_ranges := λ _ _, (ranges, is_valid);
     uri_get_path := λ host, host;
     current_path := "/srv" |}.

Definition sample_disk : filesystem :=
  <["www" := Directory]> (<["www/a.txt" := RegularFile "0123456789" true]> ∅).

Definition range_request (range : string) : coro_http_request :=
  {| req_method := GET; req_body := ""; req_headers := [("Range", range)] |}.

(** * The rest of the class *)

(** ** Setters and members the functions above do not touch *)

Definition with_no_delay_ (v : bool) (s : coro_http_server) :=
  let 'Build_coro_http_server a b c d e _ g h i j k l m n o p q r t := s in
  Build_coro_http_server a b c d e v g h i j k l m n o p q r t.

Definition with_need_check_ (v : bool) (s : coro_http_server) :=
  let 'Build_coro_http_server a b c d e f g h _ j k l m n o p q r t := s in
  Build_coro_http_server a b c d e f g h v j k l m n o p q r t.

Definition with_need_shrink_every_time_ (v : bool) (s : coro_http_server) :=
  let 'Build_coro_http_server a b c d e f g h i j k l m n o p q _ t := s in
  Build_coro_http_server a b c d e f g h i j k l m n o p q v t.

Definition set_no_delay (r : bool) := with_no_delay_ r.
Definition set_shrink_to_fit (r : bool) := with_need_shrink_every_time_ r.

(** [port_], the two durations (in ticks of the steady clock) and whether a
    wait on [check_timer_] is outstanding: the members [coro_http_server]
    above leaves out.  The functions that use them work on the pair. *)
Record timer_members := {
  port_ : N;
  check_duration_ : Z;
  timeout_duration_ : Z;
  check_timer_ : bool;
}.

Definition server_members : Type := coro_http_server * timer_members.

(** The two constructors: 15 seconds between checks, no timeout. *)
Definition new_members (port : N) : timer_members :=
  {| port_ := port; check_duration_ := 15 * 1000000000;
     timeout_duration_ := 0; check_timer_ := false |}.

Definition port (m : server_members) : N := port_ m.2.

Definition set_check_duration (duration : Z) (m : server_members)
    : server_members :=
  (m.1, {| port_ := port_ m.2; check_duration_ := duration;
           timeout_duration_ := timeout_duration_ m.2;
           check_timer_ := check_timer_ m.2 |}).

(** [connection_count]. *)
Definition connection_count (s : coro_http_server) : nat :=
  size (connections_ s).

(** The quit callback [accept] installs on a connection, run with [id]. *)
Definition quit_callback_run (id : N) (s : coro_http_server)
    : coro_http_server :=
  if decide (connections_ s = ∅) then s
  else with_connections_ (delete id (connections_ s)) s.

(** ** The idle check *)

(** The body of the loop of the server's [check_timeout] for the entry
    [it], with the value of [system_clock::now()] and the connections'
    [get_last_rwtime()] (by connection id) as parameters. *)
Definition check_timeout_entry (get_last_rwtime : N → Z) (cur_time : Z)
    (timeout_duration : Z) (s : coro_http_server)
    (it : N * coro_http_connection) : coro_http_server :=
  if (timeout_duration <? cur_time - get_last_rwtime it.1)%Z then
    let s := emit (ConnClosed it.1) s in                    (* close(false) *)
    with_connections_ (delete it.1 (connections_ s)) s      (* erase(it++) *)
  else s.

(** The server's [check_timeout] (the name is taken by the connection's
    flag). *)
Definition server_check_timeout (get_last_rwtime : N → Z) (cur_time : Z)
    (timeout_duration : Z) (s : coro_http_server) : coro_http_server :=
  foldl (check_timeout_entry get_last_rwtime cur_time timeout_duration)
    s (map_to_list (connections_ s)).

(** [start_check_timer]: arms the timer; the callback is [on_check_timer]. *)
Definition start_check_timer (m : server_members) : server_members :=
  (m.1, {| port_ := port_ m.2; check_duration_ := check_duration_ m.2;
           timeout_duration_ := timeout_duration_ m.2;
           check_timer_ := true |}).

(** The callback of the timer's [async_wait], called with whether the wait
    ended in an error ([ec]) when the time is [cur_time]. *)
Definition on_check_timer (get_last_rwtime : N → Z) (ec : bool) (cur_time : Z)
    (m : server_members) : server_members :=
  let m :=
    (m.1, {| port_ := port_ m.2; check_duration_ := check_duration_ m.2;
             timeout_duration_ := timeout_duration_ m.2;
             check_timer_ := false |}) in
  if ec || stop_timer_ m.1 then m
  else
    let s := server_check_timeout get_last_rwtime cur_time (timeout_duration_ m.2) m.1 in
    start_check_timer (s, m.2).

Definition set_timeout_duration (timeout_duration : Z) (m : server_members)
    : server_members :=
  if (0 <? timeout_duration)%Z then
    let s := with_need_check_ true m.1 in
    start_check_timer
      (s, {| port_ := port_ m.2; check_duration_ := check_duration_ m.2;
             timeout_duration_ := timeout_duration;
             check_timer_ := check_timer_ m.2 |})
  else m.

(** ** Starting *)

(** What the operating system answers to [listen]'s [bind] and
    [local_endpoint]. *)
Inductive listen_outcome :=
  | BindFailed
  | LocalEndpointFailed
  | Listening (assigned_port : N).

(** [listen]; [None] is [std::errc{}]. *)
Definition listen (oc : listen_outcome) (m : server_members)
    : server_members * option std_errc :=
  let s := emit (LogInfo "begin to listen") m.1 in
  let s := with_acceptor_ true s in                 (* acceptor_.open *)
  match oc with
  | BindFailed =>
      let s := emit (LogError "bind port: ") s in
      let s := emit AcceptorCancelClose (with_acceptor_ false s) in
      ((s, m.2), Some address_in_use)
  | LocalEndpointFailed =>
      let s := emit (LogError "get local endpoint port: ") s in
      ((s, m.2), Some address_in_use)
  | Listening assigned_port =>
      let o :=
        {| port_ := assigned_port; check_duration_ := check_duration_ m.2;
           timeout_duration_ := timeout_duration_ m.2;
           check_timer_ := check_timer_ m.2 |} in
      let s := emit (LogInfo "listen port ") s in
      ((s, o), None)
  end.

(** [async_start], with the outcomes of the accepts that complete before the
    caller looks at the future: the members and the future's value ([None]:
    not resolved yet).  [throws]: after the accepts of [script] one more
    socket is accepted and an exception leaves the loop while its connection
    is set up ([make_shared], or [set_option], which is called without an
    error code); the coroutine then ends with an error ([res.hasError()])
    and the future resolves to [io_error]. *)
Definition async_start (oc : listen_outcome) (script : list accept_result)
    (throws : bool) (m : server_members) : server_members * option std_errc :=
  let '(m, ec) := listen oc m in
  match ec with
  | None =>
      let s := if negb (out_ctx_ m.1) then with_thd_ true m.1 else m.1 in
      let '(s, res) := accept script s in
      match res with
      | Some ec => ((s, m.2), Some ec)            (* p.setValue(res.value()) *)
      | None =>
          if throws then
            let s := with_accept_pending false s in
            let s := with_conn_id_ (uint64_incr (conn_id_ s)) s in
            let s := emit (LogDebug "new connection comming, id: ") s in
            ((s, m.2), Some io_error)             (* res.hasError() *)
          else ((s, m.2), None)
      end
  | Some ec => (m, Some ec)
  end.

(** ** Proxy routes *)

Definition all_methods : list http_method :=
  [GET; POST; DEL; HEAD; PUT; PATCH; CONNECT; TRACE; OPTIONS].

(** [set_http_proxy_handler<method...>(url_path, hosts, ...)]; [None]: it
    throws [std::invalid_argument]. *)
Definition set_http_proxy_handler (methods : list http_method)
    (url_path : string) (hosts : list string) (s : coro_http_server)
    : option coro_http_server :=
  match hosts with
  | [] => None
  | _ :: _ =>
      let methods :=
        match methods with [] => all_methods | _ :: _ => methods end in
      Some (foldl (λ s m, set_http_handler m url_path (proxy_route url_path) s)
              s methods)
  end.

(** ** Histories *)

(** What happens to a server between its construction and a call of [stop]:
    the configuration calls, [async_start], further accepts of the running
    loop, connections that quit, the callback of the check timer, and calls
    of [stop]. *)
Inductive api_call :=
  | SetNoDelay (r : bool)
  | SetShrinkToFit (r : bool)
  | SetTransferChunkedSize (size : N)
  | SetFileRespFormatType (t : file_resp_format_type)
  | SetHttpHandler (m : http_method) (key : string) (h : handler_ref)
  | SetHttpProxyHandler (methods : list http_method) (url_path : string)
      (hosts : list string)
  | SetMaxSizeOfCacheFiles (disk : filesystem) (max_size : N)
  | SetStaticResDir (disk : filesystem) (uri_suffix file_path : string)
  | SetCheckDuration (duration : Z)
  | SetTimeoutDuration (duration : Z)
  | AsyncStart (oc : listen_outcome) (script : list accept_result)
      (throws : bool)
  | Accepts (script : list accept_result)
  | Quits (id : N)
  | TimerFires (get_last_rwtime : N → Z) (ec : bool) (cur_time : Z)
  | Stop.

(** One call; [None]: it does not return ([stop] waits for ever, or
    [set_static_res_dir] has ended the process).  An exception of
    [set_http_proxy_handler] leaves the server as it is.  Accepts complete
    only while the loop is suspended in [async_accept], and the timer's
    callback runs only when a wait is outstanding. *)
Definition run_call {U : utils} (c : api_call) (m : server_members)
    : option server_members :=
  match c with
  | SetNoDelay r => Some (set_no_delay r m.1, m.2)
  | SetShrinkToFit r => Some (set_shrink_to_fit r m.1, m.2)
  | SetTransferChunkedSize size => Some (set_transfer_chunked_size size m.1, m.2)
  | SetFileRespFormatType t => Some (set_file_resp_format_type t m.1, m.2)
  | SetHttpHandler meth key h => Some (set_http_handler meth key h m.1, m.2)
  | SetHttpProxyHandler methods url_path hosts =>
      Some (default m.1 (set_http_proxy_handler methods url_path hosts m.1),
            m.2)
  | SetMaxSizeOfCacheFiles disk max_size =>
      Some (set_max_size_of_cache_files disk max_size m.1, m.2)
  | SetStaticResDir disk uri_suffix file_path =>
      match set_static_res_dir disk uri_suffix file_path m.1 with
      | Configured s => Some (s, m.2)
      | Exited _ _ => None
      end
  | SetCheckDuration duration => Some (set_check_duration duration m)
  | SetTimeoutDuration duration => Some (set_timeout_duration duration m)
  | AsyncStart oc script throws => Some (async_start oc script throws m).1
  | Accepts script =>
      Some (if accept_pending m.1 then (accept script m.1).1 else m.1, m.2)
  | Quits id => Some (quit_callback_run id m.1, m.2)
  | TimerFires get_last_rwtime ec cur_time =>
      Some (if check_timer_ m.2
            then on_check_timer get_last_rwtime ec cur_time m else m)
  | Stop =>
      match stop m.1 with
      | Some s => Some (s, m.2)
      | None => None
      end
  end.

Fixpoint run {U : utils} (calls : list api_call) (m : server_members)
    : option server_members :=
  match calls with
  | [] => Some m
  | c :: calls' =>
      match run_call c m with
      | Some m' => run calls' m'
      | None => None
      end
  end.

Definition is_start (c : api_call) : bool :=
  match c with AsyncStart _ _ _ => true | _ => false end.


(** * Vocabulary of the statements *)

(** A connection on which no write will fail. *)
Definition writes_ok (c : coro_http_connection) : Prop :=
  Forall (λ r, r = true) (write_results c).

(** What the constructors establish and the other members keep: the pool
    thread is only started when there is no borrowed context
    ([async_start]), and a server that [stop] would leave alone (no borrowed
    context, no thread to join) has no connection and no open acceptor, since
    connections only come from the acceptor loop, which an embedded server
    starts together with its thread. *)
Definition server_invariant (s : coro_http_server) : Prop :=
  (out_ctx_ s = true → thd_ s = false) ∧
  (out_ctx_ s = false → thd_ s = false →
   connections_ s = ∅ ∧ acceptor_ s = false).



(** [s] contains [pat]: the reading of "contains" in the spec. *)
Definition contains (pat s : string) : Prop :=
  ∃ pre post, s = pre +:+ pat +:+ post.

(** [s] has an absolute (root) prefix. *)
Definition absolute (s : string) : Prop := ∃ rest, s = "/" +:+ rest.

(** A file none of whose reads will fail. *)
Definition reads_ok (f : coro_file) : Prop :=
  Forall (λ r, r = false) (read_faults f).

(** What one iteration of [send_single_part] writes for the piece [d]. *)
Definition part_event (more d : string) : conn_event :=
  if empty_str more then EvWriteData d else EvAsyncWrite [d; more].

(** The events on the connection when the handler is done (none if it does
    not return). *)
Definition final_wire (r : option handler_result) : list conn_event :=
  match r with
  | Some (_, _, _, conn) => wire conn
  | None => []
  end.

Definition plain_request : coro_http_request :=
  {| req_method := GET; req_body := ""; req_headers := [] |}.

(** The bytes of the range [r] of a file. *)
Definition range_bytes (data : string) (r : Z * Z) : string :=
  substring (Z.to_nat r.1) (Z.to_nat (r.2 + 1 - r.1)) data.

(** The body P7 describes: each part header is followed by the bytes of its
    range and by [CRLF], the last one by [MULTIPART_END] instead. *)
Fixpoint multipart_body {D : define_h} (heads : list string)
    (ranges : list (Z * Z)) (data : string) : string :=
  match heads, ranges with
  | h :: heads', r :: ranges' =>
      h +:+ range_bytes data r
        +:+ (match ranges' with [] => MULTIPART_END | _ :: _ => CRCF end)
        +:+ multipart_body heads' ranges' data
  | _, _ => ""
  end.

(** A range that lies within a file of [size] bytes and ends below
    [INT_MAX], so that its size is computed without overflow. *)
Definition valid_range (size : nat) (r : Z * Z) : Prop :=
  0 ≤ r.1 ≤ r.2 ∧ r.2 < Z.of_nat size ∧ r.2 < INT_MAX.

(** Such a range that fits in one chunk. *)
Definition small_range (size : nat) (chunked_size : N) (r : Z * Z) : Prop :=
  valid_range size r ∧ r.2 + 1 - r.1 ≤ Z.of_N chunked_size.

(** The calls P7 describes: per part a write of its header, then one write
    of the bytes of its range together with the delimiter, which is
    [MULTIPART_END] for the last part and [CRLF] for the others. *)
Fixpoint multipart_events {D : define_h} (mime fss data : string)
    (ranges : list (Z * Z)) : list conn_event :=
  match ranges with
  | [] => []
  | r :: ranges' =>
      EvWriteData (part_head mime fss r)
      :: part_event (match ranges' with [] => MULTIPART_END | _ :: _ => CRCF end)
           (range_bytes data r)
      :: multipart_events mime fss data ranges'
  end.

(** What [build_part_heads] adds up over the ranges, before the closing
    token: per part its header, its bytes and one [CRLF]. *)
Fixpoint parts_length {D : define_h} (mime fss : string)
    (ranges : list (Z * Z)) : Z :=
  match ranges with
  | [] => 0
  | r :: ranges' =>
      Z.of_N (strlen (part_head mime fss r)) + (r.2 + 1 - r.1)
        + Z.of_N (strlen CRCF) + parts_length mime fss ranges'
  end.

(** The request used to exhibit the delimiters: chunk size 2, the file
    ["0123456789"], the ranges 0-3 and 6-9. *)
Definition two_byte_chunks : coro_http_server :=
  set_transfer_chunked_size 2 (new_server false).

Definition two_ranges : list (Z * Z) := [(0, 3); (6, 9)].

(** A server whose static directory is [www], with the files of
    [sample_disk] cached. *)
Definition cached_server : coro_http_server :=
  set_max_size_of_cache_files sample_disk 100
    (with_static_dir_ "www" (new_server false)).

(** [sample_disk] after [www/a.txt] has grown by three bytes. *)
Definition grown_disk : filesystem :=
  <["www/a.txt" := RegularFile "0123456789abc" true]> sample_disk.

(** An embedded server that listens, runs its pool thread and has accepted
    one connection; the acceptor loop is suspended in [async_accept]. *)
Definition running_server : coro_http_server :=
  (accept [Accepted] (with_thd_ true (with_acceptor_ true (new_server false)))).1.

(** Every id in the table has been handed out: it is at most [conn_id_]. *)
Definition ids_handed_out (s : coro_http_server) : Prop :=
  ∀ id, is_Some (connections_ s !! id) → (id ≤ conn_id_ s)%N.

(** The accepts of a script that the loop gets to: those before the first
    error that ends it. *)
Fixpoint accepted (script : list accept_result) : nat :=
  match script with
  | [] => 0
  | Accepted :: script' => S (accepted script')
  | AcceptFailed error :: script' =>
      if is_acceptor_closed error then 0%nat else accepted script'
  end.

(** [id] has been idle for longer than the timeout. *)
Definition idle (get_last_rwtime : N → Z) (cur_time timeout_duration : Z)
    (id : N) : Prop :=
  timeout_duration < cur_time - get_last_rwtime id.

#[global] Instance idle_dec get_last_rwtime cur_time timeout_duration id :
  Decision (idle get_last_rwtime cur_time timeout_duration id).
Proof. unfold idle. apply _. Defined.

(** Membership in an explicit list of effects. *)
Ltac list_member :=
  match goal with
  | |- _ ∈ _ :: _ => first [apply list_elem_of_here | apply list_elem_of_further; list_member]
  | |- _ ∉ _ =>
      let H := fresh in
      intros H;
      repeat (apply elem_of_cons in H; destruct H as [H | H]; [discriminate |]);
      now apply elem_of_nil in H
  | |- _ → _ => intro; first [reflexivity | congruence | split; list_member]
  | _ => first [reflexivity | congruence]
  end.

Ltac stop_effects closing finish :=
  exists closing, finish;
  split; [rewrite ?app_nil_r, <- ?app_assoc; cbn; reflexivity |];
  repeat split; list_member.

(** [path] lies inside the directory [dir] of [disk]: [dir] is a directory
    and [path] is [dir], the separator and a relative path. *)
Definition below (disk : filesystem) (dir path : string) : Prop :=
  dir ≠ "" ∧ is_directory_path disk dir = true
  ∧ ∃ rel, rel ≠ "" ∧ path = entry_prefix dir +:+ rel.

(** The URI under which [set_static_res_dir] registers [file]. *)
Definition static_uri (router_path dir file : string) : string :=
  let relative_path := substr (String.length dir) file in
  let relative_path :=
    if is_some (find "\" relative_path) then replace_backslash relative_path
    else relative_path in
  if empty_str router_path then relative_path
  else ("/" +:+ router_path) +:+ relative_path.

(** [evs] are the calls issued on the connection between [c] and [c']: each
    is appended to the wire and consumes one scripted outcome. *)
Definition calls_between (c c' : coro_http_connection)
    (evs : list conn_event) : Prop :=
  wire c' = wire c ++ evs
  ∧ write_results c' = drop (List.length evs) (write_results c).

(** What the [i]-th call from [c] on returns: the scripted outcome, success
    once the script is over. *)
Definition call_result (c : coro_http_connection) (i : nat) : bool :=
  default true (write_results c !! i).

(** From [c] to [c'] every call succeeded ([all = true]), or every call
    except possibly the last one ([all = false]). *)
Definition ran (all : bool) (c c' : coro_http_connection) : Prop :=
  ∃ evs,
    calls_between c c' evs
    ∧ ∀ i, ((if all then i else S i) < List.length evs)%nat →
           call_result c i = true.

(** The server after [set_static_res_dir("static", "www")] on [sample_disk]. *)
Definition static_server : coro_http_server :=
  match @set_static_res_dir (sample_utils [] true) sample_disk "static" "www"
          (new_server false) with
  | Configured s | Exited _ s => s
  end.

(** [sample_disk] with a file that cannot be opened. *)
Definition locked_disk : filesystem :=
  <["www/secret" := RegularFile "x" false]> sample_disk.

(** A connection whose second write will fail. *)
Definition flaky_connection : coro_http_connection :=
  {| conn_executor := pool_executor; tcp_no_delay := false;
     shrink_to_fit := false; check_timeout := false; quit_callback := None;
     closed := false; wire := []; write_results := [true; false] |}.

(** A server in range format that reads four bytes at a time. *)
Definition range_format_server : coro_http_server :=
  set_file_resp_format_type frt_range
    (set_transfer_chunked_size 4 (new_server false)).

(** * Properties *)

(** ** Strings and the connection *)

Lemma append_cons (x : ascii) (a b : string) :
  String x a +:+ b = String x (a +:+ b).
Proof. reflexivity. Qed.

Lemma append_nil_l (b : string) : "" +:+ b = b.
Proof. reflexivity. Qed.

Lemma append_assoc (a b c : string) : (a +:+ b) +:+ c = a +:+ (b +:+ c).
Proof.
  induction a as [|x a IH]; [reflexivity |].
  rewrite !append_cons. now rewrite IH.
Qed.

Lemma append_nil_r (a : string) : a +:+ "" = a.
Proof.
  induction a as [|x a IH]; [reflexivity |].
  rewrite append_cons. now rewrite IH.
Qed.

Lemma length_append (a b : string) :
  String.length (a +:+ b) = (String.length a + String.length b)%nat.
Proof.
  induction a as [|x a IH]; [reflexivity |].
  rewrite append_cons. simpl. now rewrite IH.
Qed.

Lemma strlen_append (a b : string) : strlen (a +:+ b) = (strlen a + strlen b)%N.
Proof. unfold strlen. rewrite length_append. lia. Qed.

Lemma wire_bytes_app (l k : list conn_event) :
  wire_bytes (l ++ k) = wire_bytes l +:+ wire_bytes k.
Proof.
  induction l as [|e l IH]; simpl; [reflexivity |].
  rewrite IH. symmetry. apply append_assoc.
Qed.

Lemma conn_call_wire e c : wire (snd (conn_call e c)) = wire c ++ [e].
Proof. reflexivity. Qed.

Lemma conn_call_results e c :
  write_results (snd (conn_call e c)) = tail (write_results c).
Proof. reflexivity. Qed.

Lemma conn_call_ok e c :
  writes_ok c → fst (conn_call e c) = true ∧ writes_ok (snd (conn_call e c)).
Proof.
  unfold writes_ok, conn_call. simpl. intros H.
  destruct (write_results c) as [|r rs]; simpl; [split; [reflexivity | constructor] |].
  inversion H; subst. split; [reflexivity | assumption].
Qed.

(** ** [send_single_part] *)

Lemma send_single_part_loop_total chunked_size more :
  ∀ n in_file resp conn part_size,
    (N.to_nat part_size ≤ n)%nat →
    is_Some (send_single_part_loop (S n) chunked_size in_file resp conn
               part_size more).
Proof.
  induction n as [|n IH]; intros in_file resp conn part_size Hle.
  - assert (part_size = 0%N) as -> by lia.
    cbn [send_single_part_loop]. rewrite N.min_0_l. simpl. eauto.
  - cbn [send_single_part_loop].
    destruct (N.eqb_spec (N.min part_size chunked_size) 0) as [E|E]; [eauto |].
    destruct (async_read _ in_file) as [[ec data] in_file'].
    destruct ec.
    { destruct (conn_reply _ conn). eauto. }
    destruct (if empty_str more then write_data data conn
              else async_write [data; more] conn) as [r conn'].
    destruct r; simpl; [| eauto].
    apply IH. lia.
Qed.

(** [send_single_part] always returns: its fuel never runs out. *)
Lemma send_single_part_total s in_file resp conn part_size more :
  is_Some (send_single_part s in_file resp conn part_size more).
Proof. apply send_single_part_loop_total. lia. Qed.

(** C9: with [part_size = 0] the coroutine returns [true] and leaves the
    connection as it found it: nothing is written, neither data nor the
    delimiter [more], whatever the chunk size, the file and [more] are. *)
Theorem send_single_part_zero_writes_nothing
    (s : coro_http_server) (in_file : coro_file) (resp : coro_http_response)
    (conn : coro_http_connection) (more : string) :
  send_single_part s in_file resp conn 0 more = Some (true, in_file, resp, conn).
Proof.
  unfold send_single_part. cbn [send_single_part_loop].
  now rewrite N.min_0_l.
Qed.

(** ** The proxy handler *)

(** X20: the response that is replied carries the response's own headers
    followed by all the upstream's, with the upstream's status and body; the
    reply is the only write and the response is switched to delayed mode
    after it. *)
Lemma reply_copies_response_headers client url_path req response conn :
  let '(call, response', conn') := reply client url_path req response conn in
  let result := client call in
  let sent :=
    {| status := status_of_int (rd_status result);
       content := rd_resp_body result;
       resp_headers := resp_headers response ++ rd_resp_headers result;
       delay := delay response; fmt_type := fmt_type response |} in
  wire conn' = wire conn ++ [EvReply sent] ∧ response' = set_delay true sent.
Proof.
  unfold reply. rewrite map_to_list_empty. cbn [foldl].
  set (call := {| up_url := url_path; up_method := req_method req;
                  up_content := req_body req; up_headers := ∅ |}).
  assert (Hfold : ∀ hs r,
    foldl (λ r (kv : string * string), add_header (fst kv) (snd kv) r) r hs =
    {| status := status r; content := content r;
       resp_headers := resp_headers r ++ hs;
       delay := delay r; fmt_type := fmt_type r |}).
  { induction hs as [|[k v] hs IH]; intros r; cbn [foldl].
    - rewrite app_nil_r. now destruct r.
    - rewrite IH. unfold add_header. cbn.
      now rewrite <- app_assoc. }
  rewrite Hfold. cbn. split; reflexivity.
Qed.

(** C1 (the code departs from the claim): the upstream request carries the
    incoming method and body, but its header map is empty whatever headers
    the incoming request has, because the loop that should copy them iterates
    over the map it fills.  In particular a header [(k, v)] of the request is
    absent from the upstream request. *)
Theorem reply_sends_no_request_header
    (client : upstream_call → resp_data) (url_path : string)
    (req : coro_http_request) (response : coro_http_response)
    (conn : coro_http_connection) (k : string) :
  let call := (reply client url_path req response conn).1.1 in
  up_method call = req_method req ∧ up_content call = req_body req ∧
  up_url call = url_path ∧ up_headers call = ∅ ∧ up_headers call !! k = None.
Proof.
  unfold reply. rewrite map_to_list_empty. cbn [foldl].
  destruct (conn_reply _ conn). cbn. repeat split; reflexivity.
Qed.

(** On a request that carries [X-Token: abc] the upstream sees no header. *)
Example proxy_drops_x_token :
  let req :=
    {| req_method := POST; req_body := "payload";
       req_headers := [("X-Token", "abc")] |} in
  let client := λ _ : upstream_call,
    {| rd_status := 200; rd_resp_headers := [("Server", "up")];
       rd_resp_body := "ok" |} in
  let '(call, response, conn) :=
    reply client "/p" req fresh_response (fresh_connection pool_executor) in
  call = {| up_url := "/p"; up_method := POST; up_content := "payload";
            up_headers := ∅ |}
  ∧ wire conn =
      [EvReply {| status := status_of_int 200; content := "ok";
                  resp_headers := [("Server", "up")]; delay := false;
                  fmt_type := normal |}]
  ∧ delay response = true.
Proof. vm_compute. repeat split; reflexivity. Qed.

(** ** The acceptor loop *)

Lemma emit_fields e s :
  out_ctx_ (emit e s) = out_ctx_ s ∧ thd_ (emit e s) = thd_ s ∧
  acceptor_ (emit e s) = acceptor_ s ∧
  accept_pending (emit e s) = accept_pending s ∧
  acceptor_close_waiter_ (emit e s) = acceptor_close_waiter_ s ∧
  connections_ (emit e s) = connections_ s ∧
  router_ (emit e s) = router_ s ∧
  effects (emit e s) = effects s ++ [e].
Proof. destruct s. cbn. repeat split; reflexivity. Qed.

(** C6: when [async_accept] fails with [operation_aborted] or
    [bad_descriptor] the loop logs, gives the [acceptor_close_waiter_]
    one-shot its value and returns [operation_canceled] without looking at
    any further accept; on every other error it logs and goes on with the
    next accept. *)
Theorem accept_error_handling
    (error : asio_error) (script : list accept_result) (s : coro_http_server) :
  (error = operation_aborted ∨ error = bad_descriptor →
   ∃ s', accept (AcceptFailed error :: script) s = (s', Some operation_canceled)
         ∧ acceptor_close_waiter_ s' = true
         ∧ accept_pending s' = false
         ∧ connections_ s' = connections_ s
         ∧ effects s' = effects s ++ [LogInfo "accept failed, error: "])
  ∧
  (error ≠ operation_aborted → error ≠ bad_descriptor →
   accept (AcceptFailed error :: script) s =
     accept script (emit (LogInfo "accept failed, error: ") s)
   ∧ effects (emit (LogInfo "accept failed, error: ") s) =
       effects s ++ [LogInfo "accept failed, error: "]).
Proof.
  split.
  - intros [-> | ->]; cbn [accept is_acceptor_closed];
      (eexists; split; [reflexivity |]); destruct s; cbn; repeat split.
  - intros H1 H2. destruct error; try congruence;
      cbn [accept is_acceptor_closed]; (split; [reflexivity |]);
      apply emit_fields.
Qed.

(** ** [stop] *)


Lemma close_all_fields (l : list (N * coro_http_connection)) :
  ∀ s,
    let s' := foldl (λ s (c : N * coro_http_connection),
                       emit (ConnClosed (fst c)) s) s l in
    out_ctx_ s' = out_ctx_ s ∧ thd_ s' = thd_ s ∧ acceptor_ s' = acceptor_ s.
Proof.
  induction l as [|c l IH]; intros s; cbn [foldl]; [repeat split |].
  specialize (IH (emit (ConnClosed c.1) s)). cbn zeta in IH.
  destruct IH as (-> & -> & ->). destruct s. cbn. repeat split.
Qed.

Lemma close_acceptor_fields s s' :
  close_acceptor s = Some s' →
  out_ctx_ s' = out_ctx_ s ∧ thd_ s' = thd_ s ∧ acceptor_ s' = false.
Proof.
  unfold close_acceptor. destruct s as [o t a p w]. cbn.
  destruct p; cbn; [intros [= <-]; repeat split |].
  destruct w; [intros [= <-]; repeat split | discriminate].
Qed.

Lemma stop_result s s1 :
  (out_ctx_ s = true → thd_ s = false) →
  stop s = Some s1 →
  (out_ctx_ s = false ∧ thd_ s = false ∧ s1 = s) ∨
  (out_ctx_ s1 = false ∧ thd_ s1 = false ∧
   connections_ s1 = ∅ ∧ acceptor_ s1 = false).
Proof.
  intros Hthd. unfold stop.
  destruct (negb (out_ctx_ s) && negb (thd_ s)) eqn:E.
  { intros [= <-]. left.
    destruct (out_ctx_ s), (thd_ s); try discriminate. repeat split. }
  destruct (close_acceptor _) as [s2|] eqn:Hc; [| discriminate].
  apply close_acceptor_fields in Hc. destruct Hc as (Ho & Ht & Ha).
  assert (out_ctx_ s2 = out_ctx_ s ∧ thd_ s2 = thd_ s) as [Ho' Ht'].
  { rewrite Ho, Ht. destruct s. split; reflexivity. }
  clear Ho Ht.
  pose proof (close_all_fields (map_to_list (connections_ s2)) s2) as Hf.
  cbn zeta in Hf. destruct Hf as (Hfo & Hft & Hfa).
  set (s3 := foldl _ s2 _) in *.
  assert (out_ctx_ (with_connections_ ∅ s3) = out_ctx_ s3 ∧
          thd_ (with_connections_ ∅ s3) = thd_ s3 ∧
          acceptor_ (with_connections_ ∅ s3) = acceptor_ s3 ∧
          connections_ (with_connections_ ∅ s3) = ∅) as (Wo & Wt & Wa & Wc).
  { destruct s3. cbn. repeat split. }
  set (s4 := with_connections_ ∅ s3) in *.
  assert (acceptor_ s4 = false) as Ha4 by congruence.
  assert (out_ctx_ s4 = true → thd_ s4 = false) as Hthd4.
  { intros H4. rewrite Wt, Hft, Ht'. apply Hthd. congruence. }
  destruct (out_ctx_ s4) eqn:E4; cbn [negb]; intros [= <-]; right.
  - specialize (Hthd4 eq_refl).
    clearbody s4. destruct s4. cbn in *. repeat split; assumption.
  - clearbody s4. destruct s4. cbn in *. repeat split; assumption.
Qed.


Lemma stop_completes s :
  acceptor_close_waiter_ s = true ∨ accept_pending s = true →
  is_Some (stop s).
Proof.
  intros H. unfold stop.
  destruct (negb (out_ctx_ s) && negb (thd_ s)); [eauto |].
  assert (is_Some (close_acceptor
            (emit TimerCancelled (with_stop_timer_ true s)))) as [s2 ->].
  { unfold close_acceptor. destruct s as [o t a p w]. cbn in *.
    destruct p; cbn; [eauto |]. destruct H as [-> | [=]]. eauto. }
  destruct (negb _); eauto.
Qed.


(** ** Configuration of the static files *)

Lemma substring_0_append (pat post : string) :
  substring 0 (String.length pat) (pat +:+ post) = pat.
Proof.
  induction pat as [|c pat IH]; cbn [String.length].
  - rewrite append_nil_l. now destruct post.
  - rewrite append_cons. cbn [substring]. now rewrite IH.
Qed.

Lemma substring_append_mid (pre pat post : string) :
  substring (String.length pre) (String.length pat) (pre +:+ pat +:+ post) = pat.
Proof.
  induction pre as [|c pre IH]; cbn [String.length].
  - rewrite append_nil_l. apply substring_0_append.
  - rewrite append_cons. cbn [substring]. apply IH.
Qed.

Lemma find_contains (pat s : string) :
  pat ≠ "" → contains pat s → is_some (find pat s) = true.
Proof.
  intros Hne (pre & post & ->). unfold find.
  destruct (index 0 pat _) eqn:E; [reflexivity |].
  exfalso.
  apply (index_correct3 0 (String.length pre) _ _ E Hne); [lia |].
  apply substring_append_mid.
Qed.

Lemma has_root_path_absolute (p : string) : absolute p → has_root_path p = true.
Proof.
  intros [rest ->]. unfold has_root_path.
  apply prefix_correct. apply substring_0_append.
Qed.

(** C5: when the directory or the URI prefix contains [..] or starts at the
    root, [set_static_res_dir] ends the process with exit code 1, and the
    router is as it was before the call: no route has been registered. *)
Theorem set_static_res_dir_rejects_unsafe_paths {U : utils}
    (disk : filesystem) (uri_suffix file_path : string)
    (s : coro_http_server) :
  contains ".." file_path ∨ contains ".." uri_suffix ∨
  absolute file_path ∨ absolute uri_suffix →
  ∃ s', set_static_res_dir disk uri_suffix file_path s = Exited 1 s'
        ∧ 1 ≠ 0
        ∧ router_ s' = router_ s ∧ files_ s' = files_ s.
Proof.
  intros H. unfold set_static_res_dir.
  assert (has_root_path file_path || has_root_path uri_suffix
          || (is_some (find ".." file_path) || is_some (find ".." uri_suffix))
          = true) as ->.
  { destruct H as [H | [H | [H | H]]].
    - rewrite (find_contains ".." file_path) by (done || assumption).
      now rewrite orb_true_r.
    - rewrite (find_contains ".." uri_suffix) by (done || assumption).
      now rewrite !orb_true_r.
    - now rewrite (has_root_path_absolute _ H).
    - rewrite (has_root_path_absolute _ H). now rewrite orb_true_r. }
  eexists. split; [reflexivity |]. split; [lia |].
  destruct s; split; reflexivity.
Qed.

(** ** The handler of a static file: cache hit *)

Lemma static_file_handler_cache_hit {D : define_h} {U : utils}
    (s : coro_http_server) (file_name : string) (disk : filesystem)
    (faults : list bool) (fuel : nat) (req : coro_http_request)
    (resp : coro_http_response) (conn : coro_http_connection)
    (body : string) (total : N) :
  static_file_cache_ s !! file_name = Some body →
  file_size disk file_name = Some total →
  static_file_handler s file_name disk faults fuel req resp conn =
    Some (Returned, closed_file, set_delay true resp,
          snd (async_write
                 [build_range_header (get_mime_type (get_extension file_name))
                    file_name (size_to_string total) 200 ""; body] conn)).
Proof.
  intros Hhit Hsize. unfold static_file_handler. now rewrite Hhit, Hsize.
Qed.

Lemma build_range_header_200 {D : define_h} (mime filename len : string) :
  build_range_header mime filename len 200 "" =
    ("HTTP/1.1 200 OK" +:+ CRCF) +:+
    ("Access-Control-Allow-origin: *" +:+ CRCF +:+ "Accept-Ranges: bytes"
       +:+ CRCF +:+ "Content-Disposition: attachment;filename="
       +:+ filename +:+ CRCF +:+ "Connection: keep-alive" +:+ CRCF
       +:+ "Content-Type: " +:+ mime +:+ CRCF) +:+
    ("Content-Length: " +:+ len +:+ CRCF +:+ CRCF).
Proof.
  unfold build_range_header. cbn [empty_str negb].
  rewrite !append_assoc. reflexivity.
Qed.

(** X24: on a cache hit for a file that is still a regular file on disk the
    handler issues exactly one gather-write, of the 200 header whose
    [Content-Length] is the size of the file on disk and of the cached body,
    puts the response in delayed mode and returns; the request, and with it
    any [Range] header, has no influence. *)
Theorem cache_hit_single_gather_write {D : define_h} {U : utils}
    (s : coro_http_server) (file_name : string) (disk : filesystem)
    (faults : list bool) (fuel : nat) (req : coro_http_request)
    (resp : coro_http_response) (conn : coro_http_connection)
    (body : string) (total : N) :
  static_file_cache_ s !! file_name = Some body →
  file_size disk file_name = Some total →
  let mime := get_mime_type (get_extension file_name) in
  let header :=
    build_range_header mime file_name (size_to_string total) 200 "" in
  ∃ conn',
    static_file_handler s file_name disk faults fuel req resp conn =
      Some (Returned, closed_file, set_delay true resp, conn')
    ∧ wire conn' = wire conn ++ [EvAsyncWrite [header; body]]
    ∧ delay (set_delay true resp) = true
    ∧ (∃ mid, header =
         ("HTTP/1.1 200 OK" +:+ CRCF) +:+ mid +:+
         ("Content-Length: " +:+ size_to_string total +:+ CRCF +:+ CRCF)).
Proof.
  intros Hhit Hsize mime header.
  rewrite (static_file_handler_cache_hit _ _ _ _ _ _ _ _ _ _ Hhit Hsize).
  eexists. split; [reflexivity |]. split; [reflexivity |].
  split; [reflexivity |].
  subst header. rewrite build_range_header_200. eexists. reflexivity.
Qed.

(** C4: a file that is in the cache but is no longer a regular file on disk
    is not served: [fs::file_size] throws before the response is put in
    delayed mode and before anything is written, whatever the request is:
    the handler ends with the response and the connection as it found
    them, and the cached body is not sent. *)
Theorem cache_hit_throws_when_file_is_gone {D : define_h} {U : utils}
    (s : coro_http_server) (file_name : string) (disk : filesystem)
    (faults : list bool) (fuel : nat) (req : coro_http_request)
    (resp : coro_http_response) (conn : coro_http_connection)
    (body : string) :
  static_file_cache_ s !! file_name = Some body →
  file_size disk file_name = None →
  static_file_handler s file_name disk faults fuel req resp conn =
    Some (Threw, closed_file, resp, conn).
Proof.
  intros Hhit Hgone. unfold static_file_handler. now rewrite Hhit, Hgone.
Qed.

Lemma cache_hit_ignores_request {D : define_h} {U : utils}
    (s : coro_http_server) (file_name : string) (disk : filesystem)
    (faults : list bool) (fuel : nat) (req req' : coro_http_request)
    (resp : coro_http_response) (conn : coro_http_connection) :
  is_Some (static_file_cache_ s !! file_name) →
  static_file_handler s file_name disk faults fuel req resp conn =
  static_file_handler s file_name disk faults fuel req' resp conn.
Proof.
  intros [body Hhit]. unfold static_file_handler. now rewrite Hhit.
Qed.

(** What [set_max_size_of_cache_files] adds to the cache comes from a
    readable regular file of the disk it scanned. *)
Lemma cache_fill_lookup (max_size : N) (l : list (string * fs_node)) :
  ∀ (cache : gmap string string) (k v : string),
    foldl
      (λ (cache : gmap string string) (file : string * fs_node),
         match snd file with
         | Directory => cache
         | RegularFile data readable =>
             let filesize := strlen data in
             if (max_size <? filesize)%N then cache
             else if readable then
               let content := data in emplace (fst file) content cache
             else cache
         end) cache l !! k = Some v →
    cache !! k = Some v ∨ (k, RegularFile v true) ∈ l.
Proof.
  induction l as [|[p n] l IH]; intros cache k v H; cbn [foldl] in H.
  - now left.
  - apply IH in H. destruct H as [H | H]; [| right; now right].
    cbn [fst snd] in H. destruct n as [|data readable]; [now left |].
    cbv zeta in H. destruct (max_size <? strlen data)%N; [now left |].
    destruct readable; [| now left].
    unfold emplace in H. destruct (cache !! p) eqn:E; [now left |].
    destruct (decide (p = k)) as [-> | Hne].
    + rewrite lookup_insert_eq in H. injection H as ->. right. now left.
    + rewrite lookup_insert_ne in H by assumption. now left.
Qed.

Lemma recursive_directory_iterator_disk (disk : filesystem) (dir path : string)
    (n : fs_node) :
  (path, n) ∈ recursive_directory_iterator disk dir → disk !! path = Some n.
Proof.
  unfold recursive_directory_iterator. intros H.
  destruct (empty_str dir); [now apply elem_of_nil in H |].
  destruct (is_directory_path disk dir); [| now apply elem_of_nil in H].
  apply list_elem_of_filter in H. destruct H as [_ H].
  now apply elem_of_map_to_list in H.
Qed.

Lemma cached_body_from_disk (disk0 : filesystem) (max_size : N)
    (s0 : coro_http_server) (file_name body : string) :
  static_file_cache_ s0 !! file_name = None →
  static_file_cache_ (set_max_size_of_cache_files disk0 max_size s0)
    !! file_name = Some body →
  disk0 !! file_name = Some (RegularFile body true).
Proof.
  intros Hnone H. unfold set_max_size_of_cache_files in H.
  assert (∀ c, static_file_cache_ (with_static_file_cache_ c s0) = c) as E
    by (intros; now destruct s0).
  rewrite E in H. apply cache_fill_lookup in H.
  destruct H as [H | H]; [congruence |].
  now apply recursive_directory_iterator_disk in H.
Qed.

(** C10: on a cache hit the [Content-Length] of the header is the size the
    file has on disk when the request is served, whereas the body is the
    string cached by [set_max_size_of_cache_files], as long as the file was
    when it was cached; the two lengths agree exactly when the size on disk
    has not changed since. *)
Theorem cache_hit_content_length_is_disk_size {D : define_h} {U : utils}
    (s0 : coro_http_server) (disk0 : filesystem) (max_size : N)
    (disk : filesystem) (file_name : string) (faults : list bool)
    (fuel : nat) (req : coro_http_request) (resp : coro_http_response)
    (conn : coro_http_connection) (body : string) (now : N) :
  let s := set_max_size_of_cache_files disk0 max_size s0 in
  static_file_cache_ s0 !! file_name = None →
  static_file_cache_ s !! file_name = Some body →
  file_size disk file_name = Some now →
  ∃ conn' mid,
    static_file_handler s file_name disk faults fuel req resp conn =
      Some (Returned, closed_file, set_delay true resp, conn')
    ∧ wire conn' =
        wire conn ++
        [EvAsyncWrite
           [("HTTP/1.1 200 OK" +:+ CRCF) +:+ mid +:+
            ("Content-Length: " +:+ size_to_string now +:+ CRCF +:+ CRCF);
            body]]
    ∧ file_size disk0 file_name = Some (strlen body)
    ∧ (size_to_string now = size_to_string (strlen body)
       ↔ file_size disk file_name = file_size disk0 file_name).
Proof.
  intros s Hnone Hhit Hsize.
  rewrite (static_file_handler_cache_hit _ _ _ _ _ _ _ _ _ _ Hhit Hsize).
  pose proof (cached_body_from_disk _ _ _ _ _ Hnone Hhit) as Hdisk0.
  assert (file_size disk0 file_name = Some (strlen body)) as Hsize0
    by (unfold file_size; now rewrite Hdisk0).
  rewrite build_range_header_200.
  eexists _, _. split; [reflexivity |]. split; [reflexivity |].
  split; [exact Hsize0 |].
  rewrite Hsize, Hsize0. split.
  - intros E. apply (inj pretty) in E. now rewrite E.
  - intros [= ->]. reflexivity.
Qed.

(** ** Reading a file piece by piece *)

Lemma substring_nil (p n : nat) : substring p n "" = "".
Proof. destruct p, n; reflexivity. Qed.

Lemma substring_zero (s : string) : ∀ p, substring p 0 s = "".
Proof.
  induction s as [|c s IH]; intros [|p]; try reflexivity.
  cbn [substring]. apply IH.
Qed.

Lemma substring_length (s : string) :
  ∀ p n, String.length (substring p n s) = Nat.min n (String.length s - p).
Proof.
  induction s as [|c s IH]; intros p n.
  - rewrite substring_nil. cbn. lia.
  - destruct p as [|p].
    + destruct n as [|n]; cbn [substring String.length]; [lia |].
      rewrite IH. lia.
    + cbn [substring String.length]. rewrite IH. lia.
Qed.

Lemma substring_split (s : string) :
  ∀ p n m, substring p (n + m) s = substring p n s +:+ substring (p + n) m s.
Proof.
  induction s as [|c s IH]; intros p n m.
  - now rewrite !substring_nil.
  - destruct p as [|p].
    + destruct n as [|n].
      * cbn [plus]. now destruct m.
      * cbn [plus substring]. rewrite append_cons. f_equal. apply IH.
    + cbn [plus substring]. apply IH.
Qed.

Lemma substring_past_end (s : string) :
  ∀ p n, (String.length s ≤ p)%nat → substring p n s = "".
Proof.
  induction s as [|c s IH]; intros p n H.
  - apply substring_nil.
  - destruct p as [|p]; cbn [String.length] in H; [lia |].
    cbn [substring]. apply IH. lia.
Qed.

Lemma substring_clip (s : string) (p n : nat) :
  (String.length s - p ≤ n)%nat →
  substring p n s = substring p (String.length s - p) s.
Proof.
  intros H.
  replace n with ((String.length s - p) + (n - (String.length s - p)))%nat by lia.
  rewrite substring_split.
  rewrite (substring_past_end s (p + _)) by lia.
  now rewrite append_nil_r.
Qed.

Lemma async_read_ok (len : N) (f : coro_file) :
  reads_ok f →
  ∃ f',
    async_read len f =
      ((false, substring (seek_offset f) (N.to_nat len) (file_data f)), f')
    ∧ file_data f' = file_data f
    ∧ seek_offset f' =
        (seek_offset f +
         Nat.min (N.to_nat len) (String.length (file_data f) - seek_offset f))%nat
    ∧ eof f' =
        bool_decide (String.length (file_data f) - seek_offset f < N.to_nat len)%nat
    ∧ reads_ok f'.
Proof.
  unfold reads_ok, async_read. intros H.
  assert (∀ rest, read_faults f ≠ true :: rest) as Hne.
  { intros rest E. rewrite E in H. inversion H; discriminate. }
  assert (Forall (λ r, r = false) (tail (read_faults f))) as Ht.
  { destruct (read_faults f); [constructor | now inversion H]. }
  set (data := substring _ _ _).
  assert (String.length data =
          Nat.min (N.to_nat len) (String.length (file_data f) - seek_offset f))
    as Hlen by apply substring_length.
  exists {| is_open := is_open f; file_data := file_data f;
            seek_offset := (seek_offset f + String.length data)%nat;
            eof := (strlen data <? len)%N;
            read_faults := tail (read_faults f) |}.
  split.
  - destruct (read_faults f) as [|[|] rest] eqn:E; [reflexivity | | reflexivity].
    now destruct (Hne rest).
  - cbn. repeat split; try assumption; [lia |].
    unfold strlen. rewrite Hlen.
    destruct (N.ltb_spec (N.of_nat (Nat.min (N.to_nat len)
                (String.length (file_data f) - seek_offset f))) len);
      symmetry; [apply bool_decide_eq_true | apply bool_decide_eq_false]; lia.
Qed.

Lemma part_write (more d : string) (conn : coro_http_connection) :
  (if empty_str more then write_data d conn else async_write [d; more] conn)
  = conn_call (part_event more d) conn.
Proof. unfold part_event. now destruct (empty_str more). Qed.

Lemma send_single_part_loop_S fuel chunked_size in_file resp conn part_size more :
  send_single_part_loop (S fuel) chunked_size in_file resp conn part_size more =
    let read_size := N.min part_size chunked_size in
    if (read_size =? 0)%N then Some (true, in_file, resp, conn)
    else
      let '((ec, data), in_file) := async_read read_size in_file in
      if ec then
        let resp := set_status no_content resp in
        let '(_, conn) := conn_reply resp conn in
        Some (false, in_file, resp, conn)
      else
        let part_size := (part_size - read_size)%N in
        let '(r, conn) := conn_call (part_event more data) conn in
        if negb r then Some (false, in_file, resp, conn)
        else send_single_part_loop fuel chunked_size in_file resp conn
               part_size more.
Proof.
  cbn [send_single_part_loop]. cbv zeta.
  destruct (_ =? _)%N; [reflexivity |].
  destruct (async_read _ _) as [[[|] data] f]; [reflexivity |].
  now rewrite part_write.
Qed.

(** With no failing read or write and a positive chunk size, the loop writes
    the [part_size] bytes at the file's offset in pieces of at most
    [chunked_size] bytes, one [part_event] per piece, and returns [true]. *)
Lemma send_single_part_loop_ok (chunked_size : N) (more : string) :
  (0 < chunked_size)%N →
  ∀ n in_file resp conn part_size,
    reads_ok in_file → writes_ok conn →
    (N.to_nat part_size ≤ n)%nat →
    (seek_offset in_file + N.to_nat part_size
       ≤ String.length (file_data in_file))%nat →
    ∃ in_file' conn' pieces,
      send_single_part_loop (S n) chunked_size in_file resp conn part_size more
        = Some (true, in_file', resp, conn')
      ∧ wire conn' = wire conn ++ map (part_event more) pieces
      ∧ foldr String.append "" pieces =
          substring (seek_offset in_file) (N.to_nat part_size)
            (file_data in_file)
      ∧ Forall (λ d, (0 < String.length d ≤ N.to_nat chunked_size)%nat) pieces
      ∧ file_data in_file' = file_data in_file
      ∧ seek_offset in_file' = (seek_offset in_file + N.to_nat part_size)%nat
      ∧ reads_ok in_file' ∧ writes_ok conn'.
Proof.
  intros Hchunk.
  induction n as [|n IH]; intros in_file resp conn part_size Hr Hw Hle Hfit.
  - assert (part_size = 0%N) as -> by lia.
    exists in_file, conn, [].
    cbn [send_single_part_loop]. rewrite N.min_0_l. cbn.
    rewrite app_nil_r, Nat.add_0_r.
    repeat split; try assumption; try constructor.
    now rewrite substring_zero.
  - rewrite send_single_part_loop_S. cbv zeta.
    set (read_size := N.min part_size chunked_size).
    destruct (N.eqb_spec read_size 0) as [E|E].
    { assert (part_size = 0%N) as -> by lia.
      exists in_file, conn, []. cbn. rewrite app_nil_r, Nat.add_0_r.
      repeat split; try assumption; try constructor.
      now rewrite substring_zero. }
    destruct (async_read_ok read_size in_file Hr)
      as (f1 & -> & Hdata & Hoff & _ & Hr1).
    set (d := substring (seek_offset in_file) (N.to_nat read_size)
                (file_data in_file)).
    destruct (conn_call_ok (part_event more d) conn Hw) as [Hok Hw1].
    pose proof (conn_call_wire (part_event more d) conn) as Hwire.
    destruct (conn_call (part_event more d) conn) as [r conn1].
    cbn [fst snd] in Hok, Hw1, Hwire. subst r. cbn [negb].
    assert (Hmin : Nat.min (N.to_nat read_size)
                     (String.length (file_data in_file) - seek_offset in_file)
                   = N.to_nat read_size) by lia.
    rewrite Hmin in Hoff.
    destruct (IH f1 resp conn1 (part_size - read_size)%N Hr1 Hw1)
      as (f2 & conn2 & pieces & Hrun & Hwire2 & Hcat & Hall & Hd2 & Ho2 & Hr2 & Hw2);
      [lia | rewrite Hdata, Hoff; lia |].
    exists f2, conn2, (d :: pieces). rewrite Hrun.
    split; [reflexivity |].
    split; [rewrite Hwire2, Hwire, <- app_assoc; reflexivity |].
    split.
    { cbn [foldr]. rewrite Hcat, Hdata, Hoff.
      replace (N.to_nat part_size)
        with (N.to_nat read_size + N.to_nat (part_size - read_size))%nat by lia.
      now rewrite substring_split. }
    split.
    { constructor; [| assumption]. subst d. rewrite substring_length. lia. }
    repeat split; try assumption; [congruence | lia].
Qed.

Lemma send_single_part_ok (s : coro_http_server) (more : string)
    (in_file : coro_file) (resp : coro_http_response)
    (conn : coro_http_connection) (part_size : N) :
  (0 < chunked_size_ s)%N →
  reads_ok in_file → writes_ok conn →
  (seek_offset in_file + N.to_nat part_size
     ≤ String.length (file_data in_file))%nat →
  ∃ in_file' conn' pieces,
    send_single_part s in_file resp conn part_size more
      = Some (true, in_file', resp, conn')
    ∧ wire conn' = wire conn ++ map (part_event more) pieces
    ∧ foldr String.append "" pieces =
        substring (seek_offset in_file) (N.to_nat part_size) (file_data in_file)
    ∧ Forall (λ d, (0 < String.length d ≤ N.to_nat (chunked_size_ s))%nat) pieces
    ∧ file_data in_file' = file_data in_file
    ∧ seek_offset in_file' = (seek_offset in_file + N.to_nat part_size)%nat
    ∧ reads_ok in_file' ∧ writes_ok conn'.
Proof.
  intros Hc Hr Hw Hfit. unfold send_single_part.
  now apply send_single_part_loop_ok.
Qed.

(** ** The handler of a static file: one range *)

Lemma find_nonempty (pat s : string) (pos : nat) :
  pat ≠ "" → find pat s = Some pos → empty_str s = false.
Proof.
  intros Hne H. destruct s; [| reflexivity].
  unfold find in H. destruct pat; [congruence |]. discriminate.
Qed.

Lemma to_size_t_small (z : Z) :
  0 ≤ z < SIZE_MAX_plus_1 → to_size_t z = Z.to_N z.
Proof. intros H. unfold to_size_t. now rewrite Z.mod_small. Qed.

Lemma to_int_small (z : Z) : - 2 ^ 31 ≤ z ≤ INT_MAX → to_int z = z.
Proof.
  unfold to_int, INT_MAX. intros H. rewrite Z.mod_small; lia.
Qed.

(** Below [INT_MAX] the size of a range is computed without overflow. *)
Lemma range_size_int (a b : Z) :
  0 ≤ a ≤ b → b < INT_MAX → int_sub (int_add b 1) a = b + 1 - a.
Proof.
  intros Hab Hb. unfold int_sub, int_add, INT_MAX in *.
  rewrite (to_int_small (b + 1)) by (unfold INT_MAX; lia).
  apply to_int_small. unfold INT_MAX. lia.
Qed.

Lemma build_range_header_shape {D : define_h}
    (mime filename len : string) (status : Z) (content_range : string) :
  empty_str content_range = false →
  build_range_header mime filename len status content_range =
    "HTTP/1.1 " +:+ int_to_string status +:+ " OK" +:+ CRCF +:+
    "Access-Control-Allow-origin: *" +:+ CRCF +:+ "Accept-Ranges: bytes" +:+ CRCF
    +:+ content_range +:+ "Content-Disposition: attachment;filename=" +:+
    filename +:+ CRCF +:+ "Connection: keep-alive" +:+ CRCF +:+
    "Content-Type: " +:+ mime +:+ CRCF +:+ "Content-Length: " +:+ len +:+
    CRCF +:+ CRCF.
Proof.
  intros E. unfold build_range_header. rewrite E. cbn [negb].
  now rewrite !append_assoc.
Qed.

Lemma map_part_event_nil (pieces : list string) :
  map (part_event "") pieces = map EvWriteData pieces.
Proof. reflexivity. Qed.

(** C3, amended: a request that misses the cache and whose [Range] header
    parses to the single valid range [[a, b]] of a file of [S] bytes, with
    [b] below [INT_MAX], gets, when the chunk size is positive and no read
    or write fails: a header with status
    200 if [b + 1 - a = S] and 206 otherwise that contains
    [Content-Range: bytes a-b/S]; then, read from offset [a] on, exactly the
    [b + 1 - a] bytes of the range, after which the file offset is [b + 1]. *)
Theorem single_range_response {D : define_h} {U : utils}
    (s : coro_http_server) (file_name : string) (disk : filesystem)
    (data : string) (faults : list bool) (fuel : nat)
    (req : coro_http_request) (resp : coro_http_response)
    (conn : coro_http_connection) (pos : nat) (a b : Z) :
  static_file_cache_ s !! file_name = None →
  disk !! file_name = Some (RegularFile data true) →
  find "=" (get_header_value req "Range") = Some pos →
  parse_ranges (substr (pos + 1) (get_header_value req "Range")) (strlen data)
    = ([(a, b)], true) →
  0 ≤ a ≤ b ∧ b < Z.of_N (strlen data) →
  b < INT_MAX →
  (0 < chunked_size_ s)%N →
  Forall (λ r, r = false) faults →
  writes_ok conn →
  let S := strlen data in
  let part_size := Z.to_N (b + 1 - a) in
  let status := if (part_size =? S)%N then 200 else 206 in
  let content_range :=
    "Content-Range: bytes " +:+ int_to_string a +:+ "-" +:+ int_to_string b
      +:+ "/" +:+ size_to_string S in
  let header :=
    build_range_header (get_mime_type (get_extension file_name)) file_name
      (size_to_string part_size) status (content_range +:+ CRCF) in
  ∃ in_file' conn' pieces,
    static_file_handler s file_name disk faults fuel req resp conn =
      Some (Returned, in_file', set_delay true resp, conn')
    ∧ wire conn' = wire conn ++ EvWriteData header :: map EvWriteData pieces
    ∧ foldr String.append "" pieces =
        substring (Z.to_nat a) (N.to_nat part_size) data
    ∧ String.length (foldr String.append "" pieces) = Z.to_nat (b + 1 - a)
    ∧ seek_offset in_file' = Z.to_nat (b + 1)
    ∧ contains content_range header
    ∧ ∃ rest, header = "HTTP/1.1 " +:+ int_to_string status +:+ " OK" +:+ rest.
Proof.
  intros Hmiss Hfile Hfind Hparse [Hab HbS] Hint Hchunk Hfaults Hw
    S part_size status content_range header.
  assert (Hlen : Z.of_N (strlen data) = Z.of_nat (String.length data))
    by (unfold strlen; lia).
  unfold static_file_handler. rewrite Hmiss.
  unfold async_open, file_size. rewrite Hfile. cbn [is_open negb].
  rewrite (find_nonempty "=" _ pos) by (done || assumption).
  rewrite andb_false_r.
  rewrite Hfind, Hparse. cbn [negb].
  rewrite (range_size_int a b Hab Hint).
  rewrite to_size_t_small by (unfold SIZE_MAX_plus_1, INT_MAX in *; lia).
  fold part_size. fold S. fold status.
  replace (((((("Content-Range: bytes " +:+ int_to_string a) +:+ "-")
               +:+ int_to_string b) +:+ "/") +:+ size_to_string S) +:+ CRCF)
    with (content_range +:+ CRCF)
    by (subst content_range; now rewrite !append_assoc).
  fold header.
  destruct (conn_call_ok (EvWriteData header) conn Hw) as [Hok Hw1].
  pose proof (conn_call_wire (EvWriteData header) conn) as Hwire.
  unfold write_data at 1.
  destruct (conn_call (EvWriteData header) conn) as [r conn1].
  cbn [fst snd] in Hok, Hw1, Hwire. subst r. cbn [negb].
  set (f0 := seek a _).
  assert (Hf0 : f0 = {| is_open := true; file_data := data;
                        seek_offset := Z.to_nat a; eof := false;
                        read_faults := faults |}).
  { subst f0. unfold seek. destruct (Z.leb_spec 0 a); [reflexivity | lia]. }
  destruct (send_single_part_ok s "" f0 (set_delay true resp) conn1 part_size)
    as (f1 & conn2 & pieces & -> & Hwire2 & Hcat & _ & _ & Hoff & _ & _);
    try assumption.
  { rewrite Hf0. exact Hfaults. }
  { rewrite Hf0. cbn. subst part_size. lia. }
  rewrite Hf0 in Hcat, Hoff. cbn in Hcat, Hoff.
  exists f1, conn2, pieces.
  split; [reflexivity |].
  split; [rewrite Hwire2, Hwire, <- app_assoc; reflexivity |].
  split; [assumption |].
  split; [rewrite Hcat, substring_length; subst part_size; lia |].
  split; [subst part_size; lia |].
  assert (E : empty_str (content_range +:+ CRCF) = false) by reflexivity.
  subst header. rewrite (build_range_header_shape _ _ _ _ _ E).
  split.
  - eexists ("HTTP/1.1 " +:+ int_to_string status +:+ " OK" +:+ CRCF +:+
             "Access-Control-Allow-origin: *" +:+ CRCF +:+
             "Accept-Ranges: bytes" +:+ CRCF), _.
    rewrite !append_assoc. reflexivity.
  - eexists. reflexivity.
Qed.

(** ** The handler of a static file: chunked transfer *)

Lemma substring_full (s : string) : substring 0 (String.length s) s = s.
Proof.
  rewrite <- (append_nil_r s) at 2. apply substring_0_append.
Qed.

Lemma chunked_loop_S fuel chunked_size in_file resp conn :
  chunked_loop (S fuel) chunked_size in_file resp conn =
    let '((ec, data), in_file) := async_read chunked_size in_file in
    if ec then
      let resp := set_status no_content resp in
      let '(_, conn) := conn_reply resp conn in
      Some (Returned, in_file, resp, conn)
    else
      let '(r, conn) := write_chunked data conn in
      if negb r then Some (Returned, in_file, resp, conn)
      else if eof in_file then
        let '(_, conn) := end_chunked conn in
        Some (Returned, in_file, resp, conn)
      else chunked_loop fuel chunked_size in_file resp conn.
Proof. reflexivity. Qed.

(** With no failing read or write and a positive chunk size the chunked loop
    sends what is left of the file as chunks and then, once, the zero chunk;
    one iteration more than there are bytes left is enough fuel. *)
Lemma chunked_loop_ok (chunked_size : N) :
  (0 < chunked_size)%N →
  ∀ n in_file resp conn,
    reads_ok in_file → writes_ok conn →
    (String.length (file_data in_file) - seek_offset in_file < n)%nat →
    ∃ in_file' conn' pieces,
      chunked_loop n chunked_size in_file resp conn
        = Some (Returned, in_file', resp, conn')
      ∧ wire conn' = wire conn ++ map EvWriteChunked pieces ++ [EvEndChunked]
      ∧ foldr String.append "" pieces =
          substring (seek_offset in_file)
            (String.length (file_data in_file) - seek_offset in_file)
            (file_data in_file).
Proof.
  intros Hchunk.
  induction n as [|n IH]; intros in_file resp conn Hr Hw Hfuel; [lia |].
  rewrite chunked_loop_S.
  destruct (async_read_ok chunked_size in_file Hr)
    as (f1 & -> & Hdata & Hoff & Heof & Hr1).
  set (d := substring (seek_offset in_file) (N.to_nat chunked_size)
              (file_data in_file)).
  destruct (conn_call_ok (EvWriteChunked d) conn Hw) as [Hok Hw1].
  pose proof (conn_call_wire (EvWriteChunked d) conn) as Hwire.
  unfold write_chunked.
  destruct (conn_call (EvWriteChunked d) conn) as [r conn1].
  cbn [fst snd] in Hok, Hw1, Hwire. subst r. cbn [negb].
  rewrite Heof. case_bool_decide as Hshort.
  - pose proof (conn_call_wire EvEndChunked conn1) as Hwire2.
    unfold end_chunked. destruct (conn_call EvEndChunked conn1) as [r conn2].
    cbn [snd] in Hwire2.
    exists f1, conn2, [d]. split; [reflexivity |].
    split; [rewrite Hwire2, Hwire, <- app_assoc; reflexivity |].
    cbn [foldr]. rewrite append_nil_r. subst d.
    apply substring_clip. lia.
  - destruct (IH f1 resp conn1 Hr1 Hw1)
      as (f2 & conn2 & pieces & Hrun & Hwire2 & Hcat);
      [rewrite Hdata, Hoff; lia |].
    exists f2, conn2, (d :: pieces). rewrite Hrun.
    split; [reflexivity |].
    split; [rewrite Hwire2, Hwire, <- app_assoc; reflexivity |].
    cbn [foldr]. rewrite Hcat, Hdata, Hoff.
    replace (Nat.min (N.to_nat chunked_size)
               (String.length (file_data in_file) - seek_offset in_file))
      with (N.to_nat chunked_size) by lia.
    subst d. rewrite <- substring_split. f_equal. lia.
Qed.

(** C8 as stated fails: when the second read of the file reports an error,
    the chunked response that has been begun is followed by a reply of status
    204 and never gets its zero chunk. *)
Lemma chunked_response_cut_by_read_error :
  let s := set_transfer_chunked_size 4 (new_server false) in
  let r :=
    @static_file_handler sample_define_h (sample_utils [] true) s "www/a.txt"
      sample_disk [false; true] 100 plain_request fresh_response
      (fresh_connection pool_executor) in
  final_wire r =
    [EvBeginChunked; EvWriteChunked "0123";
     EvReply (set_status no_content (set_format_type chunked fresh_response))]
  ∧ last (final_wire r) ≠ Some EvEndChunked.
Proof.
  cbv zeta. split; [vm_compute; reflexivity |].
  vm_compute. discriminate.
Qed.

(** The read-error branch in general: if the first read of the file fails,
    the response that [begin_chunked] started is followed by the reply of a
    204 and by nothing else. *)
Lemma chunked_response_first_read_error {D : define_h} {U : utils}
    (s : coro_http_server) (file_name : string) (disk : filesystem)
    (data : string) (faults : list bool) (fuel : nat)
    (req : coro_http_request) (resp : coro_http_response)
    (conn : coro_http_connection) :
  static_file_cache_ s !! file_name = None →
  disk !! file_name = Some (RegularFile data true) →
  format_type_ s = frt_chunked →
  get_header_value req "Range" = "" →
  writes_ok conn →
  final_wire
    (static_file_handler s file_name disk (true :: faults) (S fuel) req resp conn)
  = wire conn ++
    [EvBeginChunked;
     EvReply (set_status no_content (set_format_type chunked resp))].
Proof.
  intros Hmiss Hfile Hfmt Hrange Hw.
  unfold static_file_handler. rewrite Hmiss.
  unfold async_open, file_size. rewrite Hfile. cbn [is_open negb].
  rewrite Hfmt, Hrange. cbn [file_resp_format_type_eqb empty_str andb].
  destruct (conn_call_ok EvBeginChunked conn Hw) as [Hok _].
  pose proof (conn_call_wire EvBeginChunked conn) as Hwire.
  unfold begin_chunked. destruct (conn_call EvBeginChunked conn) as [r conn1].
  cbn [fst snd] in Hok, Hwire. subst r. cbn [negb].
  rewrite chunked_loop_S. cbn. rewrite Hwire, <- app_assoc. reflexivity.
Qed.

(** C8, amended: a request with no [Range] header that misses the cache, on
    a server in chunked format with a positive chunk size, is answered, when
    [begin_chunked] and every read and chunk write succeed, by
    [begin_chunked], the file's bytes in chunks and, last, exactly one zero
    chunk. *)
Theorem chunked_response_ends_with_zero_chunk {D : define_h} {U : utils}
    (s : coro_http_server) (file_name : string) (disk : filesystem)
    (data : string) (faults : list bool) (fuel : nat)
    (req : coro_http_request) (resp : coro_http_response)
    (conn : coro_http_connection) :
  static_file_cache_ s !! file_name = None →
  disk !! file_name = Some (RegularFile data true) →
  format_type_ s = frt_chunked →
  get_header_value req "Range" = "" →
  (0 < chunked_size_ s)%N →
  Forall (λ r, r = false) faults →
  writes_ok conn →
  (String.length data < fuel)%nat →
  ∃ in_file' conn' pieces,
    static_file_handler s file_name disk faults fuel req resp conn =
      Some (Returned, in_file', set_format_type chunked resp, conn')
    ∧ wire conn' =
        wire conn ++ EvBeginChunked :: map EvWriteChunked pieces ++ [EvEndChunked]
    ∧ foldr String.append "" pieces = data
    ∧ last (wire conn') = Some EvEndChunked.
Proof.
  intros Hmiss Hfile Hfmt Hrange Hchunk Hfaults Hw Hfuel.
  unfold static_file_handler. rewrite Hmiss.
  unfold async_open, file_size. rewrite Hfile. cbn [is_open negb].
  rewrite Hfmt, Hrange. cbn [file_resp_format_type_eqb empty_str andb].
  destruct (conn_call_ok EvBeginChunked conn Hw) as [Hok Hw1].
  pose proof (conn_call_wire EvBeginChunked conn) as Hwire.
  unfold begin_chunked. destruct (conn_call EvBeginChunked conn) as [r conn1].
  cbn [fst snd] in Hok, Hw1, Hwire. subst r. cbn [negb].
  destruct (chunked_loop_ok (chunked_size_ s) Hchunk fuel
              {| is_open := true; file_data := data; seek_offset := 0;
                 eof := false; read_faults := faults |}
              (set_format_type chunked resp) conn1)
    as (f2 & conn2 & pieces & -> & Hwire2 & Hcat);
    [exact Hfaults | exact Hw1 | cbn; lia |].
  cbn in Hcat. rewrite Nat.sub_0_r, substring_full in Hcat.
  exists f2, conn2, pieces.
  split; [reflexivity |].
  assert (wire conn2 =
          wire conn ++ EvBeginChunked :: map EvWriteChunked pieces ++ [EvEndChunked])
    as Hw2 by (rewrite Hwire2, Hwire, <- app_assoc; reflexivity).
  split; [exact Hw2 |]. split; [exact Hcat |].
  rewrite Hw2.
  change (EvBeginChunked :: map EvWriteChunked pieces ++ [EvEndChunked])
    with ((EvBeginChunked :: map EvWriteChunked pieces) ++ [EvEndChunked]).
  rewrite app_assoc. apply last_snoc.
Qed.

(** ** The handler of a static file: several ranges *)

Lemma build_part_heads_loop_heads {D : define_h} (mime fss : string) :
  ∀ ranges acc content_len,
    (build_part_heads_loop ranges mime fss acc content_len).1 =
      acc ++ map (part_head mime fss) ranges.
Proof.
  induction ranges as [|[a b] ranges IH]; intros acc content_len.
  - cbn. now rewrite app_nil_r.
  - cbn [build_part_heads_loop map]. rewrite IH, <- app_assoc. reflexivity.
Qed.

Lemma build_part_heads_heads {D : define_h} (mime fss : string)
    (ranges : list (Z * Z)) (content_len : N) :
  (build_part_heads ranges mime fss content_len).1 =
    map (part_head mime fss) ranges.
Proof.
  unfold build_part_heads.
  pose proof (build_part_heads_loop_heads mime fss ranges [] content_len) as H.
  destruct (build_part_heads_loop _ _ _ _ _) as [heads cl]. exact H.
Qed.

(** The handler on a request whose [Range] header parses to two ranges or
    more. *)
Lemma static_file_handler_multipart {D : define_h} {U : utils}
    (s : coro_http_server) (file_name : string) (disk : filesystem)
    (data : string) (faults : list bool) (fuel : nat)
    (req : coro_http_request) (resp : coro_http_response)
    (conn : coro_http_connection) (pos : nat)
    (r1 r2 : Z * Z) (rs : list (Z * Z)) :
  static_file_cache_ s !! file_name = None →
  disk !! file_name = Some (RegularFile data true) →
  find "=" (get_header_value req "Range") = Some pos →
  parse_ranges (substr (pos + 1) (get_header_value req "Range")) (strlen data)
    = (r1 :: r2 :: rs, true) →
  let ranges := r1 :: r2 :: rs in
  let in_file :=
    {| is_open := true; file_data := data; seek_offset := 0; eof := false;
       read_faults := faults |} in
  let mime := get_mime_type (get_extension file_name) in
  let heads_len :=
    build_part_heads ranges mime (size_to_string (strlen data)) 0 in
  let header_conn :=
    write_data (build_multiple_range_header heads_len.2) conn in
  static_file_handler s file_name disk faults fuel req resp conn =
    if negb header_conn.1
    then Some (Returned, in_file, set_delay true resp, header_conn.2)
    else multipart_loop s ranges 0 (List.length ranges) heads_len.1 in_file
           (set_delay true resp) header_conn.2.
Proof.
  intros Hmiss Hfile Hfind Hparse ranges in_file mime heads_len header_conn.
  unfold static_file_handler. rewrite Hmiss.
  unfold async_open, file_size. rewrite Hfile. cbn [is_open negb].
  rewrite (find_nonempty "=" _ pos) by (done || assumption).
  rewrite andb_false_r, Hfind, Hparse. cbn [negb].
  destruct r1 as [a1 b1]. fold ranges. fold mime. fold in_file.
  fold heads_len. destruct heads_len as [heads cl]. cbn [fst snd] in *.
  fold header_conn. destruct header_conn as [r conn1]. reflexivity.
Qed.

Lemma two_ranges_run (D : define_h) :
  @static_file_handler D (sample_utils two_ranges true) two_byte_chunks
    "www/a.txt" sample_disk [] 0 (range_request "bytes=0-3,6-9")
    fresh_response (fresh_connection pool_executor) =
  let heads_len := build_part_heads two_ranges "text/plain" "10" 0 in
  let header_conn :=
    write_data (build_multiple_range_header heads_len.2)
      (fresh_connection pool_executor) in
  multipart_loop two_byte_chunks two_ranges 0 2 heads_len.1
    {| is_open := true; file_data := "0123456789"; seek_offset := 0;
       eof := false; read_faults := [] |}
    (set_delay true fresh_response) header_conn.2.
Proof.
  rewrite (@static_file_handler_multipart D (sample_utils two_ranges true)
             two_byte_chunks "www/a.txt" sample_disk
             "0123456789" [] 0 _ _ _ 5 (0, 3) (6, 9) []).
  - reflexivity.
  - vm_compute; reflexivity.
  - vm_compute; reflexivity.
  - vm_compute; reflexivity.
  - vm_compute; reflexivity.
Qed.

Lemma two_ranges_loop (D : define_h) (header h1 h2 : string) :
  final_wire
    (multipart_loop two_byte_chunks
       two_ranges 0 2 [h1; h2]
       {| is_open := true; file_data := "0123456789"; seek_offset := 0;
          eof := false; read_faults := [] |}
       (set_delay true fresh_response)
       (write_data header (fresh_connection pool_executor)).2) =
    [EvWriteData header; EvWriteData h1;
     EvAsyncWrite ["01"; CRCF]; EvAsyncWrite ["23"; CRCF];
     EvWriteData h2;
     part_event MULTIPART_END "67"; part_event MULTIPART_END "89"].
Proof. destruct D as [B [|c ME]]; vm_compute; reflexivity. Qed.

Lemma two_ranges_bytes (D : define_h) (h1 h2 : string) :
  wire_bytes
    [EvWriteData h1; EvAsyncWrite ["01"; CRCF]; EvAsyncWrite ["23"; CRCF];
     EvWriteData h2;
     part_event MULTIPART_END "67"; part_event MULTIPART_END "89"]
  ≠ multipart_body [h1; h2] two_ranges "0123456789".
Proof.
  destruct D as [B [|c ME]]; vm_compute; intros E;
    apply (inj (String.append h1)) in E; discriminate E.
Qed.

(** C2 (the code departs from the claim): with a chunk size of 2, a file
    ["0123456789"] and the ranges 0-3 and 6-9, [send_single_part] writes the
    delimiter after every chunk of a part, not once after the part: [CRLF]
    follows ["01"] and ["23"], [MULTIPART_END] follows ["67"] and ["89"].
    The bytes sent after the header are not the body P7 describes, while
    [build_part_heads] counted one delimiter per part. *)
Theorem multipart_delimiter_after_every_chunk (D : define_h) :
  let h1 := part_head "text/plain" "10" (0, 3) in
  let h2 := part_head "text/plain" "10" (6, 9) in
  let r :=
    @static_file_handler D (sample_utils two_ranges true) two_byte_chunks
      "www/a.txt" sample_disk [] 0 (range_request "bytes=0-3,6-9")
      fresh_response (fresh_connection pool_executor) in
  ∃ content_len,
    final_wire r =
      [EvWriteData (build_multiple_range_header content_len);
       EvWriteData h1;
       EvAsyncWrite ["01"; CRCF]; EvAsyncWrite ["23"; CRCF];
       EvWriteData h2;
       part_event MULTIPART_END "67"; part_event MULTIPART_END "89"]
    ∧ wire_bytes (tail (final_wire r))
        ≠ multipart_body [h1; h2] two_ranges "0123456789".
Proof.
  cbv zeta. rewrite two_ranges_run. cbv zeta.
  rewrite build_part_heads_heads.
  exists (build_part_heads two_ranges "text/plain" "10" 0).2.
  change (map (part_head "text/plain" "10") two_ranges)
    with [part_head "text/plain" "10" (0, 3); part_head "text/plain" "10" (6, 9)].
  rewrite two_ranges_loop. split; [reflexivity |].
  apply two_ranges_bytes.
Qed.

Lemma length_concat_bound (pieces : list string) (k : nat) :
  Forall (λ d, (0 < String.length d ≤ k)%nat) pieces →
  (String.length (foldr String.append "" pieces) ≤ List.length pieces * k)%nat.
Proof.
  induction 1 as [|d pieces Hd _ IH]; cbn [foldr List.length]; [cbn; lia |].
  rewrite length_append. lia.
Qed.

(** The defect in general: a part longer than the chunk size is written in
    two pieces or more, and a non-empty delimiter [more] goes out with each of
    them. *)
Lemma send_single_part_delimiter_per_piece (s : coro_http_server)
    (more : string) (in_file : coro_file) (resp : coro_http_response)
    (conn : coro_http_connection) (part_size : N) :
  (0 < chunked_size_ s < part_size)%N →
  empty_str more = false →
  reads_ok in_file → writes_ok conn →
  (seek_offset in_file + N.to_nat part_size
     ≤ String.length (file_data in_file))%nat →
  ∃ in_file' conn' pieces,
    send_single_part s in_file resp conn part_size more
      = Some (true, in_file', resp, conn')
    ∧ wire conn' = wire conn ++ map (λ d, EvAsyncWrite [d; more]) pieces
    ∧ (2 ≤ List.length pieces)%nat.
Proof.
  intros [Hpos Hlt] Hmore Hr Hw Hfit.
  destruct (send_single_part_ok s more in_file resp conn part_size)
    as (f1 & conn1 & pieces & Hrun & Hwire & Hcat & Hall & _); try assumption.
  exists f1, conn1, pieces. split; [exact Hrun |]. split.
  - rewrite Hwire. f_equal. apply map_ext. intros d.
    unfold part_event. now rewrite Hmore.
  - pose proof (length_concat_bound pieces _ Hall) as Hb.
    rewrite Hcat, substring_length in Hb.
    destruct pieces as [|d1 [|d2 pieces]]; cbn [List.length] in *; lia.
Qed.

(** ** Several ranges, each part within one chunk *)

Lemma event_bytes_part_event (more d : string) :
  event_bytes (part_event more d) = d +:+ more.
Proof.
  unfold part_event. destruct more as [|c more]; cbn [empty_str event_bytes foldr].
  - now rewrite append_nil_r.
  - now rewrite append_nil_r.
Qed.

(** A part that fits in one chunk is written in one piece, followed once by
    [more]. *)
Lemma send_single_part_one_piece (s : coro_http_server) (more : string)
    (in_file : coro_file) (resp : coro_http_response)
    (conn : coro_http_connection) (part_size : N) :
  (0 < part_size ≤ chunked_size_ s)%N →
  reads_ok in_file → writes_ok conn →
  (seek_offset in_file + N.to_nat part_size
     ≤ String.length (file_data in_file))%nat →
  ∃ in_file' conn',
    send_single_part s in_file resp conn part_size more
      = Some (true, in_file', resp, conn')
    ∧ wire conn' =
        wire conn ++
        [part_event more
           (substring (seek_offset in_file) (N.to_nat part_size)
              (file_data in_file))]
    ∧ file_data in_file' = file_data in_file
    ∧ reads_ok in_file' ∧ writes_ok conn'.
Proof.
  intros [Hpos Hle] Hr Hw Hfit. unfold send_single_part.
  destruct (N.to_nat part_size) as [|k] eqn:Ek; [lia |].
  rewrite send_single_part_loop_S. cbv zeta.
  rewrite N.min_l by assumption.
  destruct (N.eqb_spec part_size 0) as [E|_]; [lia |].
  destruct (async_read_ok part_size in_file Hr)
    as (f1 & -> & Hdata & _ & _ & Hr1).
  rewrite Ek.
  set (d := substring (seek_offset in_file) (S k) (file_data in_file)).
  destruct (conn_call_ok (part_event more d) conn Hw) as [Hok Hw1].
  pose proof (conn_call_wire (part_event more d) conn) as Hwire.
  destruct (conn_call (part_event more d) conn) as [r conn1].
  cbn [fst snd] in Hok, Hw1, Hwire. subst r. cbn [negb].
  rewrite N.sub_diag, send_single_part_loop_S. cbv zeta.
  rewrite N.min_0_l. cbn [N.eqb].
  exists f1, conn1. repeat split; assumption.
Qed.

Lemma multipart_loop_cons {D : define_h} (s : coro_http_server)
    (start end_ : Z) (rest : list (Z * Z)) (i n : nat)
    (multi_heads : list string) (in_file : coro_file)
    (resp : coro_http_response) (conn : coro_http_connection) :
  multipart_loop s ((start, end_) :: rest) i n multi_heads in_file resp conn =
    let part_header := default "" (multi_heads !! i) in
    let '(r, conn) := write_data part_header conn in
    if negb r then Some (Returned, in_file, resp, conn)
    else
      let in_file := seek start in_file in
      let part_size := to_size_t (int_sub (int_add end_ 1) start) in
      let more := if (i =? n - 1)%nat then MULTIPART_END else CRCF in
      match send_single_part s in_file resp conn part_size more with
      | None => None
      | Some (r, in_file, resp, conn) =>
          if negb r then Some (Returned, in_file, resp, conn)
          else multipart_loop s rest (S i) n multi_heads in_file resp conn
      end.
Proof. reflexivity. Qed.

Lemma multipart_loop_one_piece_per_part {D : define_h}
    (s : coro_http_server) (mime fss data : string)
    (multi_heads : list string) (n : nat) :
  ∀ (rest : list (Z * Z)) (i : nat) (in_file : coro_file)
    (resp : coro_http_response) (conn : coro_http_connection),
    n = (i + List.length rest)%nat →
    (∀ j r, rest !! j = Some r →
            multi_heads !! (i + j)%nat = Some (part_head mime fss r)) →
    Forall (small_range (String.length data) (chunked_size_ s)) rest →
    file_data in_file = data → reads_ok in_file → writes_ok conn →
    ∃ in_file' conn',
      multipart_loop s rest i n multi_heads in_file resp conn
        = Some (Returned, in_file', resp, conn')
      ∧ wire conn' = wire conn ++ multipart_events mime fss data rest.
Proof.
  induction rest as [|[a b] rest IH];
    intros i in_file resp conn Hn Hheads Hall Hdata Hr Hw.
  - exists in_file, conn. cbn. rewrite app_nil_r. repeat split.
  - rewrite multipart_loop_cons. cbv zeta.
    pose proof (Hheads 0%nat (a, b) eq_refl) as Hh0.
    rewrite Nat.add_0_r in Hh0. rewrite Hh0.
    cbn [default from_option id].
    set (h := part_head mime fss (a, b)).
    destruct (conn_call_ok (EvWriteData h) conn Hw) as [Hok Hw1].
    pose proof (conn_call_wire (EvWriteData h) conn) as Hwire.
    unfold write_data.
    destruct (conn_call (EvWriteData h) conn) as [r conn1].
    cbn [fst snd] in Hok, Hw1, Hwire. subst r. cbn [negb].
    apply Forall_cons in Hall.
    destruct Hall as [[(Hab & HbS & Hint) Hfit] Hall'].
    cbn [fst snd] in Hab, HbS, Hint, Hfit.
    rewrite (range_size_int a b Hab Hint).
    rewrite to_size_t_small by (unfold SIZE_MAX_plus_1, INT_MAX in *; lia).
    set (more := if (i =? n - 1)%nat then MULTIPART_END else CRCF).
    set (f0 := seek a in_file).
    assert (Hf0 : file_data f0 = file_data in_file ∧
                  seek_offset f0 = Z.to_nat a ∧ reads_ok f0).
    { subst f0. unfold seek. destruct (Z.leb_spec 0 a); [| lia].
      repeat split. exact Hr. }
    destruct Hf0 as (Hd0 & Ho0 & Hr0).
    destruct (send_single_part_one_piece s more f0 resp conn1
                (Z.to_N (b + 1 - a)))
      as (f1 & conn2 & -> & Hwire2 & Hd1 & Hr1 & Hw2);
      [lia | exact Hr0 | exact Hw1 | rewrite Ho0, Hd0, Hdata; lia |].
    cbn [negb].
    destruct (IH (S i) f1 resp conn2)
      as (f2 & conn3 & Hrun & Hwire3);
      [cbn [List.length] in Hn; lia | | exact Hall' | congruence | exact Hr1
       | exact Hw2 |].
    { intros j r Hj. rewrite <- (Hheads (S j) r Hj). f_equal. lia. }
    exists f2, conn3. split; [exact Hrun |].
    rewrite Hwire3, Hwire2, Hwire, <- !app_assoc.
    cbn [multipart_events app]. fold h.
    rewrite Ho0, Hd0, Hdata. unfold range_bytes at 1. cbn [fst snd].
    replace (N.to_nat (Z.to_N (b + 1 - a))) with (Z.to_nat (b + 1 - a)) by lia.
    subst more. cbn [List.length] in Hn.
    destruct rest as [|r' rest']; cbn [List.length] in Hn.
    + replace (i =? n - 1)%nat with true
        by (symmetry; apply Nat.eqb_eq; lia).
      reflexivity.
    + replace (i =? n - 1)%nat with false
        by (symmetry; apply Nat.eqb_neq; lia).
      reflexivity.
Qed.

(** The bytes of the calls of P7 are the body of P7. *)
Lemma multipart_events_bytes {D : define_h} (mime fss data : string)
    (ranges : list (Z * Z)) :
  wire_bytes (multipart_events mime fss data ranges) =
    multipart_body (map (part_head mime fss) ranges) ranges data.
Proof.
  induction ranges as [|r ranges IH]; [reflexivity |].
  cbn [multipart_events map multipart_body wire_bytes foldr].
  fold (wire_bytes (multipart_events mime fss data ranges)).
  rewrite IH, event_bytes_part_event. cbn [event_bytes].
  now rewrite !append_assoc.
Qed.

Lemma to_size_t_Z (z : Z) : Z.of_N (to_size_t z) = z mod SIZE_MAX_plus_1.
Proof.
  unfold to_size_t. rewrite Z2N.id; [reflexivity |].
  apply Z.mod_pos_bound. reflexivity.
Qed.

Lemma size_add_Z (a b : N) :
  Z.of_N (size_add a b) = (Z.of_N a + Z.of_N b) mod SIZE_MAX_plus_1.
Proof. apply to_size_t_Z. Qed.

Lemma size_add_bound (a b : N) : Z.of_N (size_add a b) < SIZE_MAX_plus_1.
Proof. rewrite size_add_Z. apply Z.mod_pos_bound. reflexivity. Qed.

Lemma build_part_heads_loop_len {D : define_h} (mime fss : string)
    (size : nat) :
  ∀ ranges acc content_len,
    Forall (valid_range size) ranges →
    Z.of_N content_len < SIZE_MAX_plus_1 →
    Z.of_N (build_part_heads_loop ranges mime fss acc content_len).2 =
      (Z.of_N content_len + parts_length mime fss ranges) mod SIZE_MAX_plus_1.
Proof.
  induction ranges as [|[a b] ranges IH]; intros acc content_len Hall Hlt.
  - cbn [build_part_heads_loop snd parts_length]. rewrite Z.add_0_r.
    symmetry. apply Z.mod_small. lia.
  - apply Forall_cons in Hall. destruct Hall as [(Hab & _ & Hint) Hall].
    cbn [fst snd] in Hab, Hint.
    cbn [build_part_heads_loop parts_length fst snd].
    rewrite IH by (assumption || apply size_add_bound).
    rewrite (range_size_int a b Hab Hint).
    rewrite !size_add_Z, to_size_t_Z.
    generalize (Z.of_N (strlen (part_head mime fss (a, b)))).
    generalize (parts_length mime fss ranges).
    generalize (Z.of_N (strlen CRCF)). generalize (Z.of_N content_len).
    intros c0 c1 c2 c3. unfold SIZE_MAX_plus_1.
    change (2 ^ 64) with 18446744073709551616.
    Z.div_mod_to_equations. lia.
Qed.

Lemma build_part_heads_len {D : define_h} (mime fss : string) (size : nat)
    (ranges : list (Z * Z)) :
  Forall (valid_range size) ranges →
  Z.of_N (build_part_heads ranges mime fss 0).2 =
    (parts_length mime fss ranges + Z.of_N (strlen BOUNDARY) + 4)
      mod SIZE_MAX_plus_1.
Proof.
  intros Hall. unfold build_part_heads.
  pose proof (build_part_heads_loop_len mime fss size ranges [] 0%N Hall
                eq_refl) as H.
  destruct (build_part_heads_loop _ _ _ _ _) as [heads cl].
  cbn [snd] in *. rewrite size_add_Z, H, N2Z.inj_add.
  change (Z.of_N 4) with 4. change (Z.of_N 0) with 0.
  generalize (parts_length mime fss ranges).
  generalize (Z.of_N (strlen BOUNDARY)). intros c0 c1.
  unfold SIZE_MAX_plus_1.
  change (2 ^ 64) with 18446744073709551616.
  Z.div_mod_to_equations. lia.
Qed.

Lemma range_bytes_length (data : string) (r : Z * Z) :
  valid_range (String.length data) r →
  Z.of_nat (String.length (range_bytes data r)) = r.2 + 1 - r.1.
Proof.
  intros (H1 & H2 & _). unfold range_bytes. rewrite substring_length. lia.
Qed.

Lemma multipart_body_length {D : define_h} (mime fss data : string) :
  ∀ ranges,
    ranges ≠ [] →
    Forall (valid_range (String.length data)) ranges →
    Z.of_nat (String.length
                (multipart_body (map (part_head mime fss) ranges) ranges data))
    = parts_length mime fss ranges - Z.of_N (strlen CRCF)
        + Z.of_N (strlen MULTIPART_END).
Proof.
  induction ranges as [|r ranges IH]; intros Hne Hall; [congruence |].
  apply Forall_cons in Hall. destruct Hall as [Hr Hall].
  cbn [map multipart_body parts_length].
  rewrite !length_append, !Nat2Z.inj_add, (range_bytes_length _ _ Hr).
  destruct ranges as [|r' ranges].
  - cbn [map multipart_body parts_length String.length]. unfold strlen. lia.
  - rewrite IH by (congruence || assumption). unfold strlen. lia.
Qed.

(** X22: for ranges that lie within the file and end below [INT_MAX], and
    when the sum fits in [size_t], the advertised [Content-Length] is the
    length of the body of P7 exactly when [MULTIPART_END] is as long as
    [CRLF], two dashes, [BOUNDARY] and two dashes. *)
Lemma content_length_exact_iff {D : define_h} (mime fss data : string)
    (ranges : list (Z * Z)) :
  ranges ≠ [] →
  Forall (valid_range (String.length data)) ranges →
  parts_length mime fss ranges + Z.of_N (strlen BOUNDARY) + 4
    < SIZE_MAX_plus_1 →
  Z.of_N (build_part_heads ranges mime fss 0).2 =
    Z.of_nat (String.length
                (multipart_body (map (part_head mime fss) ranges) ranges data))
  ↔ strlen MULTIPART_END = (strlen CRCF + strlen BOUNDARY + 4)%N.
Proof.
  intros Hne Hall Hfit.
  rewrite (build_part_heads_len _ _ _ _ Hall),
    (multipart_body_length _ _ _ _ Hne Hall).
  assert (0 ≤ parts_length mime fss ranges) as Hpos.
  { clear Hne Hfit.
    induction Hall as [|r l (H1 & H2 & _) _ IH]; cbn [parts_length];
      [lia |]. lia. }
  rewrite Z.mod_small by lia. lia.
Qed.

(** X21: with every part within one chunk (each range within the file and
    ending below [INT_MAX]) and no failing read or write, the handler makes,
    after the write of the multipart header, exactly the calls of P7 on the
    connection and no other: per part one write of the part header and one
    write of the bytes of the range with its delimiter; their bytes are the
    body of P7. *)
Lemma multipart_response_parts_within_chunk {D : define_h} {U : utils}
    (s : coro_http_server) (file_name : string) (disk : filesystem)
    (data : string) (faults : list bool) (fuel : nat)
    (req : coro_http_request) (resp : coro_http_response)
    (conn : coro_http_connection) (pos : nat)
    (r1 r2 : Z * Z) (rs : list (Z * Z)) :
  static_file_cache_ s !! file_name = None →
  disk !! file_name = Some (RegularFile data true) →
  find "=" (get_header_value req "Range") = Some pos →
  parse_ranges (substr (pos + 1) (get_header_value req "Range")) (strlen data)
    = (r1 :: r2 :: rs, true) →
  Forall (small_range (String.length data) (chunked_size_ s)) (r1 :: r2 :: rs) →
  Forall (λ r, r = false) faults →
  writes_ok conn →
  let ranges := r1 :: r2 :: rs in
  let mime := get_mime_type (get_extension file_name) in
  let fss := size_to_string (strlen data) in
  ∃ in_file' conn',
    static_file_handler s file_name disk faults fuel req resp conn =
      Some (Returned, in_file', set_delay true resp, conn')
    ∧ wire conn' =
        wire conn ++
        EvWriteData
          (build_multiple_range_header (build_part_heads ranges mime fss 0).2)
        :: multipart_events mime fss data ranges
    ∧ wire_bytes (multipart_events mime fss data ranges) =
        multipart_body (map (part_head mime fss) ranges) ranges data.
Proof.
  intros Hmiss Hfile Hfind Hparse Hall Hfaults Hw ranges mime fss.
  rewrite (static_file_handler_multipart s file_name disk data faults fuel
             req resp conn pos r1 r2 rs Hmiss Hfile Hfind Hparse).
  cbv zeta. fold ranges mime fss.
  set (header := build_multiple_range_header _).
  destruct (conn_call_ok (EvWriteData header) conn Hw) as [Hok Hw1].
  pose proof (conn_call_wire (EvWriteData header) conn) as Hwire.
  unfold write_data.
  destruct (conn_call (EvWriteData header) conn) as [r conn1].
  cbn [fst snd] in *. subst r. cbn [negb].
  rewrite build_part_heads_heads.
  destruct (multipart_loop_one_piece_per_part s mime fss data
              (map (part_head mime fss) ranges) (List.length ranges)
              ranges 0%nat
              {| is_open := true; file_data := data; seek_offset := 0;
                 eof := false; read_faults := faults |}
              (set_delay true resp) conn1)
    as (f2 & conn2 & Hrun & Hwire2);
    [reflexivity | | exact Hall | reflexivity | exact Hfaults | exact Hw1 |].
  { intros j r Hj. cbn [plus]. rewrite list_lookup_fmap, Hj. reflexivity. }
  exists f2, conn2. split; [exact Hrun |].
  split; [rewrite Hwire2, Hwire, <- app_assoc; reflexivity |].
  apply multipart_events_bytes.
Qed.

(** * The statements on concrete servers *)

Lemma single_range_response_witness :
  ∃ in_file' conn' header,
    @static_file_handler sample_define_h (sample_utils [(2, 5)] true)
      two_byte_chunks "www/a.txt" sample_disk [] 0 (range_request "bytes=2-5")
      fresh_response (fresh_connection pool_executor)
    = Some (Returned, in_file', set_delay true fresh_response, conn')
    ∧ wire_bytes (wire conn') = header +:+ "2345"
    ∧ seek_offset in_file' = 6%nat
    ∧ contains "Content-Range: bytes 2-5/10" header
    ∧ ∃ rest, header = "HTTP/1.1 206 OK" +:+ rest.
Proof.
  destruct (@single_range_response sample_define_h (sample_utils [(2, 5)] true)
              two_byte_chunks "www/a.txt" sample_disk "0123456789" [] 0
              (range_request "bytes=2-5") fresh_response
              (fresh_connection pool_executor) 5 2 5)
    as (f & c & pieces & Hrun & Hwire & Hcat & _ & Hoff & Hcr & Hst).
  - vm_compute; reflexivity.
  - vm_compute; reflexivity.
  - vm_compute; reflexivity.
  - vm_compute; reflexivity.
  - split; [lia | vm_compute; reflexivity].
  - vm_compute; reflexivity.
  - vm_compute; reflexivity.
  - constructor.
  - constructor.
  - exists f, c. eexists. split; [exact Hrun |].
    split.
    + rewrite Hwire. cbn [wire fresh_connection app wire_bytes foldr event_bytes].
      f_equal.
      assert (∀ l, wire_bytes (map EvWriteData l) = foldr String.append "" l) as E.
      { induction l as [|d l IH]; [reflexivity |]. cbn. now rewrite <- IH. }
      rewrite E, Hcat. reflexivity.
    + split; [exact Hoff |]. split; [exact Hcr | exact Hst].
Defined.

Lemma cache_hit_single_gather_write_witness :
  ∃ conn' header,
    @static_file_handler sample_define_h (sample_utils [(2, 5)] true)
      cached_server "www/a.txt" sample_disk [] 0 (range_request "bytes=2-5")
      fresh_response (fresh_connection pool_executor)
    = Some (Returned, closed_file, set_delay true fresh_response, conn')
    ∧ wire conn' = [EvAsyncWrite [header; "0123456789"]]
    ∧ ∃ mid, header =
        ("HTTP/1.1 200 OK" +:+ CRCF) +:+ mid +:+
        ("Content-Length: 10" +:+ CRCF +:+ CRCF).
Proof.
  destruct (@cache_hit_single_gather_write sample_define_h
              (sample_utils [(2, 5)] true) cached_server "www/a.txt"
              sample_disk [] 0 (range_request "bytes=2-5") fresh_response
              (fresh_connection pool_executor) "0123456789" 10)
    as (c & Hrun & Hwire & _ & Hhdr).
  - vm_compute; reflexivity.
  - vm_compute; reflexivity.
  - exists c. eexists. split; [exact Hrun |]. split; [exact Hwire | exact Hhdr].
Defined.

Lemma set_static_res_dir_rejects_unsafe_paths_witness :
  ∃ s', @set_static_res_dir (sample_utils [] true) sample_disk "" "../etc"
          (new_server false) = Exited 1 s'
        ∧ router_ s' = [].
Proof.
  destruct (@set_static_res_dir_rejects_unsafe_paths (sample_utils [] true)
              sample_disk "" "../etc" (new_server false))
    as (s' & Hrun & _ & Hrouter & _).
  - left. exists "", "/etc". reflexivity.
  - exists s'. split; [exact Hrun | exact Hrouter].
Defined.

Lemma accept_error_handling_witness :
  (∃ s', accept [AcceptFailed bad_descriptor; Accepted] (new_server false)
         = (s', Some operation_canceled)
         ∧ acceptor_close_waiter_ s' = true ∧ connections_ s' = ∅)
  ∧ accept [AcceptFailed no_descriptors; Accepted] (new_server false)
    = accept [Accepted]
        (emit (LogInfo "accept failed, error: ") (new_server false)).
Proof.
  split.
  - destruct (proj1 (accept_error_handling bad_descriptor [Accepted]
                       (new_server false)))
      as (s' & Hrun & Hw & _ & Hc & _); [right; reflexivity |].
    exists s'. split; [exact Hrun |]. split; [exact Hw | exact Hc].
  - apply (proj2 (accept_error_handling no_descriptors [Accepted]
                    (new_server false))); discriminate.
Defined.

Lemma chunked_response_ends_with_zero_chunk_witness :
  last (final_wire
          (@static_file_handler sample_define_h (sample_utils [] true)
             (set_transfer_chunked_size 4 (new_server false)) "www/a.txt"
             sample_disk [] 11 plain_request fresh_response
             (fresh_connection pool_executor)))
  = Some EvEndChunked.
Proof.
  destruct (@chunked_response_ends_with_zero_chunk sample_define_h
              (sample_utils [] true)
              (set_transfer_chunked_size 4 (new_server false)) "www/a.txt"
              sample_disk "0123456789" [] 11 plain_request fresh_response
              (fresh_connection pool_executor))
    as (f & c & pieces & Hrun & _ & _ & Hlast).
  - vm_compute; reflexivity.
  - vm_compute; reflexivity.
  - reflexivity.
  - reflexivity.
  - vm_compute; reflexivity.
  - constructor.
  - constructor.
  - cbn. lia.
  - rewrite Hrun. exact Hlast.
Defined.

Lemma cache_hit_content_length_is_disk_size_witness :
  ∃ conn' mid,
    @static_file_handler sample_define_h (sample_utils [] true) cached_server
      "www/a.txt" grown_disk [] 0 plain_request fresh_response
      (fresh_connection pool_executor)
    = Some (Returned, closed_file, set_delay true fresh_response, conn')
    ∧ wire conn' =
        [EvAsyncWrite
           [("HTTP/1.1 200 OK" +:+ CRCF) +:+ mid +:+
            ("Content-Length: 13" +:+ CRCF +:+ CRCF);
            "0123456789"]]
    ∧ file_size grown_disk "www/a.txt" ≠ file_size sample_disk "www/a.txt".
Proof.
  destruct (@cache_hit_content_length_is_disk_size sample_define_h
              (sample_utils [] true) (with_static_dir_ "www" (new_server false))
              sample_disk 100 grown_disk "www/a.txt" [] 0 plain_request
              fresh_response (fresh_connection pool_executor)
              "0123456789" 13)
    as (c & mid & Hrun & Hwire & _ & _).
  - vm_compute; reflexivity.
  - vm_compute; reflexivity.
  - vm_compute; reflexivity.
  - exists c, mid. split; [exact Hrun |]. split; [exact Hwire |].
    vm_compute. discriminate.
Defined.

(** * Beyond the claims *)

(** ** Accepted connections *)

Lemma accept_cons_accepted (script : list accept_result) (s : coro_http_server) :
  accept (Accepted :: script) s =
    accept script
      (emit (DriverStarted (uint64_incr (conn_id_ s)))
         (with_connections_
            (emplace (uint64_incr (conn_id_ s))
               {| conn_executor :=
                    if negb (out_ctx_ s) then pool_executor else out_executor;
                  tcp_no_delay := no_delay_ s;
                  shrink_to_fit := need_shrink_every_time_ s;
                  check_timeout := need_check_ s;
                  quit_callback := Some (uint64_incr (conn_id_ s));
                  closed := false; wire := []; write_results := [] |}
               (connections_ s))
            (emit (LogDebug "new connection comming, id: ")
               (with_conn_id_ (uint64_incr (conn_id_ s)) s)))).
Proof. destruct s. reflexivity. Qed.

(** The members one accept leaves as they are, and the two it changes. *)
Lemma accept_one_fields (s : coro_http_server) (c : coro_http_connection) :
  let s' :=
    emit (DriverStarted (uint64_incr (conn_id_ s)))
      (with_connections_ (emplace (uint64_incr (conn_id_ s)) c (connections_ s))
         (emit (LogDebug "new connection comming, id: ")
            (with_conn_id_ (uint64_incr (conn_id_ s)) s))) in
  conn_id_ s' = uint64_incr (conn_id_ s)
  ∧ connections_ s' = emplace (uint64_incr (conn_id_ s)) c (connections_ s)
  ∧ out_ctx_ s' = out_ctx_ s ∧ thd_ s' = thd_ s
  ∧ no_delay_ s' = no_delay_ s ∧ need_check_ s' = need_check_ s
  ∧ need_shrink_every_time_ s' = need_shrink_every_time_ s
  ∧ acceptor_ s' = acceptor_ s ∧ stop_timer_ s' = stop_timer_ s
  ∧ router_ s' = router_ s.
Proof. destruct s. cbn. repeat split; reflexivity. Qed.

Lemma emplace_fresh {V} (k : N) (v : V) (m : gmap N V) :
  m !! k = None → emplace k v m = <[k:=v]> m.
Proof. intros H. unfold emplace. now rewrite H. Qed.

(** X1: as long as the 64-bit counter does not wrap, every accept hands out
    the next id, which is not in the table, so the table grows by one entry
    per accepted socket and the entries it had stay as they were. *)
Theorem accept_registers_fresh_ids (script : list accept_result) :
  ∀ s : coro_http_server,
    ids_handed_out s →
    (conn_id_ s + N.of_nat (accepted script) < 2 ^ 64)%N →
    let s' := (accept script s).1 in
    conn_id_ s' = (conn_id_ s + N.of_nat (accepted script))%N
    ∧ connection_count s' = (connection_count s + accepted script)%nat
    ∧ ids_handed_out s'
    ∧ (∀ id c, connections_ s !! id = Some c → connections_ s' !! id = Some c)
    ∧ (∀ id, (conn_id_ s < id ≤ conn_id_ s')%N →
             is_Some (connections_ s' !! id)).
Proof.
  induction script as [|[|error] script IH]; intros s Hids Hbound.
  - cbn [accept accepted fst]. rewrite N.add_0_r, Nat.add_0_r.
    assert (∀ v, connections_ (with_accept_pending v s) = connections_ s
                 ∧ conn_id_ (with_accept_pending v s) = conn_id_ s) as E
      by (intros; now destruct s).
    destruct (E true) as [Ec Ei].
    unfold connection_count, ids_handed_out. rewrite Ec, Ei.
    repeat split; try assumption; try done. intros id H. lia.
  - rewrite accept_cons_accepted. cbn [accepted] in *.
    set (c := Build_coro_http_connection _ _ _ _ _ _ _ _).
    pose proof (accept_one_fields s c) as Hf. cbv zeta in Hf.
    set (s1 := emit _ _) in *.
    destruct Hf as (Hid & Hconn & _).
    assert (Hincr : uint64_incr (conn_id_ s) = (conn_id_ s + 1)%N).
    { unfold uint64_incr. apply N.mod_small. lia. }
    rewrite Hincr in Hid, Hconn.
    assert (Hfresh : connections_ s !! (conn_id_ s + 1)%N = None).
    { destruct (connections_ s !! (conn_id_ s + 1)%N) eqn:E; [| reflexivity].
      specialize (Hids (conn_id_ s + 1)%N (ex_intro _ _ E)). lia. }
    rewrite (emplace_fresh _ _ _ Hfresh) in Hconn.
    destruct (IH s1) as (Hid' & Hcount' & Hids' & Hold' & Hnew').
    { intros id [x Hx]. rewrite Hconn in Hx. rewrite Hid.
      destruct (decide (id = (conn_id_ s + 1)%N)) as [-> | Hne]; [lia |].
      rewrite lookup_insert_ne in Hx by congruence.
      specialize (Hids id (ex_intro _ _ Hx)). lia. }
    { rewrite Hid. lia. }
    cbv zeta. split; [rewrite Hid', Hid; lia |].
    split.
    { rewrite Hcount'. unfold connection_count. rewrite Hconn.
      rewrite map_size_insert_None by assumption. lia. }
    split; [exact Hids' |]. split.
    { intros id x Hx. apply Hold'. rewrite Hconn.
      rewrite lookup_insert_ne; [assumption |]. intros <-. congruence. }
    intros id Hid2.
    destruct (decide (id = (conn_id_ s + 1)%N)) as [-> | Hne].
    + eexists. apply Hold'. rewrite Hconn. apply lookup_insert_eq.
    + apply Hnew'. rewrite Hid. lia.
  - cbn [accept accepted] in *. destruct (is_acceptor_closed error).
    + cbn [fst]. rewrite N.add_0_r, Nat.add_0_r.
      assert (connections_
                (with_accept_pending false
                   (with_acceptor_close_waiter_ true
                      (emit (LogInfo "accept failed, error: ") s)))
              = connections_ s
              ∧ conn_id_
                  (with_accept_pending false
                     (with_acceptor_close_waiter_ true
                        (emit (LogInfo "accept failed, error: ") s)))
                = conn_id_ s) as [Ec Ei] by now destruct s.
      unfold connection_count, ids_handed_out. rewrite Ec, Ei.
      repeat split; try assumption; try done. intros id H. lia.
    + assert (connections_ (emit (LogInfo "accept failed, error: ") s)
              = connections_ s
              ∧ conn_id_ (emit (LogInfo "accept failed, error: ") s)
                = conn_id_ s) as [Ec Ei] by now destruct s.
      destruct (IH (emit (LogInfo "accept failed, error: ") s))
        as (Hid' & Hcount' & Hids' & Hold' & Hnew').
      { unfold ids_handed_out. now rewrite Ec, Ei. }
      { now rewrite Ei. }
      cbv zeta. rewrite Ei in *. unfold connection_count in *.
      rewrite Ec in *. repeat split; assumption.
Qed.

Lemma emplace_keeps {V} (k k' : N) (v v' : V) (m : gmap N V) :
  m !! k' = Some v' → emplace k v m !! k' = Some v'.
Proof.
  intros H. unfold emplace. destruct (m !! k) eqn:E; [assumption |].
  rewrite lookup_insert_ne; [assumption | congruence].
Qed.

Lemma emplace_other {V} (k k' : N) (v : V) (m : gmap N V) :
  k ≠ k' → emplace k v m !! k' = m !! k'.
Proof.
  intros H. unfold emplace. destruct (m !! k); [reflexivity |].
  now rewrite lookup_insert_ne.
Qed.

(** [accept] changes the table, the counter, the log and the state of the
    loop, and nothing else. *)
Lemma accept_fields (script : list accept_result) :
  ∀ s : coro_http_server,
    let s' := (accept script s).1 in
    out_ctx_ s' = out_ctx_ s ∧ thd_ s' = thd_ s
    ∧ no_delay_ s' = no_delay_ s ∧ need_check_ s' = need_check_ s
    ∧ need_shrink_every_time_ s' = need_shrink_every_time_ s
    ∧ acceptor_ s' = acceptor_ s ∧ stop_timer_ s' = stop_timer_ s
    ∧ router_ s' = router_ s.
Proof.
  induction script as [|[|error] script IH]; intros s; cbv zeta.
  - cbn [accept fst]. destruct s. cbn. repeat split; reflexivity.
  - rewrite accept_cons_accepted.
    set (c := Build_coro_http_connection _ _ _ _ _ _ _ _).
    pose proof (accept_one_fields s c) as Hf. cbv zeta in Hf.
    set (s1 := emit _ _) in *.
    destruct Hf as (_ & _ & <- & <- & <- & <- & <- & <- & <- & <-).
    apply IH.
  - cbn [accept]. destruct (is_acceptor_closed error).
    + cbn [fst]. destruct s. cbn. repeat split; reflexivity.
    + specialize (IH (emit (LogInfo "accept failed, error: ") s)).
      cbv zeta in IH. destruct s. exact IH.
Qed.

Lemma accept_keeps_entries (script : list accept_result) :
  ∀ (s : coro_http_server) id c,
    connections_ s !! id = Some c →
    connections_ (accept script s).1 !! id = Some c.
Proof.
  induction script as [|[|error] script IH]; intros s id c H.
  - cbn [accept fst]. now destruct s.
  - rewrite accept_cons_accepted.
    set (c0 := Build_coro_http_connection _ _ _ _ _ _ _ _).
    pose proof (accept_one_fields s c0) as Hf. cbv zeta in Hf.
    set (s1 := emit _ _) in *. destruct Hf as (_ & Hconn & _).
    apply IH. rewrite Hconn. now apply emplace_keeps.
  - cbn [accept]. destruct (is_acceptor_closed error).
    + cbn [fst]. now destruct s.
    + apply IH. now destruct s.
Qed.

Lemma accept_new_connection (script : list accept_result) :
  ∀ (s : coro_http_server) id c,
    connections_ s !! id = None →
    connections_ (accept script s).1 !! id = Some c →
    c = {| conn_executor :=
             if negb (out_ctx_ s) then pool_executor else out_executor;
           tcp_no_delay := no_delay_ s;
           shrink_to_fit := need_shrink_every_time_ s;
           check_timeout := need_check_ s;
           quit_callback := Some id;
           closed := false; wire := []; write_results := [] |}.
Proof.
  induction script as [|[|error] script IH]; intros s id c Hnone Hsome.
  - cbn [accept fst] in Hsome.
    assert (connections_ (with_accept_pending true s) = connections_ s) as E
      by now destruct s.
    rewrite E in Hsome. congruence.
  - rewrite accept_cons_accepted in Hsome.
    set (c0 := Build_coro_http_connection _ _ _ _ _ _ _ _) in Hsome.
    pose proof (accept_one_fields s c0) as Hf. cbv zeta in Hf.
    set (s1 := emit _ _) in *.
    destruct Hf as (_ & Hconn & Ho & _ & Hnd & Hnc & Hns & _).
    destruct (decide (uint64_incr (conn_id_ s) = id)) as [E | Hne].
    + assert (connections_ s1 !! id = Some c0) as H1.
      { rewrite Hconn, E. unfold emplace. rewrite Hnone.
        apply lookup_insert_eq. }
      pose proof (accept_keeps_entries script s1 id c0 H1) as H2.
      rewrite H2 in Hsome. injection Hsome as <-. subst c0. now rewrite E.
    + rewrite <- Ho, <- Hnd, <- Hnc, <- Hns. apply IH; [| assumption].
      rewrite Hconn, emplace_other; assumption.
  - cbn [accept] in Hsome. destruct (is_acceptor_closed error).
    + cbn [fst] in Hsome.
      assert (connections_
                (with_accept_pending false
                   (with_acceptor_close_waiter_ true
                      (emit (LogInfo "accept failed, error: ") s)))
              = connections_ s) as E by now destruct s.
      rewrite E in Hsome. congruence.
    + specialize (IH (emit (LogInfo "accept failed, error: ") s) id c).
      assert (emit_same : ∀ e,
        connections_ (emit e s) = connections_ s
        ∧ out_ctx_ (emit e s) = out_ctx_ s ∧ no_delay_ (emit e s) = no_delay_ s
        ∧ need_check_ (emit e s) = need_check_ s
        ∧ need_shrink_every_time_ (emit e s) = need_shrink_every_time_ s)
        by (intros; now destruct s).
      destruct (emit_same (LogInfo "accept failed, error: "))
        as (Ec & Eo & End & Enc & Ens).
      rewrite Ec, Eo, End, Enc, Ens in IH. now apply IH.
Qed.

(** X2: a connection the loop adds to the table carries the options the
    server had when the loop ran: [TCP_NODELAY] as [no_delay_], shrinking and
    the idle check as configured, the executor of the server's mode; its quit
    callback is bound to its own id, and it starts open with nothing
    written. *)
Theorem accept_applies_options (script : list accept_result)
    (s : coro_http_server) (id : N) (c : coro_http_connection) :
  connections_ s !! id = None →
  connections_ (accept script s).1 !! id = Some c →
  tcp_no_delay c = no_delay_ s
  ∧ shrink_to_fit c = need_shrink_every_time_ s
  ∧ check_timeout c = need_check_ s
  ∧ conn_executor c = (if out_ctx_ s then out_executor else pool_executor)
  ∧ quit_callback c = Some id
  ∧ closed c = false ∧ wire c = [].
Proof.
  intros Hnone Hsome.
  rewrite (accept_new_connection script s id c Hnone Hsome). cbn.
  destruct (out_ctx_ s); repeat split; reflexivity.
Qed.

(** ** The quit callback *)

Lemma with_connections_twice m m' (s : coro_http_server) :
  with_connections_ m (with_connections_ m' s) = with_connections_ m s.
Proof. now destruct s. Qed.

Lemma with_connections_same (s : coro_http_server) :
  with_connections_ (connections_ s) s = s.
Proof. now destruct s. Qed.

Lemma connections_with_connections_ m (s : coro_http_server) :
  connections_ (with_connections_ m s) = m.
Proof. now destruct s. Qed.

(** X3: the quit callback undoes the registration of its connection: after
    an accept, running the callback of the new connection gives back the
    table as it was before; running a callback twice is the same as once,
    and on an id that is not in the table it changes nothing. *)
Theorem quit_callback_undoes_accept (s : coro_http_server) :
  ids_handed_out s →
  (conn_id_ s + 1 < 2 ^ 64)%N →
  let s1 := (accept [Accepted] s).1 in
  connections_ (quit_callback_run (conn_id_ s1) s1) = connections_ s
  ∧ connection_count (quit_callback_run (conn_id_ s1) s1) = connection_count s
  ∧ (∀ id s0, quit_callback_run id (quit_callback_run id s0)
              = quit_callback_run id s0)
  ∧ (∀ id s0, connections_ s0 !! id = None → quit_callback_run id s0 = s0).
Proof.
  intros Hids Hbound s1.
  assert (Hquit : connections_ (quit_callback_run (conn_id_ s1) s1)
                  = connections_ s).
  { subst s1. rewrite accept_cons_accepted.
    set (c := Build_coro_http_connection _ _ _ _ _ _ _ _).
    pose proof (accept_one_fields s c) as Hf. cbv zeta in Hf.
    set (s2 := emit _ _) in *. destruct Hf as (Hid & Hconn & _).
    cbn [accept fst].
    assert (conn_id_ (with_accept_pending true s2) = conn_id_ s2
            ∧ connections_ (with_accept_pending true s2) = connections_ s2)
      as [Ei Ec] by now destruct s2.
    assert (Hincr : uint64_incr (conn_id_ s) = (conn_id_ s + 1)%N).
    { unfold uint64_incr. apply N.mod_small. lia. }
    assert (Hfresh : connections_ s !! (conn_id_ s + 1)%N = None).
    { destruct (connections_ s !! (conn_id_ s + 1)%N) eqn:E; [| reflexivity].
      specialize (Hids (conn_id_ s + 1)%N (ex_intro _ _ E)). lia. }
    rewrite Hincr in Hid, Hconn. rewrite (emplace_fresh _ _ _ Hfresh) in Hconn.
    unfold quit_callback_run. rewrite Ei, Ec, Hid, Hconn.
    destruct (decide (<[(conn_id_ s + 1)%N:=c]> (connections_ s) = ∅)) as [E|_].
    { now apply insert_non_empty in E. }
    rewrite connections_with_connections_.
    rewrite delete_insert_eq. now apply delete_id. }
  split; [exact Hquit |]. split; [unfold connection_count; now rewrite Hquit |].
  split.
  - intros id s0.
    destruct (decide (connections_ s0 = ∅)) as [E|E].
    + assert (quit_callback_run id s0 = s0) as Hq.
      { unfold quit_callback_run. now rewrite decide_True by assumption. }
      now rewrite !Hq.
    + assert (quit_callback_run id s0
              = with_connections_ (delete id (connections_ s0)) s0) as ->.
      { unfold quit_callback_run. now rewrite decide_False by assumption. }
      unfold quit_callback_run. rewrite connections_with_connections_.
      destruct (decide (delete id (connections_ s0) = ∅)); [reflexivity |].
      rewrite with_connections_twice. f_equal.
      apply delete_id. apply lookup_delete_eq.
  - intros id s0 H. unfold quit_callback_run.
    destruct (decide (connections_ s0 = ∅)); [reflexivity |].
    rewrite delete_id by assumption. apply with_connections_same.
Qed.

(** ** The idle check *)

Lemma sweep_step_idle lr now t (s : coro_http_server) (it : N * coro_http_connection) :
  idle lr now t it.1 →
  check_timeout_entry lr now t s it
  = with_connections_ (delete it.1 (connections_ s)) (emit (ConnClosed it.1) s).
Proof.
  unfold idle, check_timeout_entry. intros H.
  destruct (Z.ltb_spec t (now - lr it.1)); [| lia].
  now destruct s.
Qed.

Lemma sweep_step_active lr now t (s : coro_http_server) (it : N * coro_http_connection) :
  ¬ idle lr now t it.1 →
  check_timeout_entry lr now t s it = s.
Proof.
  unfold idle, check_timeout_entry. intros H.
  now destruct (Z.ltb_spec t (now - lr it.1)).
Qed.

Lemma sweep_fold lr now t (l : list (N * coro_http_connection)) :
  ∀ s : coro_http_server,
    let s' :=
      foldl (check_timeout_entry lr now t) s l in
    (∀ id, connections_ s' !! id =
           if decide (id ∈ l.*1 ∧ idle lr now t id) then None
           else connections_ s !! id)
    ∧ effects s' = effects s ++ (ConnClosed <$> filter (idle lr now t) l.*1).
Proof.
  induction l as [|[k c] l IH]; intros s; cbv zeta; cbn [foldl].
  - split; [| cbn; now rewrite app_nil_r].
    intros id. rewrite decide_False; [reflexivity |].
    intros [H _]. cbn in H. now apply elem_of_nil in H.
  - destruct (decide (idle lr now t k)) as [Hk | Hk].
    + rewrite (sweep_step_idle lr now t s (k, c) Hk). cbn [fst].
      specialize (IH (with_connections_ (delete k (connections_ s))
                        (emit (ConnClosed k) s))).
      cbv zeta in IH. destruct IH as [IHc IHe].
      assert (connections_ (with_connections_ (delete k (connections_ s))
                              (emit (ConnClosed k) s))
              = delete k (connections_ s)
              ∧ effects (with_connections_ (delete k (connections_ s))
                           (emit (ConnClosed k) s))
                = effects s ++ [ConnClosed k]) as [Ec Ee] by now destruct s.
      rewrite Ec in IHc. rewrite Ee in IHe. split.
      * intros id. rewrite IHc. cbn [fmap list_fmap fst].
        destruct (decide (id = k)) as [-> | Hne].
        -- rewrite lookup_delete_eq.
           rewrite (decide_True (P := k ∈ k :: l.*1 ∧ _));
             [now destruct (decide _) |].
           split; [left | assumption].
        -- rewrite lookup_delete_ne by congruence.
           destruct (decide (id ∈ l.*1 ∧ idle lr now t id)) as [[H1 H2] | H].
           ++ rewrite decide_True; [reflexivity |]. split; [now right | assumption].
           ++ rewrite decide_False; [reflexivity |].
              intros [H1 H2]. apply H. split; [| assumption].
              apply elem_of_cons in H1. destruct H1; [congruence | assumption].
      * rewrite IHe. cbn [fmap list_fmap fst].
        rewrite filter_cons_True by assumption.
        rewrite fmap_cons, <- app_assoc. reflexivity.
    + rewrite (sweep_step_active lr now t s (k, c) Hk).
      specialize (IH s). cbv zeta in IH. destruct IH as [IHc IHe]. split.
      * intros id. rewrite IHc. cbn [fmap list_fmap fst].
        destruct (decide (id ∈ l.*1 ∧ idle lr now t id)) as [[H1 H2] | H].
        -- rewrite decide_True; [reflexivity |]. split; [now right | assumption].
        -- rewrite decide_False; [reflexivity |].
           intros [H1 H2]. apply H. split; [| assumption].
           apply elem_of_cons in H1. destruct H1; [congruence | assumption].
      * rewrite IHe. cbn [fmap list_fmap fst].
        now rewrite filter_cons_False by assumption.
Qed.

Lemma sweep_fold_all_active lr now t (l : list (N * coro_http_connection)) :
  ∀ s : coro_http_server,
    Forall (λ it, ¬ idle lr now t it.1) l →
    foldl (check_timeout_entry lr now t) s l = s.
Proof.
  induction l as [|it l IH]; intros s H; [reflexivity |].
  apply Forall_cons in H. destruct H as [H1 H2]. cbn [foldl].
  rewrite (sweep_step_active lr now t s it H1). now apply IH.
Qed.

Lemma elem_of_map_to_list_fst (m : gmap N coro_http_connection) (id : N) :
  id ∈ (map_to_list m).*1 ↔ is_Some (m !! id).
Proof.
  rewrite list_elem_of_fmap. split.
  - intros ([k c] & -> & H). apply elem_of_map_to_list in H. now exists c.
  - intros [c H]. exists (id, c). split; [reflexivity |].
    now apply elem_of_map_to_list.
Qed.

(** X4: the idle check removes from the table exactly the connections that
    have been idle for longer than the timeout and tells each of them, and no
    other, to close; the others stay as they are, the table never grows, and
    a second check at the same time changes nothing. *)
Theorem check_timeout_closes_exactly_the_idle
    (get_last_rwtime : N → Z) (cur_time timeout_duration : Z)
    (s : coro_http_server) :
  let is_idle := idle get_last_rwtime cur_time timeout_duration in
  let s' := server_check_timeout get_last_rwtime cur_time timeout_duration s in
  (∀ id, connections_ s' !! id =
         if decide (is_idle id) then None else connections_ s !! id)
  ∧ (∀ id, ConnClosed id ∈ effects s' ↔
           ConnClosed id ∈ effects s
           ∨ (is_Some (connections_ s !! id) ∧ is_idle id))
  ∧ (connection_count s' ≤ connection_count s)%nat
  ∧ server_check_timeout get_last_rwtime cur_time timeout_duration s' = s'.
Proof.
  intros is_idle s'.
  pose proof (sweep_fold get_last_rwtime cur_time timeout_duration
                (map_to_list (connections_ s)) s) as Hf.
  cbv zeta in Hf. fold (server_check_timeout get_last_rwtime cur_time
                          timeout_duration s) in Hf.
  fold s' in Hf. destruct Hf as [Hc He].
  assert (Hlookup : ∀ id, connections_ s' !! id =
            if decide (is_idle id) then None else connections_ s !! id).
  { intros id. rewrite Hc. subst is_idle.
    destruct (decide (idle get_last_rwtime cur_time timeout_duration id))
      as [Hi | Hi].
    - destruct (decide (_ ∧ _)) as [_ | Hn]; [reflexivity |].
      destruct (connections_ s !! id) eqn:E; [| reflexivity].
      exfalso. apply Hn. split; [| assumption].
      apply elem_of_map_to_list_fst. eauto.
    - rewrite decide_False; [reflexivity |]. now intros [_ H]. }
  split; [exact Hlookup |]. split.
  { intros id. rewrite He, elem_of_app, list_elem_of_fmap. split.
    - intros [H | (k & [= <-] & H)]; [now left | right].
      apply list_elem_of_filter in H. destruct H as [Hi Hin].
      split; [now apply elem_of_map_to_list_fst | exact Hi].
    - intros [H | [Hin Hi]]; [now left | right].
      exists id. split; [reflexivity |]. apply list_elem_of_filter.
      split; [exact Hi | now apply elem_of_map_to_list_fst]. }
  split.
  { unfold connection_count. apply map_subseteq_size.
    apply map_subseteq_spec. intros id c H. rewrite Hlookup in H.
    now destruct (decide (is_idle id)). }
  unfold server_check_timeout at 1. apply sweep_fold_all_active.
  apply Forall_forall. intros [k c] H. apply elem_of_map_to_list in H.
  cbn [fst]. intros Hi. rewrite Hlookup in H.
  now rewrite decide_True in H by assumption.
Qed.

(** X5: a timeout that is not positive leaves the server as it is (no idle
    check); a positive one is stored, arms the timer and switches the check
    on for every connection accepted afterwards. *)
Theorem set_timeout_duration_enables_idle_check
    (timeout_duration : Z) (m : server_members) :
  (timeout_duration ≤ 0 → set_timeout_duration timeout_duration m = m)
  ∧ (0 < timeout_duration →
     let m' := set_timeout_duration timeout_duration m in
     timeout_duration_ m'.2 = timeout_duration
     ∧ check_timer_ m'.2 = true
     ∧ connections_ m'.1 = connections_ m.1
     ∧ ∀ script id c,
         connections_ m'.1 !! id = None →
         connections_ (accept script m'.1).1 !! id = Some c →
         check_timeout c = true).
Proof.
  destruct m as [s o]. unfold set_timeout_duration. cbn [fst snd]. split.
  - intros H. destruct (Z.ltb_spec 0 timeout_duration); [lia | reflexivity].
  - intros H. destruct (Z.ltb_spec 0 timeout_duration); [| lia].
    cbn. split; [reflexivity |]. split; [reflexivity |].
    split; [now destruct s |].
    intros script id c Hnone Hsome.
    rewrite (accept_new_connection script _ id c Hnone Hsome). cbn.
    now destruct s.
Qed.

(** ** [stop], once more *)

Lemma close_all_record (l : list (N * coro_http_connection)) :
  ∀ a b c d e f g h i j k l0 m n o p q r t,
    foldl (λ s (c : N * coro_http_connection), emit (ConnClosed c.1) s)
      (Build_coro_http_server a b c d e f g h i j k l0 m n o p q r t) l
    = Build_coro_http_server a b c d e f g h i j k l0 m n o p q r
        (t ++ (ConnClosed <$> l.*1)).
Proof.
  induction l as [|[id x] l IH]; intros; cbn [foldl].
  - cbn. now rewrite app_nil_r.
  - cbn [emit fst]. rewrite IH. cbn. now rewrite <- app_assoc.
Qed.

(** What a call of [stop] that does the work leaves behind. *)
Lemma stop_work (s s1 : coro_http_server) :
  stop s = Some s1 →
  out_ctx_ s = true ∨ thd_ s = true →
  stop_timer_ s1 = true
  ∧ router_ s1 = router_ s ∧ static_file_cache_ s1 = static_file_cache_ s
  ∧ files_ s1 = files_ s ∧ conn_id_ s1 = conn_id_ s
  ∧ ∃ closing finish,
      effects s1 =
        effects s ++ closing
          ++ (ConnClosed <$> (map_to_list (connections_ s)).*1) ++ finish
      ∧ TimerCancelled ∈ closing ∧ AcceptorCancelClose ∈ closing
      ∧ (PoolStopped ∉ closing) ∧ (ThreadJoined ∉ closing)
      ∧ (out_ctx_ s = true → finish = [])
      ∧ (out_ctx_ s = false → PoolStopped ∈ finish ∧ ThreadJoined ∈ finish).
Proof.
  destruct s as [o t a p w nd ci conns nc st rp sd fs cs cache ft rt ns ef].
  unfold stop, close_acceptor. cbn [out_ctx_ thd_].
  intros Hstop Hstarted.
  destruct o, t; cbn in Hstarted; try (destruct Hstarted; discriminate);
    cbn in Hstop; destruct p; cbn in Hstop;
    try (destruct w; [| discriminate]); cbn in Hstop;
    rewrite close_all_record in Hstop; cbn in Hstop;
    injection Hstop as <-; cbn;
    (split; [reflexivity |]); (split; [reflexivity |]);
    (split; [reflexivity |]); (split; [reflexivity |]);
    (split; [reflexivity |]).
  all: first
    [ stop_effects [TimerCancelled; AcceptorCancelClose;
                    LogInfo "accept failed, error: "] (@nil effect)
    | stop_effects [TimerCancelled; AcceptorCancelClose] (@nil effect)
    | stop_effects [TimerCancelled; AcceptorCancelClose;
                    LogInfo "accept failed, error: "]
        [LogInfo "wait for server's thread-pool finish all work.";
         PoolStopped; LogInfo "server's thread-pool finished."; ThreadJoined;
         LogInfo "stop coro_http_server ok"]
    | stop_effects [TimerCancelled; AcceptorCancelClose]
        [LogInfo "wait for server's thread-pool finish all work.";
         PoolStopped; LogInfo "server's thread-pool finished."; ThreadJoined;
         LogInfo "stop coro_http_server ok"] ].
Qed.

(** X6: a call of [stop] on a server that was started tells every connection
    of the table to close, cancels the timer and closes the acceptor; with a
    pool of its own it then stops the pool and joins the thread, with a
    borrowed context it does neither.  Routes, cache and the id counter are
    not touched. *)
Theorem stop_closes_every_connection (s s1 : coro_http_server) :
  stop s = Some s1 →
  out_ctx_ s = true ∨ thd_ s = true →
  (∀ id, is_Some (connections_ s !! id) → ConnClosed id ∈ effects s1)
  ∧ TimerCancelled ∈ effects s1 ∧ AcceptorCancelClose ∈ effects s1
  ∧ (out_ctx_ s = false → PoolStopped ∈ effects s1 ∧ ThreadJoined ∈ effects s1)
  ∧ (out_ctx_ s = true →
     (PoolStopped ∉ effects s) → (ThreadJoined ∉ effects s) →
     (PoolStopped ∉ effects s1) ∧ (ThreadJoined ∉ effects s1))
  ∧ router_ s1 = router_ s ∧ static_file_cache_ s1 = static_file_cache_ s
  ∧ conn_id_ s1 = conn_id_ s.
Proof.
  intros Hstop Hstarted.
  destruct (stop_work s s1 Hstop Hstarted)
    as (_ & Hr & Hc & _ & Hi & closing & finish & He & Ht & Ha & Hnp & Hnj
        & Hb & Hp).
  split.
  { intros id Hid. rewrite He, !elem_of_app. right. right. left.
    apply list_elem_of_fmap. exists id. split; [reflexivity |].
    apply elem_of_map_to_list_fst. exact Hid. }
  split; [rewrite He, !elem_of_app; tauto |].
  split; [rewrite He, !elem_of_app; tauto |].
  split.
  { intros Ho. destruct (Hp Ho). rewrite He, !elem_of_app. tauto. }
  split; [| repeat split; assumption].
  intros Ho Hn1 Hn2. rewrite (Hb Ho), app_nil_r in He.
  rewrite He, !not_elem_of_app. repeat split; try assumption.
  - intros H. apply list_elem_of_fmap in H. now destruct H as (? & [=] & _).
  - intros H. apply list_elem_of_fmap in H. now destruct H as (? & [=] & _).
Qed.

(** X7: once [stop] has done its work the idle check is over: whenever the
    timer's wait completes afterwards, with or without an error, no
    connection is looked at and the timer is not armed again.  On a server
    that has not been stopped a wait that ends without error runs the check
    and arms the timer again. *)
Theorem no_idle_check_after_stop (s s1 : coro_http_server)
    (get_last_rwtime : N → Z) (ec : bool) (cur_time : Z) (o : timer_members) :
  stop s = Some s1 →
  out_ctx_ s = true ∨ thd_ s = true →
  (on_check_timer get_last_rwtime ec cur_time (s1, o)).1 = s1
  ∧ check_timer_ (on_check_timer get_last_rwtime ec cur_time (s1, o)).2 = false
  ∧ (stop_timer_ s = false →
     on_check_timer get_last_rwtime false cur_time (s, o) =
       start_check_timer
         (server_check_timeout get_last_rwtime cur_time (timeout_duration_ o) s,
          o)
     ∧ (on_check_timer get_last_rwtime true cur_time (s, o)).1 = s).
Proof.
  intros Hstop Hstarted.
  destruct (stop_work s s1 Hstop Hstarted) as (Hst & _).
  unfold on_check_timer. cbn [fst snd]. rewrite Hst, orb_true_r.
  split; [reflexivity |]. split; [reflexivity |].
  intros ->. cbn. split; reflexivity.
Qed.

(** ** Starting *)

(** While it runs, the acceptor loop is suspended in an accept; when it has
    returned, it has returned [operation_canceled] and given the one-shot its
    value. *)
Lemma accept_pending_or_signalled (script : list accept_result) :
  ∀ s : coro_http_server,
    ((accept script s).2 = None ∧ accept_pending (accept script s).1 = true)
    ∨ ((accept script s).2 = Some operation_canceled
       ∧ acceptor_close_waiter_ (accept script s).1 = true).
Proof.
  induction script as [|[|error] script IH]; intros s.
  - left. cbn [accept fst snd]. split; [reflexivity | now destruct s].
  - rewrite accept_cons_accepted. apply IH.
  - cbn [accept]. destruct (is_acceptor_closed error); [| apply IH].
    right. cbn [fst snd]. split; [reflexivity | now destruct s].
Qed.

(** X8: when the port cannot be bound, [async_start] resolves to
    [address_in_use] at once: the acceptor is closed again, no thread is
    started and no accept is ever issued, so the table, the port and the
    routes are as before; a server with a pool of its own can then be
    stopped, which does nothing. *)
Theorem start_on_a_busy_port (script : list accept_result) (throws : bool)
    (m : server_members) :
  let result := async_start BindFailed script throws m in
  result.2 = Some address_in_use
  ∧ acceptor_ result.1.1 = false
  ∧ thd_ result.1.1 = thd_ m.1
  ∧ accept_pending result.1.1 = accept_pending m.1
  ∧ connections_ result.1.1 = connections_ m.1
  ∧ router_ result.1.1 = router_ m.1
  ∧ port result.1 = port m
  ∧ (out_ctx_ m.1 = false → thd_ m.1 = false →
     stop result.1.1 = Some result.1.1).
Proof.
  destruct m as [s o]. destruct s. cbn.
  repeat split; try reflexivity. intros -> ->. reflexivity.
Qed.

(** The state in which [async_start] runs the acceptor loop. *)
Lemma async_start_listening (assigned_port : N)
    (script : list accept_result) (throws : bool) (s : coro_http_server)
    (o : timer_members) :
  let s0 :=
    (if negb (out_ctx_ s) then with_thd_ true else id)
      (emit (LogInfo "listen port ")
         (with_acceptor_ true (emit (LogInfo "begin to listen") s))) in
  let o' :=
    {| port_ := assigned_port; check_duration_ := check_duration_ o;
       timeout_duration_ := timeout_duration_ o;
       check_timer_ := check_timer_ o |} in
  async_start (Listening assigned_port) script throws (s, o) =
    match (accept script s0).2 with
    | Some ec => (((accept script s0).1, o'), Some ec)
    | None =>
        if throws then
          ((emit (LogDebug "new connection comming, id: ")
              (with_conn_id_ (uint64_incr (conn_id_ (accept script s0).1))
                 (with_accept_pending false (accept script s0).1)), o'),
           Some io_error)
        else (((accept script s0).1, o'), None)
    end.
Proof.
  unfold async_start, listen. cbn [fst snd].
  destruct s as [[|]]; cbn [out_ctx_ negb emit with_acceptor_ id];
    destruct (accept script _) as [s' [ec|]]; destruct throws; cbn;
    try reflexivity; destruct s'; reflexivity.
Qed.

(** A started server whose acceptor loop has run through [script] can be
    stopped. *)
Lemma started_server_stops (script : list accept_result)
    (s0 : coro_http_server) :
  (out_ctx_ s0 = true ∧ thd_ s0 = false)
  ∨ (out_ctx_ s0 = false ∧ thd_ s0 = true) →
  let s1 := (accept script s0).1 in
  server_invariant s1
  ∧ ∃ s2, stop s1 = Some s2
          ∧ connections_ s2 = ∅ ∧ acceptor_ s2 = false
          ∧ ∀ id, is_Some (connections_ s1 !! id) → ConnClosed id ∈ effects s2.
Proof.
  intros Hs0. cbv zeta.
  pose proof (accept_fields script s0) as Hf. cbv zeta in Hf.
  destruct Hf as (Ho & Ht & _).
  pose proof (accept_pending_or_signalled script s0) as Hloop.
  set (s1 := (accept script s0).1) in *.
  assert (Hinv : server_invariant s1).
  { split.
    - intros H. rewrite Ho in H. rewrite Ht.
      destruct Hs0 as [[_ ?] | [? _]]; congruence.
    - intros H1 H2. rewrite Ho in H1. rewrite Ht in H2.
      destruct Hs0 as [[? _] | [_ ?]]; congruence. }
  split; [exact Hinv |].
  assert (Hstarted : out_ctx_ s1 = true ∨ thd_ s1 = true).
  { rewrite Ho, Ht. destruct Hs0 as [[? _] | [_ ?]]; [now left | now right]. }
  destruct (stop_completes s1) as [s2 Hstop].
  { destruct Hloop as [[_ H] | [_ H]]; [now right | now left]. }
  exists s2. split; [exact Hstop |].
  destruct (stop_result s1 s2 (proj1 Hinv) Hstop)
    as [(H1 & H2 & _) | (_ & _ & Hc & Ha)].
  { destruct Hstarted; congruence. }
  split; [exact Hc |]. split; [exact Ha |].
  destruct (stop_work s1 s2 Hstop Hstarted)
    as (_ & _ & _ & _ & _ & closing & finish & He & _).
  intros id Hid. rewrite He, !elem_of_app. right. right. left.
  apply list_elem_of_fmap. exists id. split; [reflexivity |].
  now apply elem_of_map_to_list_fst.
Qed.

(** X9: after [listen] has succeeded the port is the one the system
    assigned, and the future of [async_start] is unresolved, or
    [operation_canceled], or, when an exception has left the acceptor loop,
    [io_error].  Unless it is [io_error], a server with a pool of its own
    (whose thread runs what [close_acceptor] dispatches) can be stopped
    whatever accepts have completed: [stop] returns, having closed every
    connection, with an empty table and a closed acceptor. *)
Theorem start_then_stop_returns (assigned_port : N)
    (script : list accept_result) (throws : bool) (m : server_members) :
  let result := async_start (Listening assigned_port) script throws m in
  port result.1 = assigned_port
  ∧ (result.2 = None ∨ result.2 = Some operation_canceled
     ∨ (throws = true ∧ result.2 = Some io_error))
  ∧ (result.2 ≠ Some io_error → out_ctx_ m.1 = false →
     server_invariant result.1.1
     ∧ ∃ s2, stop result.1.1 = Some s2
             ∧ connections_ s2 = ∅ ∧ acceptor_ s2 = false
             ∧ ∀ id, is_Some (connections_ result.1.1 !! id) →
                     ConnClosed id ∈ effects s2).
Proof.
  destruct m as [s o]. cbn [fst snd]. cbv zeta.
  rewrite async_start_listening. cbv zeta.
  set (s0 := (if negb (out_ctx_ s) then with_thd_ true else id) _).
  assert (Hs0 : out_ctx_ s = false →
                (out_ctx_ s0 = true ∧ thd_ s0 = false)
                ∨ (out_ctx_ s0 = false ∧ thd_ s0 = true)).
  { intros Ho. right. subst s0. destruct s as [[|] t]; [discriminate |].
    split; reflexivity. }
  pose proof (λ Ho, started_server_stops script s0 (Hs0 Ho)) as Hstop.
  cbv zeta in Hstop.
  destruct (accept_pending_or_signalled script s0) as [[Hres _] | [Hres _]];
    rewrite Hres.
  - destruct throws; cbn [fst snd].
    + split; [reflexivity |]. split; [right; right; now split |]. congruence.
    + split; [reflexivity |]. split; [now left |]. intros _. exact Hstop.
  - cbn [fst snd]. split; [reflexivity |].
    split; [right; now left |]. intros _. exact Hstop.
Qed.

(** X23: when an exception leaves the acceptor loop (no accept having
    reported that the acceptor is closed), the future of [async_start]
    resolves to [io_error] and the loop is over with the acceptor open and
    the one-shot unset; the connections accepted before stay in the table;
    and a later call of [stop] never returns, because nobody is left to give
    the one-shot its value. *)
Theorem accept_loop_exception_blocks_stop (assigned_port : N)
    (script : list accept_result) (m : server_members) :
  acceptor_close_waiter_ m.1 = false →
  Forall (λ r, ∀ error, r = AcceptFailed error →
                        is_acceptor_closed error = false) script →
  let result := async_start (Listening assigned_port) script true m in
  result.2 = Some io_error
  ∧ acceptor_ result.1.1 = true
  ∧ accept_pending result.1.1 = false
  ∧ acceptor_close_waiter_ result.1.1 = false
  ∧ (∀ id c, connections_ m.1 !! id = Some c →
             connections_ result.1.1 !! id = Some c)
  ∧ stop result.1.1 = None.
Proof.
  destruct m as [s o]. cbn [fst snd]. intros Hwait Hscript. cbv zeta.
  rewrite async_start_listening. cbv zeta.
  set (s0 := (if negb (out_ctx_ s) then with_thd_ true else id) _).
  assert (Hs0 : acceptor_ s0 = true ∧ acceptor_close_waiter_ s0 = false
                ∧ connections_ s0 = connections_ s
                ∧ (out_ctx_ s0 = true ∨ thd_ s0 = true)).
  { subst s0. destruct s as [[|]]; cbn in *; repeat split;
      try assumption; [now left | now right]. }
  destruct Hs0 as (Ha0 & Hw0 & Hc0 & Hstarted0).
  assert (Hloop : ∀ s, acceptor_close_waiter_ s = false →
            (accept script s).2 = None
            ∧ acceptor_close_waiter_ (accept script s).1 = false).
  { clear -Hscript. induction Hscript as [|r script Hr _ IH]; intros s Hw.
    - cbn [accept fst snd]. split; [reflexivity | now destruct s].
    - destruct r as [|error].
      + rewrite accept_cons_accepted. apply IH. now destruct s.
      + cbn [accept]. rewrite (Hr error eq_refl). apply IH. now destruct s. }
  destruct (Hloop s0 Hw0) as [Hres Hw1]. rewrite Hres. cbn [fst snd].
  pose proof (accept_fields script s0) as Hf. cbv zeta in Hf.
  destruct Hf as (Ho & Ht & _ & _ & _ & Hacc & _).
  pose proof (accept_keeps_entries script s0) as Hkeep.
  set (s1 := (accept script s0).1) in *.
  split; [reflexivity |].
  assert (∀ x : coro_http_server,
            let x' :=
              emit (LogDebug "new connection comming, id: ")
                (with_conn_id_ (uint64_incr (conn_id_ x))
                   (with_accept_pending false x)) in
            acceptor_ x' = acceptor_ x ∧ accept_pending x' = false
            ∧ acceptor_close_waiter_ x' = acceptor_close_waiter_ x
            ∧ connections_ x' = connections_ x
            ∧ out_ctx_ x' = out_ctx_ x ∧ thd_ x' = thd_ x) as Hx
    by (intros x; destruct x; cbn; repeat split).
  destruct (Hx s1) as (E1 & E2 & E3 & E4 & E5 & E6). clear Hx.
  set (s2 := emit (LogDebug "new connection comming, id: ")
               (with_conn_id_ _ (with_accept_pending false s1))) in *.
  split; [now rewrite E1, Hacc |]. split; [exact E2 |].
  split; [now rewrite E3 |].
  split; [intros id c Hc; rewrite E4; apply Hkeep; now rewrite Hc0 |].
  unfold stop.
  assert (negb (out_ctx_ s2) && negb (thd_ s2) = false) as ->.
  { rewrite E5, E6, Ho, Ht. destruct Hstarted0 as [-> | ->];
      [reflexivity | apply andb_false_r]. }
  unfold close_acceptor.
  assert (∀ x : coro_http_server,
            let x' :=
              emit AcceptorCancelClose
                (with_acceptor_ false
                   (emit TimerCancelled (with_stop_timer_ true x))) in
            accept_pending x' = accept_pending x
            ∧ acceptor_close_waiter_ x' = acceptor_close_waiter_ x) as Hy
    by (intros x; destruct x; cbn; repeat split).
  destruct (Hy s2) as [F1 F2]. cbv zeta.
  rewrite F1, E2, F2, E3, Hw1. reflexivity.
Qed.

(** X10: when [local_endpoint] fails after a successful [bind], [async_start]
    also resolves to [address_in_use], but on this path the acceptor is left
    open and no thread is started; on a server with a pool of its own
    [stop] then returns at once and the acceptor stays open. *)
Theorem start_local_endpoint_failure_leaves_acceptor_open
    (script : list accept_result) (throws : bool) (m : server_members) :
  let result := async_start LocalEndpointFailed script throws m in
  result.2 = Some address_in_use
  ∧ acceptor_ result.1.1 = true
  ∧ connections_ result.1.1 = connections_ m.1
  ∧ (out_ctx_ m.1 = false → thd_ m.1 = false →
     stop result.1.1 = Some result.1.1).
Proof.
  destruct m as [s o]. destruct s. cbn.
  repeat split; try reflexivity. intros -> ->. reflexivity.
Qed.

(** ** Proxy routes *)

Lemma set_http_handler_fold (url_path : string) (methods : list http_method) :
  ∀ s : coro_http_server,
    router_ (foldl (λ s m, set_http_handler m url_path (proxy_route url_path) s)
               s methods)
    = router_ s ++ ((λ m, (m, url_path, proxy_route url_path)) <$> methods).
Proof.
  induction methods as [|m methods IH]; intros s; cbn [foldl].
  - cbn. now rewrite app_nil_r.
  - rewrite IH. cbn. unfold set_http_handler.
    assert (∀ r, router_ (with_router_ r s) = r) as E by (intros; now destruct s).
    rewrite E, <- app_assoc. reflexivity.
Qed.

(** X11: [set_http_proxy_handler] throws when no host is given; otherwise
    it keeps the routes there are and adds, for the path, one route per
    method listed, in order, and nothing else; when no method is listed that
    is a route for each of the nine methods. *)
Theorem set_http_proxy_handler_routes (methods : list http_method)
    (url_path : string) (hosts : list string) (s : coro_http_server) :
  (hosts = [] → set_http_proxy_handler methods url_path hosts s = None)
  ∧ (hosts ≠ [] →
     ∃ s', set_http_proxy_handler methods url_path hosts s = Some s'
           ∧ router_ s' =
               router_ s ++
               ((λ m, (m, url_path, proxy_route url_path)) <$>
                  (match methods with [] => all_methods | _ :: _ => methods end))
           ∧ (methods = [] →
              ∀ m : http_method,
                (m, url_path, proxy_route url_path) ∈ router_ s')).
Proof.
  split; [now intros -> |].
  intros Hne. destruct hosts as [|h hosts]; [congruence |].
  eexists. split; [reflexivity |].
  rewrite set_http_handler_fold. split; [reflexivity |].
  intros -> m. rewrite elem_of_app. right.
  apply list_elem_of_fmap. exists m. split; [reflexivity |].
  destruct m; unfold all_methods; list_member.
Qed.

(** ** The cache of static files *)

Lemma cache_fill_exact (max_size : N) (l : list (string * fs_node)) :
  NoDup l.*1 →
  ∀ (cache : gmap string string) (k v : string),
    foldl
      (λ (cache : gmap string string) (file : string * fs_node),
         match snd file with
         | Directory => cache
         | RegularFile data readable =>
             let filesize := strlen data in
             if (max_size <? filesize)%N then cache
             else if readable then
               let content := data in emplace (fst file) content cache
             else cache
         end) cache l !! k = Some v
    ↔ cache !! k = Some v
      ∨ (cache !! k = None ∧ (k, RegularFile v true) ∈ l
         ∧ (strlen v ≤ max_size)%N).
Proof.
  induction l as [|[p n] l IH]; intros Hnd cache k v; cbn [foldl].
  - split; [now left |]. intros [H | (_ & H & _)]; [assumption |].
    now apply elem_of_nil in H.
  - cbn [fmap list_fmap fst] in Hnd. apply NoDup_cons in Hnd.
    destruct Hnd as [Hp Hnd]. rewrite (IH Hnd). clear IH. cbn [fst snd].
    assert (Hskip : ∀ skipped : Prop,
      (k = p → n = RegularFile v true → (strlen v ≤ max_size)%N →
       cache !! k = None → skipped → False) →
      skipped →
      cache !! k = Some v
      ∨ (cache !! k = None ∧ (k, RegularFile v true) ∈ l
         ∧ (strlen v ≤ max_size)%N)
      ↔ cache !! k = Some v
        ∨ (cache !! k = None ∧ (k, RegularFile v true) ∈ (p, n) :: l
           ∧ (strlen v ≤ max_size)%N)).
    { intros skipped Habs Hs. split.
      - intros [H | (H1 & H2 & H3)]; [now left | right].
        repeat split; try assumption. now right.
      - intros [H | (H1 & H2 & H3)]; [now left | right].
        repeat split; try assumption.
        apply elem_of_cons in H2. destruct H2 as [[= Hk Hn] | H2];
          [| assumption].
        exfalso. exact (Habs Hk (eq_sym Hn) H3 H1 Hs). }
    destruct n as [|data readable].
    { apply (Hskip True); [intros _ [=] | exact I]. }
    cbv zeta. destruct (N.ltb_spec max_size (strlen data)) as [Hbig | Hfit].
    { apply (Hskip (max_size < strlen data)%N); [| assumption].
      intros _ [= -> _] H1 _ H2. lia. }
    destruct readable.
    2: { apply (Hskip True); [intros _ [=] | exact I]. }
    unfold emplace. destruct (cache !! p) eqn:Ecp.
    { apply (Hskip (is_Some (cache !! p))); [| eauto].
      intros -> _ _ Hnone _. congruence. }
    destruct (decide (k = p)) as [-> | Hne].
    + rewrite lookup_insert_eq, Ecp. split.
      * intros [[= ->] | ([=] & _)]. right.
        repeat split; [left | assumption].
      * intros [[=] | (_ & H2 & _)]. left.
        apply elem_of_cons in H2. destruct H2 as [[= ->] | H2];
          [reflexivity |].
        exfalso. apply Hp. apply list_elem_of_fmap.
        now exists (p, RegularFile v true).
    + rewrite lookup_insert_ne by congruence. split.
      * intros [H | (H1 & H2 & H3)]; [now left | right].
        repeat split; try assumption. now right.
      * intros [H | (H1 & H2 & H3)]; [now left | right].
        repeat split; try assumption.
        apply elem_of_cons in H2. destruct H2 as [[= -> _] | H2];
          [congruence | assumption].
Qed.

Lemma substring_cover (s : string) (m n : nat) :
  s = substring 0 m s +:+ substring m n s
        +:+ substring (m + n) (String.length s - (m + n)) s.
Proof.
  rewrite <- (substring_split s m n), <- (substring_split s 0 m).
  rewrite substring_clip by lia.
  now rewrite Nat.sub_0_r, substring_full.
Qed.

Lemma prefix_append (dir rel : string) : String.prefix dir (dir +:+ rel) = true.
Proof. apply prefix_correct, substring_0_append. Qed.

Lemma substr_append (dir rel : string) :
  substr (String.length dir) (dir +:+ rel) = rel.
Proof.
  unfold substr. rewrite length_append.
  replace (String.length dir + String.length rel - String.length dir)%nat
    with (String.length rel) by lia.
  rewrite <- (append_nil_r rel) at 2. apply substring_append_mid.
Qed.

Lemma append_same (dir rel : string) : dir +:+ rel = dir → rel = "".
Proof.
  intros H. apply (f_equal String.length) in H. rewrite length_append in H.
  destruct rel; [reflexivity |]. cbn [String.length] in H. lia.
Qed.

Lemma prefix_exists (p s : string) :
  String.prefix p s = true ↔ ∃ rel, s = p +:+ rel.
Proof.
  split.
  - intros H. apply prefix_correct in H.
    pose proof (substring_cover s 0 (String.length p)) as C.
    rewrite H, substring_zero, append_nil_l in C. eauto.
  - intros [rel ->]. apply prefix_append.
Qed.

Lemma recursive_directory_iterator_spec (disk : filesystem) (dir path : string)
    (n : fs_node) :
  (path, n) ∈ recursive_directory_iterator disk dir
  ↔ disk !! path = Some n ∧ below disk dir path.
Proof.
  unfold recursive_directory_iterator, below.
  destruct dir as [|c dir]; cbn [empty_str].
  { split; [intros H; now apply elem_of_nil in H | intros (_ & H & _); done]. }
  set (d := String c dir).
  assert (d ≠ "") as Hd by done.
  destruct (is_directory_path disk d);
    [| split; [intros H; now apply elem_of_nil in H
              | intros (_ & _ & [=] & _)]].
  rewrite list_elem_of_filter, elem_of_map_to_list. cbn [fst].
  rewrite andb_True, negb_True. split.
  - intros [[H1 H2] H3]. split; [assumption |].
    split; [assumption |]. split; [reflexivity |].
    apply Is_true_true, prefix_exists in H1. destruct H1 as [rel ->].
    exists rel. split; [| reflexivity]. intros ->.
    apply H2. apply Is_true_true. rewrite append_nil_r.
    apply String.eqb_refl.
  - intros (H1 & _ & _ & rel & Hrel & ->). split; [| assumption].
    split; [apply Is_true_true, prefix_append |].
    intros H. apply Is_true_true, String.eqb_eq in H.
    apply Hrel. now apply append_same in H.
Qed.

Lemma recursive_directory_iterator_NoDup (disk : filesystem) (dir : string) :
  NoDup (recursive_directory_iterator disk dir).*1.
Proof.
  unfold recursive_directory_iterator.
  destruct (empty_str dir); [constructor |].
  destruct (is_directory_path disk dir); [| constructor].
  apply (sublist_NoDup _ (map_to_list disk).*1).
  - apply NoDup_fst_map_to_list.
  - apply fmap_sublist, sublist_filter.
Qed.

(** X12: after [set_max_size_of_cache_files] the cache holds what it held
    before, unchanged, and in addition exactly the readable regular files
    inside the static directory whose size is at most the bound, each with
    its content; directories, larger files and files that cannot be opened
    are not cached, and nothing is when [static_dir_] is empty or is not a
    directory of the disk. *)
Theorem cache_holds_exactly_the_small_files (disk : filesystem)
    (max_size : N) (s : coro_http_server) (path content : string) :
  let s' := set_max_size_of_cache_files disk max_size s in
  (static_file_cache_ s' !! path = Some content
   ↔ static_file_cache_ s !! path = Some content
     ∨ (static_file_cache_ s !! path = None
        ∧ disk !! path = Some (RegularFile content true)
        ∧ below disk (static_dir_ s) path
        ∧ (strlen content ≤ max_size)%N))
  ∧ router_ s' = router_ s ∧ files_ s' = files_ s
  ∧ static_dir_ s' = static_dir_ s.
Proof.
  intros s'. subst s'. unfold set_max_size_of_cache_files.
  destruct s as [? ? ? ? ? ? ? ? ? ? ? dir ? ? cache ? ? ? ?].
  cbn [with_static_file_cache_ static_file_cache_ router_ files_ static_dir_].
  split; [| repeat split].
  etransitivity;
    [apply (cache_fill_exact max_size _
              (recursive_directory_iterator_NoDup disk dir)) |].
  rewrite recursive_directory_iterator_spec. tauto.
Qed.

(** ** Registration of the static files *)

Lemma not_absolute_no_root (p : string) :
  ¬ absolute p → has_root_path p = false.
Proof.
  intros H. destruct (has_root_path p) eqn:E; [| reflexivity].
  exfalso. apply H. unfold has_root_path in E.
  destruct p as [|c p]; [discriminate |].
  cbn [String.prefix] in E.
  destruct (ascii_dec "/" c) as [<- |]; [| discriminate].
  now exists p.
Qed.

Lemma not_contains_find (pat s : string) :
  ¬ contains pat s → find pat s = None.
Proof.
  intros H. destruct (find pat s) as [m|] eqn:E; [| reflexivity].
  exfalso. apply H. unfold find in E. apply index_correct1 in E.
  pose proof (substring_cover s m (String.length pat)) as C.
  rewrite E in C. unfold contains. eauto.
Qed.

Lemma collect_files_fold (l : list (string * fs_node)) :
  ∀ s : coro_http_server,
    let s' :=
      foldl
        (λ s (file : string * fs_node),
           if negb (is_directory (snd file))
           then with_files_ (files_ s ++ [fst file]) s else s) s l in
    files_ s' = files_ s ++ (filter (λ e, negb (is_directory e.2)) l).*1
    ∧ router_ s' = router_ s ∧ static_dir_ s' = static_dir_ s
    ∧ static_dir_router_path_ s' = static_dir_router_path_ s
    ∧ static_file_cache_ s' = static_file_cache_ s.
Proof.
  induction l as [|[p n] l IH]; intros s; cbn [foldl].
  - cbn. now rewrite app_nil_r.
  - cbv zeta in IH |- *. cbn [fst snd].
    destruct n as [|data readable]; cbn [is_directory negb].
    + rewrite filter_cons_False by (cbn; tauto). apply IH.
    + rewrite filter_cons_True by (cbn; tauto).
      destruct (IH (with_files_ (files_ s ++ [p]) s))
        as (-> & -> & -> & -> & ->).
      destruct s. cbn. rewrite <- app_assoc. repeat split.
Qed.

Lemma register_static_file_uri (s : coro_http_server) (file : string) :
  register_static_file s file =
    set_http_handler GET
      (static_uri (static_dir_router_path_ s) (static_dir_ s) file)
      (static_file file) s.
Proof. reflexivity. Qed.

Lemma register_fold (fs : list string) :
  ∀ s : coro_http_server,
    let s' := foldl register_static_file s fs in
    router_ s' =
      router_ s ++
      ((λ file,
          (GET, static_uri (static_dir_router_path_ s) (static_dir_ s) file,
           static_file file)) <$> fs)
    ∧ files_ s' = files_ s ∧ static_dir_ s' = static_dir_ s
    ∧ static_dir_router_path_ s' = static_dir_router_path_ s
    ∧ static_file_cache_ s' = static_file_cache_ s.
Proof.
  induction fs as [|f fs IH]; intros s; cbn [foldl].
  - cbn. now rewrite app_nil_r.
  - cbv zeta in IH |- *. rewrite register_static_file_uri.
    destruct (IH (set_http_handler GET
                    (static_uri (static_dir_router_path_ s) (static_dir_ s) f)
                    (static_file f) s)) as (-> & -> & -> & -> & ->).
    unfold set_http_handler. destruct s. cbn. rewrite <- app_assoc.
    repeat split.
Qed.

Lemma regular_files_below (disk : filesystem) (dir path : string) :
  path ∈ (filter (λ e : string * fs_node, negb (is_directory e.2))
            (recursive_directory_iterator disk dir)).*1
  ↔ ∃ data readable,
      disk !! path = Some (RegularFile data readable) ∧ below disk dir path.
Proof.
  rewrite list_elem_of_fmap. split.
  - intros [[p n] [-> H]]. apply list_elem_of_filter in H.
    destruct H as [Hreg H]. apply recursive_directory_iterator_spec in H.
    cbn [fst snd] in *. destruct n as [|data readable]; [contradiction |].
    now exists data, readable.
  - intros (data & readable & Hfile & Hbelow).
    exists (path, RegularFile data readable). split; [reflexivity |].
    apply list_elem_of_filter. split; [exact I |].
    now apply recursive_directory_iterator_spec.
Qed.

(** What a call of [set_static_res_dir] that returns leaves in the server. *)
Lemma set_static_res_dir_configured {U : utils} (disk : filesystem)
    (uri_suffix file_path : string) (s s' : coro_http_server) :
  set_static_res_dir disk uri_suffix file_path s = Configured s' →
  let dir := if empty_str file_path then current_path else file_path in
  let router_path :=
    if empty_str uri_suffix then static_dir_router_path_ s else uri_suffix in
  static_dir_ s' = dir
  ∧ static_dir_router_path_ s' = router_path
  ∧ files_ s' =
      (filter (λ e : string * fs_node, negb (is_directory e.2))
         (recursive_directory_iterator disk dir)).*1
  ∧ router_ s' =
      router_ s ++
      ((λ file, (GET, static_uri router_path dir file, static_file file))
         <$> files_ s')
  ∧ static_file_cache_ s' = static_file_cache_ s.
Proof.
  intros H dir router_path. unfold set_static_res_dir in H.
  destruct (_ || _); [discriminate |]. cbv zeta in H.
  set (s1 := if negb (empty_str uri_suffix)
             then with_static_dir_router_path_ uri_suffix s else s) in H.
  set (s2 := if negb (empty_str file_path) then with_static_dir_ file_path s1
             else with_static_dir_ current_path s1) in H.
  set (s3 := with_files_ [] s2) in H.
  assert (router_ s3 = router_ s ∧ static_dir_ s3 = dir
          ∧ static_dir_router_path_ s3 = router_path ∧ files_ s3 = []
          ∧ static_file_cache_ s3 = static_file_cache_ s)
    as (Hr3 & Hd3 & Hp3 & Hf3 & Hc3).
  { subst s3 s2 s1 dir router_path. destruct s.
    destruct (empty_str uri_suffix), (empty_str file_path); cbn;
      repeat split. }
  destruct (collect_files_fold
              (recursive_directory_iterator disk (static_dir_ s3)) s3)
    as (Hf4 & Hr4 & Hd4 & Hp4 & Hc4).
  set (s4 := foldl _ s3 _) in *.
  destruct (register_fold (files_ s4) s4) as (Hr5 & Hf5 & Hd5 & Hp5 & Hc5).
  set (s5 := foldl register_static_file s4 (files_ s4)) in *.
  injection H as <-.
  rewrite Hf3, app_nil_l, Hd3 in Hf4.
  split; [now rewrite Hd5, Hd4 |].
  split; [now rewrite Hp5, Hp4 |].
  split; [now rewrite Hf5, Hf4 |].
  split; [| now rewrite Hc5, Hc4].
  rewrite Hr5, Hf5, Hr4, Hr3, Hp4, Hp3, Hd4, Hd3. reflexivity.
Qed.

Lemma find_backslash_after_slash (rel : string) :
  find "\" rel = None → find "\" ("/" +:+ rel) = None.
Proof.
  unfold find. intros H. rewrite append_cons, append_nil_l.
  cbn [index String.prefix]. destruct (ascii_dec "\" "/"); [discriminate |].
  now rewrite H.
Qed.

(** X13: with a relative directory and a relative URI prefix, neither
    containing [..], [set_static_res_dir] returns normally; [files_] is then
    exactly the regular files inside the directory, each once (none when the
    directory is not on the disk); the router keeps its routes and gets, per
    file, one GET route to the handler of that file; a file [dir/rel] whose
    relative part has no backslash is reachable under [/rel], preceded by
    [/] and the prefix when there is one; and the cache of file bodies is
    left as it was. *)
Theorem set_static_res_dir_registers_every_file {U : utils}
    (disk : filesystem) (uri_suffix file_path : string)
    (s : coro_http_server) :
  ¬ contains ".." file_path → ¬ contains ".." uri_suffix →
  ¬ absolute file_path → ¬ absolute uri_suffix →
  let dir := if empty_str file_path then current_path else file_path in
  let router_path :=
    if empty_str uri_suffix then static_dir_router_path_ s else uri_suffix in
  ∃ s',
    set_static_res_dir disk uri_suffix file_path s = Configured s'
    ∧ static_dir_ s' = dir
    ∧ static_dir_router_path_ s' = router_path
    ∧ static_file_cache_ s' = static_file_cache_ s
    ∧ NoDup (files_ s')
    ∧ (∀ path,
         path ∈ files_ s'
         ↔ ∃ data readable,
             disk !! path = Some (RegularFile data readable)
             ∧ below disk dir path)
    ∧ router_ s' =
        router_ s ++
        ((λ file, (GET, static_uri router_path dir file, static_file file))
           <$> files_ s')
    ∧ (∀ rel data readable,
         dir ≠ "" → ends_with_slash dir = false →
         is_directory_path disk dir = true →
         rel ≠ "" →
         disk !! (dir +:+ "/" +:+ rel) = Some (RegularFile data readable) →
         find "\" rel = None →
         (GET,
          (if empty_str router_path then "/" +:+ rel
           else ("/" +:+ router_path) +:+ "/" +:+ rel),
          static_file (dir +:+ "/" +:+ rel)) ∈ router_ s').
Proof.
  intros Hf Hu Haf Hau dir router_path.
  assert (∃ s', set_static_res_dir disk uri_suffix file_path s = Configured s')
    as [s' Hrun].
  { unfold set_static_res_dir.
    rewrite (not_absolute_no_root _ Haf), (not_absolute_no_root _ Hau).
    rewrite (not_contains_find _ _ Hf), (not_contains_find _ _ Hu).
    cbn [is_some orb]. eauto. }
  destruct (set_static_res_dir_configured _ _ _ _ _ Hrun)
    as (Hdir & Hpath & Hfiles & Hrouter & Hcache).
  fold dir in Hdir, Hfiles, Hrouter. fold router_path in Hpath, Hrouter.
  exists s'. split; [exact Hrun |].
  split; [exact Hdir |]. split; [exact Hpath |]. split; [exact Hcache |].
  split.
  { rewrite Hfiles.
    apply (sublist_NoDup _ (recursive_directory_iterator disk dir).*1).
    - apply recursive_directory_iterator_NoDup.
    - apply fmap_sublist, sublist_filter. }
  split.
  { intros path. rewrite Hfiles. apply regular_files_below. }
  split; [exact Hrouter |].
  intros rel data readable Hne Hslash Hdisk Hrel Hfile Hback.
  rewrite Hrouter. apply elem_of_app. right.
  apply list_elem_of_fmap. exists (dir +:+ "/" +:+ rel). split.
  - unfold static_uri.
    rewrite substr_append, (find_backslash_after_slash _ Hback).
    reflexivity.
  - rewrite Hfiles. apply regular_files_below.
    exists data, readable. split; [exact Hfile |].
    split; [exact Hne |]. split; [exact Hdisk |].
    exists rel. split; [exact Hrel |].
    unfold entry_prefix. rewrite Hslash. now rewrite append_assoc.
Qed.

(** X14: on a server whose cache is empty, [set_static_res_dir] followed by
    [set_max_size_of_cache_files] on the same disk caches registered files
    only: the cache then holds exactly the files of [files_] that can be
    read and whose size is at most the bound, each with its content. *)
Theorem cached_files_are_registered {U : utils} (disk : filesystem)
    (uri_suffix file_path : string) (max_size : N)
    (s s1 : coro_http_server) (path content : string) :
  set_static_res_dir disk uri_suffix file_path s = Configured s1 →
  static_file_cache_ s = ∅ →
  let s2 := set_max_size_of_cache_files disk max_size s1 in
  files_ s2 = files_ s1 ∧ router_ s2 = router_ s1
  ∧ (static_file_cache_ s2 !! path = Some content
     ↔ path ∈ files_ s2
       ∧ disk !! path = Some (RegularFile content true)
       ∧ (strlen content ≤ max_size)%N).
Proof.
  intros Hrun Hempty s2.
  destruct (set_static_res_dir_configured _ _ _ _ _ Hrun)
    as (Hdir & _ & Hfiles & _ & Hcache).
  rewrite Hempty in Hcache.
  assert (files_ s2 = files_ s1 ∧ router_ s2 = router_ s1
          ∧ static_file_cache_ s2 =
              foldl
                (λ (cache : gmap string string) (file : string * fs_node),
                   match snd file with
                   | Directory => cache
                   | RegularFile data readable =>
                       let filesize := strlen data in
                       if (max_size <? filesize)%N then cache
                       else if readable then
                         let content := data in emplace (fst file) content cache
                       else cache
                   end) (static_file_cache_ s1)
                (recursive_directory_iterator disk (static_dir_ s1)))
    as (Hf2 & Hr2 & Hc2).
  { subst s2. unfold set_max_size_of_cache_files. destruct s1. cbn.
    repeat split. }
  split; [exact Hf2 |]. split; [exact Hr2 |].
  rewrite Hc2, Hf2, Hfiles, Hcache, <- Hdir.
  rewrite (cache_fill_exact max_size _
             (recursive_directory_iterator_NoDup disk (static_dir_ s1))).
  rewrite lookup_empty, regular_files_below, recursive_directory_iterator_spec.
  split.
  - intros [[=] | (_ & [Hfile Hbelow] & Hsize)]. eauto 10.
  - intros ((d & r & Hfile & Hbelow) & Hfile' & Hsize). right. eauto.
Qed.

(** ** The handler of a static file: the whole file after a 200 header *)

Lemma stream_loop_S fuel chunked_size in_file resp conn :
  stream_loop (S fuel) chunked_size in_file resp conn =
    let '((ec, data), in_file) := async_read chunked_size in_file in
    if ec then
      let resp := set_status no_content resp in
      let '(_, conn) := conn_reply resp conn in
      Some (Returned, in_file, resp, conn)
    else
      let '(r, conn) := write_data data conn in
      if negb r then Some (Returned, in_file, resp, conn)
      else if eof in_file then Some (Returned, in_file, resp, conn)
      else stream_loop fuel chunked_size in_file resp conn.
Proof. reflexivity. Qed.

(** With no failing read or write and a positive chunk size the loop writes
    what is left of the file, in pieces of at most the chunk size, and
    returns at the end of the file. *)
Lemma stream_loop_ok (chunked_size : N) :
  (0 < chunked_size)%N →
  ∀ n in_file resp conn,
    reads_ok in_file → writes_ok conn →
    (String.length (file_data in_file) - seek_offset in_file < n)%nat →
    ∃ in_file' conn' pieces,
      stream_loop n chunked_size in_file resp conn
        = Some (Returned, in_file', resp, conn')
      ∧ wire conn' = wire conn ++ map EvWriteData pieces
      ∧ foldr String.append "" pieces =
          substring (seek_offset in_file)
            (String.length (file_data in_file) - seek_offset in_file)
            (file_data in_file)
      ∧ Forall (λ d, (String.length d ≤ N.to_nat chunked_size)%nat) pieces.
Proof.
  intros Hchunk.
  induction n as [|n IH]; intros in_file resp conn Hr Hw Hfuel; [lia |].
  rewrite stream_loop_S.
  destruct (async_read_ok chunked_size in_file Hr)
    as (f1 & -> & Hdata & Hoff & Heof & Hr1).
  set (d := substring (seek_offset in_file) (N.to_nat chunked_size)
              (file_data in_file)).
  assert (String.length d ≤ N.to_nat chunked_size)%nat as Hd
    by (subst d; rewrite substring_length; lia).
  destruct (conn_call_ok (EvWriteData d) conn Hw) as [Hok Hw1].
  pose proof (conn_call_wire (EvWriteData d) conn) as Hwire.
  unfold write_data.
  destruct (conn_call (EvWriteData d) conn) as [r conn1].
  cbn [fst snd] in Hok, Hw1, Hwire. subst r. cbn [negb].
  rewrite Heof. case_bool_decide as Hshort.
  - exists f1, conn1, [d]. split; [reflexivity |].
    split; [exact Hwire |]. split; [| now repeat constructor].
    cbn [foldr]. rewrite append_nil_r. subst d.
    apply substring_clip. lia.
  - destruct (IH f1 resp conn1 Hr1 Hw1)
      as (f2 & conn2 & pieces & Hrun & Hwire2 & Hcat & Hall);
      [rewrite Hdata, Hoff; lia |].
    exists f2, conn2, (d :: pieces). rewrite Hrun.
    split; [reflexivity |].
    split; [rewrite Hwire2, Hwire, <- app_assoc; reflexivity |].
    split; [| now constructor].
    cbn [foldr]. rewrite Hcat, Hdata, Hoff.
    replace (Nat.min (N.to_nat chunked_size)
               (String.length (file_data in_file) - seek_offset in_file))
      with (N.to_nat chunked_size) by lia.
    subst d. rewrite <- substring_split. f_equal. lia.
Qed.

(** X15: a request that is not answered in chunked format (the server is in
    range format, or the request has a [Range] header) and whose [Range]
    header has no [=] is answered, on a cache miss and when no read or write
    fails, by a 200 header whose [Content-Length] is the size of the file,
    followed by the bytes of the whole file in pieces of at most the chunk
    size; the response is in delayed mode. *)
Theorem whole_file_response {D : define_h} {U : utils}
    (s : coro_http_server) (file_name : string) (disk : filesystem)
    (data : string) (faults : list bool) (fuel : nat)
    (req : coro_http_request) (resp : coro_http_response)
    (conn : coro_http_connection) :
  static_file_cache_ s !! file_name = None →
  disk !! file_name = Some (RegularFile data true) →
  format_type_ s = frt_range ∨ get_header_value req "Range" ≠ "" →
  find "=" (get_header_value req "Range") = None →
  (0 < chunked_size_ s)%N →
  Forall (λ r, r = false) faults →
  writes_ok conn →
  (String.length data < fuel)%nat →
  let mime := get_mime_type (get_extension file_name) in
  let header :=
    build_range_header mime file_name (size_to_string (strlen data)) 200 "" in
  ∃ in_file' conn' pieces,
    static_file_handler s file_name disk faults fuel req resp conn =
      Some (Returned, in_file', set_delay true resp, conn')
    ∧ wire conn' = wire conn ++ EvWriteData header :: map EvWriteData pieces
    ∧ foldr String.append "" pieces = data
    ∧ Forall (λ d, (String.length d ≤ N.to_nat (chunked_size_ s))%nat) pieces
    ∧ wire_bytes (EvWriteData header :: map EvWriteData pieces) =
        ("HTTP/1.1 200 OK" +:+ CRCF) +:+
        ("Access-Control-Allow-origin: *" +:+ CRCF +:+ "Accept-Ranges: bytes"
           +:+ CRCF +:+ "Content-Disposition: attachment;filename="
           +:+ file_name +:+ CRCF +:+ "Connection: keep-alive" +:+ CRCF
           +:+ "Content-Type: " +:+ mime +:+ CRCF) +:+
        ("Content-Length: " +:+ size_to_string (strlen data) +:+ CRCF +:+ CRCF)
        +:+ data.
Proof.
  intros Hmiss Hfile Hfmt Hfind Hchunk Hfaults Hw Hfuel mime header.
  unfold static_file_handler. rewrite Hmiss.
  unfold async_open, file_size. rewrite Hfile. cbn [is_open negb].
  assert (file_resp_format_type_eqb (format_type_ s) frt_chunked
          && empty_str (get_header_value req "Range") = false) as ->.
  { destruct Hfmt as [-> | Hne]; [reflexivity |].
    destruct (get_header_value req "Range"); [congruence |].
    apply andb_false_r. }
  rewrite Hfind. fold mime. fold header.
  destruct (conn_call_ok (EvWriteData header) conn Hw) as [Hok Hw1].
  pose proof (conn_call_wire (EvWriteData header) conn) as Hwire.
  unfold write_data at 1.
  destruct (conn_call (EvWriteData header) conn) as [r conn1].
  cbn [fst snd] in Hok, Hw1, Hwire. subst r. cbn [negb].
  destruct (stream_loop_ok (chunked_size_ s) Hchunk fuel
              {| is_open := true; file_data := data; seek_offset := 0;
                 eof := false; read_faults := faults |}
              (set_delay true resp) conn1)
    as (f2 & conn2 & pieces & -> & Hwire2 & Hcat & Hall);
    [exact Hfaults | exact Hw1 | cbn; lia |].
  cbn in Hcat. rewrite Nat.sub_0_r, substring_full in Hcat.
  exists f2, conn2, pieces.
  split; [reflexivity |].
  split; [rewrite Hwire2, Hwire, <- app_assoc; reflexivity |].
  split; [exact Hcat |]. split; [exact Hall |].
  cbn [wire_bytes foldr event_bytes].
  assert (∀ l, foldr (λ e acc, event_bytes e +:+ acc) "" (map EvWriteData l)
               = foldr String.append "" l) as E.
  { induction l as [|x l IHl]; cbn [map foldr event_bytes]; [reflexivity |].
    now rewrite IHl. }
  rewrite E, Hcat. subst header. rewrite build_range_header_200.
  rewrite !append_assoc. reflexivity.
Qed.

(** ** The handler of a static file: error replies *)

(** X16: the file is no longer a regular file on disk when the request
    comes.  If it is not in the cache, the handler sets status 404 with the
    body [file_name ++ "not found"] and returns; if it is, the handler
    throws, since it asks the disk for the size before it sends the cached
    body.  Either way nothing is written on the connection and the response
    is not put in delayed mode. *)
Theorem static_file_handler_file_gone {D : define_h} {U : utils}
    (s : coro_http_server) (file_name : string) (disk : filesystem)
    (faults : list bool) (fuel : nat) (req : coro_http_request)
    (resp : coro_http_response) (conn : coro_http_connection) :
  file_size disk file_name = None →
  static_file_handler s file_name disk faults fuel req resp conn =
    Some (match static_file_cache_ s !! file_name with
          | Some _ => (Threw, closed_file, resp, conn)
          | None =>
              (Returned, closed_file,
               set_status_and_content not_found (file_name +:+ "not found")
                 resp, conn)
          end).
Proof.
  intros Hgone. unfold static_file_handler. rewrite Hgone.
  destruct (static_file_cache_ s !! file_name); [reflexivity |].
  unfold file_size in Hgone. unfold async_open.
  destruct (disk !! file_name) as [[|data readable]|]; try reflexivity.
  discriminate.
Qed.

(** X17: a file that exists but cannot be opened and is not in the cache is
    answered like a missing one, by a 404; and a [Range] header whose ranges
    [parse_ranges] rejects is answered by status 416, in either format of
    the server.  In both cases nothing is written on the connection. *)
Theorem static_file_handler_unreadable_or_bad_range {D : define_h} {U : utils}
    (s : coro_http_server) (file_name : string) (disk : filesystem)
    (data : string) (readable : bool) (faults : list bool) (fuel : nat)
    (req : coro_http_request) (resp : coro_http_response)
    (conn : coro_http_connection) :
  static_file_cache_ s !! file_name = None →
  disk !! file_name = Some (RegularFile data readable) →
  (readable = false →
   static_file_handler s file_name disk faults fuel req resp conn =
     Some (Returned, closed_file,
           set_status_and_content not_found (file_name +:+ "not found") resp,
           conn))
  ∧ (∀ pos ranges,
       readable = true →
       find "=" (get_header_value req "Range") = Some pos →
       parse_ranges (substr (pos + 1) (get_header_value req "Range"))
         (strlen data) = (ranges, false) →
       static_file_handler s file_name disk faults fuel req resp conn =
         Some (Returned, async_open disk file_name faults,
               set_status range_not_satisfiable resp, conn)).
Proof.
  intros Hmiss Hfile. split.
  - intros ->. unfold static_file_handler. rewrite Hmiss.
    unfold async_open. rewrite Hfile. reflexivity.
  - intros pos ranges -> Hfind Hparse.
    unfold static_file_handler. rewrite Hmiss.
    unfold async_open, file_size. rewrite Hfile. cbn [is_open negb].
    rewrite (find_nonempty "=" _ pos) by (congruence || assumption).
    rewrite andb_false_r, Hfind, Hparse. reflexivity.
Qed.

(** ** The handler of a static file: nothing follows a failed write *)

Lemma ran_refl (c : coro_http_connection) : ran true c c.
Proof.
  exists []. split; [split; [now rewrite app_nil_r | reflexivity] |].
  cbn. lia.
Qed.

Lemma ran_weaken (all : bool) (c c' : coro_http_connection) :
  ran true c c' → ran all c c'.
Proof.
  destruct all; [trivial |]. intros (evs & Hcalls & Hok).
  exists evs. split; [exact Hcalls |]. intros i Hi. apply Hok. lia.
Qed.

Lemma ran_call (c0 c : coro_http_connection) (e : conn_event) :
  ran true c0 c →
  ran false c0 (conn_call e c).2
  ∧ ((conn_call e c).1 = true → ran true c0 (conn_call e c).2).
Proof.
  intros (evs & [Hwire Hres] & Hok).
  assert (calls_between c0 (conn_call e c).2 (evs ++ [e])) as Hcalls.
  { split.
    - rewrite conn_call_wire, Hwire, <- app_assoc. reflexivity.
    - rewrite conn_call_results, Hres, length_app. cbn [List.length].
      change (tail (drop (List.length evs) (write_results c0)))
        with (drop 1 (drop (List.length evs) (write_results c0))).
      now rewrite drop_drop. }
  split.
  - exists (evs ++ [e]). split; [exact Hcalls |].
    intros i Hi. rewrite length_app in Hi. cbn [List.length] in Hi.
    apply Hok. lia.
  - intros Hr. exists (evs ++ [e]). split; [exact Hcalls |].
    intros i Hi. rewrite length_app in Hi. cbn [List.length] in Hi.
    destruct (decide (i = List.length evs)) as [-> | Hne]; [| apply Hok; lia].
    unfold call_result. unfold conn_call in Hr. cbn [fst] in Hr.
    rewrite Hres in Hr.
    rewrite <- (Nat.add_0_r (List.length evs)), <- lookup_drop.
    now destruct (drop (List.length evs) (write_results c0)).
Qed.

Lemma send_single_part_loop_ran (chunked_size : N) (more : string)
    (c0 : coro_http_connection) :
  ∀ fuel in_file resp conn part_size r in_file' resp' conn',
    ran true c0 conn →
    send_single_part_loop fuel chunked_size in_file resp conn part_size more
      = Some (r, in_file', resp', conn') →
    ran r c0 conn'.
Proof.
  induction fuel as [|fuel IH];
    intros in_file resp conn part_size r in_file' resp' conn' Hran;
    [discriminate |].
  rewrite send_single_part_loop_S. cbv zeta.
  destruct (_ =? _)%N; [intros [= <- <- <- <-]; exact Hran |].
  destruct (async_read _ _) as [[[|] data] f1].
  - destruct (ran_call c0 conn (EvReply (set_status no_content resp)) Hran)
      as [Hweak _].
    unfold conn_reply. destruct (conn_call _ conn) as [r1 c1].
    intros [= <- <- <- <-]. exact Hweak.
  - destruct (ran_call c0 conn (part_event more data) Hran)
      as [Hweak Hstrict].
    destruct (conn_call _ conn) as [[|] c1]; cbn [negb fst snd] in *.
    + apply IH. now apply Hstrict.
    + intros [= <- <- <- <-]. exact Hweak.
Qed.

Lemma chunked_loop_ran (chunked_size : N) (c0 : coro_http_connection) :
  ∀ fuel in_file resp conn o in_file' resp' conn',
    ran true c0 conn →
    chunked_loop fuel chunked_size in_file resp conn
      = Some (o, in_file', resp', conn') →
    ran false c0 conn'.
Proof.
  induction fuel as [|fuel IH];
    intros in_file resp conn o in_file' resp' conn' Hran; [discriminate |].
  rewrite chunked_loop_S.
  destruct (async_read _ _) as [[[|] data] f1].
  - destruct (ran_call c0 conn (EvReply (set_status no_content resp)) Hran)
      as [Hweak _].
    unfold conn_reply. destruct (conn_call _ conn) as [r1 c1].
    intros [= <- <- <- <-]. exact Hweak.
  - destruct (ran_call c0 conn (EvWriteChunked data) Hran)
      as [Hweak Hstrict].
    unfold write_chunked.
    destruct (conn_call _ conn) as [[|] c1]; cbn [negb fst snd] in *.
    + destruct (eof f1); [| apply IH; now apply Hstrict].
      destruct (ran_call c0 c1 EvEndChunked (Hstrict eq_refl)) as [Hend _].
      unfold end_chunked. destruct (conn_call _ c1) as [r2 c2].
      intros [= <- <- <- <-]. exact Hend.
    + intros [= <- <- <- <-]. exact Hweak.
Qed.

Lemma stream_loop_ran (chunked_size : N) (c0 : coro_http_connection) :
  ∀ fuel in_file resp conn o in_file' resp' conn',
    ran true c0 conn →
    stream_loop fuel chunked_size in_file resp conn
      = Some (o, in_file', resp', conn') →
    ran false c0 conn'.
Proof.
  induction fuel as [|fuel IH];
    intros in_file resp conn o in_file' resp' conn' Hran; [discriminate |].
  rewrite stream_loop_S.
  destruct (async_read _ _) as [[[|] data] f1].
  - destruct (ran_call c0 conn (EvReply (set_status no_content resp)) Hran)
      as [Hweak _].
    unfold conn_reply. destruct (conn_call _ conn) as [r1 c1].
    intros [= <- <- <- <-]. exact Hweak.
  - destruct (ran_call c0 conn (EvWriteData data) Hran) as [Hweak Hstrict].
    unfold write_data.
    destruct (conn_call _ conn) as [[|] c1]; cbn [negb fst snd] in *.
    + destruct (eof f1); [| apply IH; now apply Hstrict].
      intros [= <- <- <- <-]. exact Hweak.
    + intros [= <- <- <- <-]. exact Hweak.
Qed.

Lemma multipart_loop_ran {D : define_h} (s : coro_http_server)
    (n : nat) (multi_heads : list string) (c0 : coro_http_connection) :
  ∀ rest i in_file resp conn o in_file' resp' conn',
    ran true c0 conn →
    multipart_loop s rest i n multi_heads in_file resp conn
      = Some (o, in_file', resp', conn') →
    ran false c0 conn'.
Proof.
  induction rest as [|[a b] rest IH];
    intros i in_file resp conn o in_file' resp' conn' Hran.
  - intros [= <- <- <- <-]. now apply ran_weaken.
  - rewrite multipart_loop_cons. cbv zeta.
    destruct (ran_call c0 conn
                (EvWriteData (default "" (multi_heads !! i))) Hran)
      as [Hweak Hstrict].
    unfold write_data.
    destruct (conn_call _ conn) as [[|] c1]; cbn [negb fst snd] in *;
      [| intros [= <- <- <- <-]; exact Hweak].
    destruct (send_single_part s _ _ c1 _ _) as [[[[r f2] resp2] c2]|] eqn:E;
      [| discriminate].
    apply (send_single_part_loop_ran _ _ c0) in E; [| now apply Hstrict].
    destruct r; cbn [negb].
    + now apply IH.
    + intros [= <- <- <- <-]. exact E.
Qed.

(** X18: whatever the request, the disk and the outcomes of the reads and
    writes are, when the handler returns, every call it made on the
    connection except possibly the last one had succeeded: after a write
    that fails the handler writes nothing more. *)
Theorem static_file_handler_stops_at_failed_write {D : define_h} {U : utils}
    (s : coro_http_server) (file_name : string) (disk : filesystem)
    (faults : list bool) (fuel : nat) (req : coro_http_request)
    (resp : coro_http_response) (conn : coro_http_connection)
    (o : outcome) (in_file' : coro_file) (resp' : coro_http_response)
    (conn' : coro_http_connection) :
  static_file_handler s file_name disk faults fuel req resp conn
    = Some (o, in_file', resp', conn') →
  ∃ evs,
    calls_between conn conn' evs
    ∧ ∀ i, (S i < List.length evs)%nat → call_result conn i = true.
Proof.
  intros H. change (ran false conn conn').
  pose proof (ran_refl conn) as Hran.
  pose proof (ran_weaken false conn conn Hran) as Hnone.
  unfold static_file_handler in H.
  destruct (static_file_cache_ s !! file_name) as [body|].
  { destruct (file_size disk file_name) as [fsz|];
      [| injection H as <- <- <- <-; exact Hnone].
    destruct (ran_call conn conn
                (EvAsyncWrite
                   [build_range_header (get_mime_type (get_extension file_name))
                      file_name (size_to_string fsz) 200 ""; body]) Hran)
      as [Hweak _].
    unfold async_write in H. destruct (conn_call _ conn) as [r1 c1].
    injection H as <- <- <- <-. exact Hweak. }
  destruct (negb (is_open _)); [injection H as <- <- <- <-; exact Hnone |].
  destruct (file_size disk file_name) as [fsize|];
    [| injection H as <- <- <- <-; exact Hnone].
  destruct (_ && _).
  { destruct (ran_call conn conn EvBeginChunked Hran) as [Hweak Hstrict].
    unfold begin_chunked in H.
    destruct (conn_call _ conn) as [[|] c1]; cbn [negb fst snd] in *;
      [| injection H as <- <- <- <-; exact Hweak].
    eapply chunked_loop_ran; [| exact H]. now apply Hstrict. }
  destruct (find "=" _) as [pos|].
  2: { match type of H with
       | context [write_data ?h conn] =>
           destruct (ran_call conn conn (EvWriteData h) Hran)
             as [Hweak Hstrict]
       end.
       unfold write_data in H.
       destruct (conn_call _ conn) as [[|] c1]; cbn [negb fst snd] in *;
         [| injection H as <- <- <- <-; exact Hweak].
       eapply stream_loop_ran; [| exact H]. now apply Hstrict. }
  destruct (parse_ranges _ _) as [ranges [|]]; cbn [negb] in H;
    [| injection H as <- <- <- <-; exact Hnone].
  destruct ranges as [|[start end_] [|r2 rs]].
  - injection H as <- <- <- <-. exact Hnone.
  - match type of H with
    | context [write_data ?h conn] =>
        destruct (ran_call conn conn (EvWriteData h) Hran) as [Hweak Hstrict]
    end.
    unfold write_data in H.
    destruct (conn_call _ conn) as [[|] c1]; cbn [negb fst snd] in *;
      [| injection H as <- <- <- <-; exact Hweak].
    destruct (send_single_part s _ _ c1 _ _) as [[[[r f2] resp2] c2]|] eqn:E;
      [| discriminate].
    apply (send_single_part_loop_ran _ _ conn) in E; [| now apply Hstrict].
    injection H as <- <- <- <-.
    destruct r; [now apply ran_weaken | exact E].
  - destruct (build_part_heads _ _ _ _) as [multi_heads content_len].
    destruct (ran_call conn conn
                (EvWriteData (build_multiple_range_header content_len)) Hran)
      as [Hweak Hstrict].
    unfold write_data in H.
    destruct (conn_call _ conn) as [[|] c1]; cbn [negb fst snd] in *;
      [| injection H as <- <- <- <-; exact Hweak].
    eapply multipart_loop_ran; [| exact H]. now apply Hstrict.
Qed.

(** ** The handler of a static file: a read error in the middle *)

Lemma async_read_fault (len : N) (f : coro_file) (rest : list bool) :
  read_faults f = true :: rest →
  async_read len f =
    ((true, ""),
     {| is_open := is_open f; file_data := file_data f;
        seek_offset := seek_offset f; eof := eof f; read_faults := rest |}).
Proof. intros H. unfold async_read. now rewrite H. Qed.

Lemma async_read_full (len : N) (f : coro_file) (rest : list bool) :
  read_faults f = false :: rest →
  (seek_offset f + N.to_nat len ≤ String.length (file_data f))%nat →
  async_read len f =
    ((false, substring (seek_offset f) (N.to_nat len) (file_data f)),
     {| is_open := is_open f; file_data := file_data f;
        seek_offset := (seek_offset f + N.to_nat len)%nat; eof := false;
        read_faults := rest |}).
Proof.
  intros H Hfit. unfold async_read. rewrite H. cbn [tail].
  assert (String.length
            (substring (seek_offset f) (N.to_nat len) (file_data f))
          = N.to_nat len) as E by (rewrite substring_length; lia).
  unfold strlen. rewrite E, N2Nat.id, N.ltb_irrefl. reflexivity.
Qed.

Lemma chunked_loop_read_error (chunked_size : N) (rest : list bool) :
  ∀ (k fuel : nat) (in_file : coro_file) (resp : coro_http_response)
    (conn : coro_http_connection),
    read_faults in_file = replicate k false ++ true :: rest →
    writes_ok conn →
    (seek_offset in_file + k * N.to_nat chunked_size
       ≤ String.length (file_data in_file))%nat →
    (k < fuel)%nat →
    ∃ in_file' conn' pieces,
      chunked_loop fuel chunked_size in_file resp conn
        = Some (Returned, in_file', set_status no_content resp, conn')
      ∧ wire conn' =
          wire conn ++ map EvWriteChunked pieces
            ++ [EvReply (set_status no_content resp)]
      ∧ List.length pieces = k
      ∧ foldr String.append "" pieces =
          substring (seek_offset in_file) (k * N.to_nat chunked_size)
            (file_data in_file).
Proof.
  induction k as [|k IH]; intros [|fuel] in_file resp conn Hf Hw Hfit Hfuel;
    try lia; rewrite chunked_loop_S.
  - cbn [replicate app] in Hf. rewrite (async_read_fault _ _ _ Hf).
    pose proof (conn_call_wire (EvReply (set_status no_content resp)) conn)
      as Hwire.
    unfold conn_reply. destruct (conn_call _ conn) as [r conn1].
    cbn [snd] in Hwire.
    eexists _, conn1, []. split; [reflexivity |].
    split; [exact Hwire |]. split; [reflexivity |].
    cbn. now rewrite substring_zero.
  - cbn [replicate app] in Hf.
    rewrite (async_read_full _ _ _ Hf) by lia.
    set (d := substring (seek_offset in_file) (N.to_nat chunked_size)
                (file_data in_file)).
    destruct (conn_call_ok (EvWriteChunked d) conn Hw) as [Hok Hw1].
    pose proof (conn_call_wire (EvWriteChunked d) conn) as Hwire.
    unfold write_chunked.
    destruct (conn_call (EvWriteChunked d) conn) as [r conn1].
    cbn [fst snd] in Hok, Hw1, Hwire. subst r. cbn [negb eof].
    destruct (IH fuel
                {| is_open := is_open in_file; file_data := file_data in_file;
                   seek_offset := (seek_offset in_file + N.to_nat chunked_size)%nat;
                   eof := false; read_faults := replicate k false ++ true :: rest |}
                resp conn1)
      as (f2 & conn2 & pieces & Hrun & Hwire2 & Hlen & Hcat);
      [reflexivity | exact Hw1 | cbn; lia | lia |].
    exists f2, conn2, (d :: pieces). rewrite Hrun.
    split; [reflexivity |].
    split; [rewrite Hwire2, Hwire, <- app_assoc; reflexivity |].
    split; [cbn; lia |].
    cbn [foldr]. rewrite Hcat. cbn [seek_offset file_data].
    subst d. rewrite <- substring_split. f_equal.
Qed.

(** X19: a chunked response whose file read fails after [k] full chunks
    have been read and written is not closed by the zero chunk: after
    [begin_chunked] and the [k] chunks the handler sets status 204, calls
    [reply] and returns, so that a reply follows the chunks already sent. *)
Theorem chunked_response_read_error_after_chunks {D : define_h} {U : utils}
    (s : coro_http_server) (file_name : string) (disk : filesystem)
    (data : string) (k : nat) (rest : list bool) (fuel : nat)
    (req : coro_http_request) (resp : coro_http_response)
    (conn : coro_http_connection) :
  static_file_cache_ s !! file_name = None →
  disk !! file_name = Some (RegularFile data true) →
  format_type_ s = frt_chunked →
  get_header_value req "Range" = "" →
  writes_ok conn →
  (k * N.to_nat (chunked_size_ s) ≤ String.length data)%nat →
  (k < fuel)%nat →
  let faults := replicate k false ++ true :: rest in
  let failed := set_status no_content (set_format_type chunked resp) in
  ∃ in_file' conn' pieces,
    static_file_handler s file_name disk faults fuel req resp conn =
      Some (Returned, in_file', failed, conn')
    ∧ wire conn' =
        wire conn ++ EvBeginChunked :: map EvWriteChunked pieces
          ++ [EvReply failed]
    ∧ List.length pieces = k
    ∧ foldr String.append "" pieces =
        substring 0 (k * N.to_nat (chunked_size_ s)) data
    ∧ EvEndChunked ∉ EvBeginChunked :: map EvWriteChunked pieces
                       ++ [EvReply failed].
Proof.
  intros Hmiss Hfile Hfmt Hrange Hw Hfit Hfuel faults failed.
  unfold static_file_handler. rewrite Hmiss.
  unfold async_open, file_size. rewrite Hfile. cbn [is_open negb].
  rewrite Hfmt, Hrange. cbn [file_resp_format_type_eqb empty_str andb].
  destruct (conn_call_ok EvBeginChunked conn Hw) as [Hok Hw1].
  pose proof (conn_call_wire EvBeginChunked conn) as Hwire.
  unfold begin_chunked. destruct (conn_call EvBeginChunked conn) as [r conn1].
  cbn [fst snd] in Hok, Hw1, Hwire. subst r. cbn [negb].
  destruct (chunked_loop_read_error (chunked_size_ s) rest k fuel
              {| is_open := true; file_data := data; seek_offset := 0;
                 eof := false; read_faults := faults |}
              (set_format_type chunked resp) conn1)
    as (f2 & conn2 & pieces & -> & Hwire2 & Hlen & Hcat);
    [reflexivity | exact Hw1 | cbn; lia | exact Hfuel |].
  exists f2, conn2, pieces.
  split; [reflexivity |].
  split; [rewrite Hwire2, Hwire, <- app_assoc; reflexivity |].
  split; [exact Hlen |]. split; [exact Hcat |].
  intros Hin. apply elem_of_cons in Hin. destruct Hin as [[=] | Hin].
  apply elem_of_app in Hin. destruct Hin as [Hin | Hin].
  - apply list_elem_of_fmap in Hin. now destruct Hin as (? & [=] & _).
  - apply list_elem_of_singleton in Hin. discriminate.
Qed.

(** * Histories *)















(** * The further statements on concrete servers *)

Lemma accept_registers_fresh_ids_witness :
  let s' :=
    (accept [Accepted; AcceptFailed no_descriptors; Accepted]
       (new_server false)).1 in
  conn_id_ s' = 2%N ∧ connection_count s' = 2%nat
  ∧ is_Some (connections_ s' !! 2%N).
Proof.
  destruct (accept_registers_fresh_ids
              [Accepted; AcceptFailed no_descriptors; Accepted]
              (new_server false))
    as (Hid & Hcount & _ & _ & Hnew).
  - intros id [x Hx]. cbn in Hx. rewrite lookup_empty in Hx. discriminate.
  - vm_compute; reflexivity.
  - cbv zeta. split; [exact Hid |]. split; [exact Hcount |].
    apply Hnew. rewrite Hid. cbn. lia.
Defined.

Lemma accept_applies_options_witness :
  match
    connections_ (accept [Accepted] (set_no_delay false (new_server true))).1
      !! 1%N
  with
  | Some c =>
      tcp_no_delay c = false ∧ conn_executor c = out_executor
      ∧ quit_callback c = Some 1%N
  | None => False
  end.
Proof.
  destruct (connections_ _ !! 1%N) as [c|] eqn:E.
  - destruct (accept_applies_options [Accepted]
                (set_no_delay false (new_server true)) 1 c)
      as (H1 & _ & _ & H4 & H5 & _).
    + apply lookup_empty.
    + exact E.
    + split; [exact H1 |]. split; [exact H4 | exact H5].
  - vm_compute in E. discriminate.
Defined.

Lemma quit_callback_undoes_accept_witness :
  connections_ (quit_callback_run 1 (accept [Accepted] (new_server false)).1)
  = ∅.
Proof.
  destruct (quit_callback_undoes_accept (new_server false)) as (H & _).
  - intros id [x Hx]. cbn in Hx. rewrite lookup_empty in Hx. discriminate.
  - vm_compute; reflexivity.
  - exact H.
Defined.

Lemma stop_closes_every_connection_witness :
  match stop running_server with
  | Some s1 =>
      ConnClosed 1 ∈ effects s1 ∧ TimerCancelled ∈ effects s1
      ∧ PoolStopped ∈ effects s1 ∧ ThreadJoined ∈ effects s1
  | None => False
  end.
Proof.
  destruct (stop running_server) as [s1|] eqn:E.
  - destruct (stop_closes_every_connection running_server s1 E)
      as (Hclose & Htimer & _ & Hpool & _).
    + right. reflexivity.
    + split; [apply Hclose; vm_compute; eauto |].
      split; [exact Htimer |]. now apply Hpool.
  - vm_compute in E. discriminate.
Defined.

Lemma no_idle_check_after_stop_witness :
  match stop running_server with
  | Some s1 =>
      (on_check_timer (λ _, 0) false 100 (s1, new_members 8080)).1 = s1
      ∧ check_timer_
          (on_check_timer (λ _, 0) false 100 (s1, new_members 8080)).2 = false
  | None => False
  end.
Proof.
  destruct (stop running_server) as [s1|] eqn:E.
  - destruct (no_idle_check_after_stop running_server s1 (λ _, 0) false 100
                (new_members 8080) E)
      as (H1 & H2 & _).
    + right. reflexivity.
    + split; [exact H1 | exact H2].
  - vm_compute in E. discriminate.
Defined.

Lemma start_then_stop_returns_witness :
  let started :=
    (async_start (Listening 8080) [Accepted; Accepted] false
       (new_server false, new_members 0)).1 in
  port started = 8080%N
  ∧ ∃ s2, stop started.1 = Some s2
          ∧ connections_ s2 = ∅ ∧ acceptor_ s2 = false.
Proof.
  destruct (start_then_stop_returns 8080 [Accepted; Accepted] false
              (new_server false, new_members 0))
    as (Hport & _ & Hstop).
  split; [exact Hport |].
  destruct Hstop as (_ & s2 & Hs2 & Hconn & Hacc & _);
    [vm_compute; discriminate | reflexivity |].
  exists s2. split; [exact Hs2 |]. split; [exact Hconn | exact Hacc].
Defined.

Lemma accept_loop_exception_blocks_stop_witness :
  let result :=
    async_start (Listening 8080) [Accepted] true
      (new_server false, new_members 0) in
  result.2 = Some io_error
  ∧ is_Some (connections_ result.1.1 !! 1%N)
  ∧ stop result.1.1 = None.
Proof.
  destruct (accept_loop_exception_blocks_stop 8080 [Accepted]
              (new_server false, new_members 0))
    as (Hres & _ & _ & _ & _ & Hstop).
  - reflexivity.
  - constructor; [intros error [=] | constructor].
  - split; [exact Hres |]. split; [vm_compute; eauto | exact Hstop].
Defined.

Lemma set_static_res_dir_registers_every_file_witness :
  ∃ s',
    @set_static_res_dir (sample_utils [] true) sample_disk "static" "www"
      (new_server false) = Configured s'
    ∧ static_dir_ s' = "www"
    ∧ (GET, "/static/a.txt", static_file "www/a.txt") ∈ router_ s'.
Proof.
  destruct (@set_static_res_dir_registers_every_file (sample_utils [] true)
              sample_disk "static" "www" (new_server false))
    as (s' & Hrun & Hdir & _ & _ & _ & _ & _ & Hroute).
  - intros H. apply find_contains in H; [vm_compute in H |]; discriminate.
  - intros H. apply find_contains in H; [vm_compute in H |]; discriminate.
  - intros H. apply has_root_path_absolute in H. vm_compute in H.
    discriminate.
  - intros H. apply has_root_path_absolute in H. vm_compute in H.
    discriminate.
  - exists s'. split; [exact Hrun |]. split; [exact Hdir |].
    apply (Hroute "a.txt" "0123456789" true);
      [discriminate | reflexivity | vm_compute; reflexivity | discriminate
      | vm_compute; reflexivity | vm_compute; reflexivity].
Defined.

Lemma cached_files_are_registered_witness :
  "www/a.txt"
  ∈ files_ (set_max_size_of_cache_files sample_disk 100 static_server).
Proof.
  destruct (@cached_files_are_registered (sample_utils [] true) sample_disk
              "static" "www" 100 (new_server false) static_server
              "www/a.txt" "0123456789")
    as (_ & _ & Hiff).
  - vm_compute; reflexivity.
  - reflexivity.
  - apply Hiff. vm_compute; reflexivity.
Defined.

Lemma whole_file_response_witness :
  ∃ in_file' conn' pieces,
    @static_file_handler sample_define_h (sample_utils [] true)
      range_format_server "www/a.txt" sample_disk [] 11 plain_request
      fresh_response (fresh_connection pool_executor)
    = Some (Returned, in_file', set_delay true fresh_response, conn')
    ∧ foldr String.append "" pieces = "0123456789"
    ∧ Forall (λ d, (String.length d ≤ 4)%nat) pieces.
Proof.
  destruct (@whole_file_response sample_define_h (sample_utils [] true)
              range_format_server "www/a.txt" sample_disk "0123456789" [] 11
              plain_request fresh_response (fresh_connection pool_executor))
    as (f & c & pieces & Hrun & _ & Hcat & Hall & _).
  - vm_compute; reflexivity.
  - vm_compute; reflexivity.
  - left. reflexivity.
  - vm_compute; reflexivity.
  - vm_compute; reflexivity.
  - constructor.
  - constructor.
  - cbn. lia.
  - exists f, c, pieces. split; [exact Hrun |].
    split; [exact Hcat | exact Hall].
Defined.

Lemma static_file_handler_file_gone_witness :
  @static_file_handler sample_define_h (sample_utils [] true)
    (new_server false) "www/b.txt" sample_disk [] 0 plain_request
    fresh_response (fresh_connection pool_executor)
  = Some (Returned, closed_file,
          set_status_and_content not_found "www/b.txtnot found" fresh_response,
          fresh_connection pool_executor)
  ∧ @static_file_handler sample_define_h (sample_utils [] true)
      cached_server "www/a.txt" ∅ [] 0 plain_request
      fresh_response (fresh_connection pool_executor)
    = Some (Threw, closed_file, fresh_response,
            fresh_connection pool_executor).
Proof.
  split.
  - rewrite (@static_file_handler_file_gone sample_define_h
               (sample_utils [] true) (new_server false) "www/b.txt"
               sample_disk [] 0 plain_request fresh_response
               (fresh_connection pool_executor));
      vm_compute; reflexivity.
  - rewrite (@static_file_handler_file_gone sample_define_h
               (sample_utils [] true) cached_server "www/a.txt" ∅ [] 0
               plain_request fresh_response (fresh_connection pool_executor));
      vm_compute; reflexivity.
Defined.

Lemma static_file_handler_unreadable_or_bad_range_witness :
  @static_file_handler sample_define_h (sample_utils [] true)
    (new_server false) "www/secret" locked_disk [] 0 plain_request
    fresh_response (fresh_connection pool_executor)
  = Some (Returned, closed_file,
          set_status_and_content not_found "www/secretnot found"
            fresh_response,
          fresh_connection pool_executor)
  ∧ @static_file_handler sample_define_h (sample_utils [] false)
      (new_server false) "www/a.txt" sample_disk [] 0
      (range_request "bytes=20-30") fresh_response
      (fresh_connection pool_executor)
    = Some (Returned, async_open sample_disk "www/a.txt" [],
            set_status range_not_satisfiable fresh_response,
            fresh_connection pool_executor).
Proof.
  split.
  - destruct (@static_file_handler_unreadable_or_bad_range sample_define_h
                (sample_utils [] true) (new_server false) "www/secret"
                locked_disk "x" false [] 0 plain_request fresh_response
                (fresh_connection pool_executor)) as [H _];
      [vm_compute; reflexivity | vm_compute; reflexivity |].
    now apply H.
  - destruct (@static_file_handler_unreadable_or_bad_range sample_define_h
                (sample_utils [] false) (new_server false) "www/a.txt"
                sample_disk "0123456789" true [] 0
                (range_request "bytes=20-30") fresh_response
                (fresh_connection pool_executor)) as [_ H];
      [vm_compute; reflexivity | vm_compute; reflexivity |].
    apply (H 5%nat []); [reflexivity | vm_compute; reflexivity | reflexivity].
Defined.

Lemma static_file_handler_stops_at_failed_write_witness :
  match
    @static_file_handler sample_define_h (sample_utils [] true)
      (set_transfer_chunked_size 4 (new_server false)) "www/a.txt"
      sample_disk [] 11 plain_request fresh_response flaky_connection
  with
  | Some (_, _, _, conn') =>
      ∃ evs,
        calls_between flaky_connection conn' evs
        ∧ ∀ i, (S i < List.length evs)%nat →
               call_result flaky_connection i = true
  | None => False
  end.
Proof.
  destruct (@static_file_handler sample_define_h (sample_utils [] true)
              (set_transfer_chunked_size 4 (new_server false)) "www/a.txt"
              sample_disk [] 11 plain_request fresh_response flaky_connection)
    as [[[[o f] r] c]|] eqn:E.
  - exact (@static_file_handler_stops_at_failed_write sample_define_h
             (sample_utils [] true) _ _ _ _ _ _ _ _ o f r c E).
  - vm_compute in E. discriminate.
Defined.

Lemma chunked_response_read_error_after_chunks_witness :
  ∃ in_file' conn' pieces,
    @static_file_handler sample_define_h (sample_utils [] true)
      (set_transfer_chunked_size 4 (new_server false)) "www/a.txt"
      sample_disk [false; false; true] 5 plain_request fresh_response
      (fresh_connection pool_executor)
    = Some (Returned, in_file',
            set_status no_content (set_format_type chunked fresh_response),
            conn')
    ∧ List.length pieces = 2%nat
    ∧ foldr String.append "" pieces = "01234567".
Proof.
  destruct (@chunked_response_read_error_after_chunks sample_define_h
              (sample_utils [] true)
              (set_transfer_chunked_size 4 (new_server false)) "www/a.txt"
              sample_disk "0123456789" 2 [] 5 plain_request fresh_response
              (fresh_connection pool_executor))
    as (f & c & pieces & Hrun & _ & Hlen & Hcat & _).
  - vm_compute; reflexivity.
  - vm_compute; reflexivity.
  - reflexivity.
  - reflexivity.
  - constructor.
  - cbn. lia.
  - lia.
  - exists f, c, pieces. split; [exact Hrun |].
    split; [exact Hlen | exact Hcat].
Defined.

Lemma multipart_response_parts_within_chunk_witness :
  ∃ in_file' conn' header,
    @static_file_handler sample_define_h (sample_utils two_ranges true)
      (set_transfer_chunked_size 4 (new_server false)) "www/a.txt"
      sample_disk [] 0 (range_request "bytes=0-3,6-9") fresh_response
      (fresh_connection pool_executor)
    = Some (Returned, in_file', set_delay true fresh_response, conn')
    ∧ wire conn' =
        [EvWriteData header;
         EvWriteData (@part_head sample_define_h "text/plain" "10" (0, 3));
         EvAsyncWrite ["0123"; CRCF];
         EvWriteData (@part_head sample_define_h "text/plain" "10" (6, 9));
         EvAsyncWrite ["6789"; "--BOUNDARY--"]].
Proof.
  destruct (@multipart_response_parts_within_chunk sample_define_h
              (sample_utils two_ranges true)
              (set_transfer_chunked_size 4 (new_server false)) "www/a.txt"
              sample_disk "0123456789" [] 0 (range_request "bytes=0-3,6-9")
              fresh_response (fresh_connection pool_executor) 5
              (0, 3) (6, 9) [])
    as (f & c & Hrun & Hwire & _).
  - vm_compute; reflexivity.
  - vm_compute; reflexivity.
  - vm_compute; reflexivity.
  - vm_compute; reflexivity.
  - repeat constructor; cbn; lia.
  - constructor.
  - constructor.
  - exists f, c. eexists. split; [exact Hrun |]. exact Hwire.
Defined.

Lemma content_length_exact_iff_witness :
  Z.of_N (@build_part_heads sample_define_h two_ranges "text/plain" "10" 0).2 =
    Z.of_nat
      (String.length
         (@multipart_body sample_define_h
            (map (@part_head sample_define_h "text/plain" "10") two_ranges)
            two_ranges "0123456789"))
  ↔ strlen (@MULTIPART_END sample_define_h) =
      (strlen CRCF + strlen (@BOUNDARY sample_define_h) + 4)%N.
Proof.
  apply (@content_length_exact_iff sample_define_h "text/plain" "10"
           "0123456789" two_ranges).
  - discriminate.
  - repeat constructor; cbn; lia.
  - vm_compute; reflexivity.
Defined.

Lemma cache_hit_throws_when_file_is_gone_witness :
  static_file_cache_ cached_server !! "www/a.txt" = Some "0123456789"
  ∧ @static_file_handler sample_define_h (sample_utils [] true) cached_server
      "www/a.txt" (delete "www/a.txt" sample_disk) [] 0 plain_request
      fresh_response (fresh_connection pool_executor)
    = Some (Threw, closed_file, fresh_response,
            fresh_connection pool_executor).
Proof.
  assert (static_file_cache_ cached_server !! "www/a.txt"
          = Some "0123456789") as Hhit by (vm_compute; reflexivity).
  split; [exact Hhit |].
  apply (@cache_hit_throws_when_file_is_gone sample_define_h
           (sample_utils [] true) cached_server "www/a.txt"
           (delete "www/a.txt" sample_disk) [] 0 plain_request fresh_response
           (fresh_connection pool_executor) "0123456789" Hhit).
  vm_compute; reflexivity.
Defined.

(** C3 as stated fails: with a chunk size of 0 the header of the range is
    written and not one byte of the range after it; when the first read of
    the file fails, the header is followed by the reply of a 204 and by no
    byte of the range; and when a write of the body fails, the handler
    stops there. *)
Lemma single_range_cut_short :
  let run s faults conn :=
    final_wire
      (@static_file_handler sample_define_h (sample_utils [(2, 5)] true) s
         "www/a.txt" sample_disk faults 0 (range_request "bytes=2-5")
         fresh_response conn) in
  let no_chunk :=
    run (set_transfer_chunked_size 0 (new_server false)) []
      (fresh_connection pool_executor) in
  let no_read := run two_byte_chunks [true] (fresh_connection pool_executor) in
  let no_write := run two_byte_chunks [] flaky_connection in
  (List.length no_chunk = 1%nat
   ∧ wire_bytes (tail no_chunk) ≠ range_bytes "0123456789" (2, 5))
  ∧ (tail no_read =
       [EvReply (set_status no_content (set_delay true fresh_response))]
     ∧ wire_bytes (tail no_read) ≠ range_bytes "0123456789" (2, 5))
  ∧ (tail no_write = [EvWriteData "23"]
     ∧ wire_bytes (tail no_write) ≠ range_bytes "0123456789" (2, 5)).
Proof.
  cbv zeta. repeat split; try (vm_compute; reflexivity);
    vm_compute; discriminate.
Qed.


